(** * Global-styles hooks of the block editor

    A shallow embedding of
    [packages/block-editor/src/components/global-styles/hooks.js]:
    the reset hook, the setting accessor, the style accessor and the
    capability filter, together with the parts of the JavaScript runtime,
    of fast-deep-equal and of lodash ([get], [set]) they run on; and of the
    [onSelect] callback of the navigation menus screen of the site editor.

    Data model.  A configuration is JavaScript data: [undefined], [null],
    booleans, numbers, strings, arrays and plain objects.  Objects are finite
    maps from property names to values (an [undefined] value is still a
    property); arrays are lists, a gap being an [undefined] element.
    Numbers are integers; strings are texts of one-byte characters.

    Property paths are split at dots, which is how lodash splits a path
    that has no bracket in it ([bracket_free]); the bracket notation is not
    interpreted.  Values have no prototype chain: names that only exist
    through a prototype ([constructor], [toString], ...) read as
    [undefined] from a value, so the model is that of the code for paths
    whose segments are names of their own ([own_name], [plain_path]).  The
    one place where the hooks look a name up in an object they built
    themselves, the bundle of views, knows the inherited names
    ([bundle_member]).  Writes that would leave the data model end in the
    outcome [Unmodelled]: a named property or a new length on an array.
    At the keys [__proto__], [constructor] and [prototype] lodash refuses
    to write and returns what it has built so far.

    The hooks read a context and hand an updater to [setUserConfig].  Here
    the context is the map of its data entries ([user], [base], [merged]),
    and an updater is a function from the current user configuration to the
    outcome of the update.  The updaters are embedded twice: on data, where
    a configuration is a value, and on a heap, where it is an object with an
    identity that a write could change in place.  The last part of the file
    shows that the two runs agree. *)

From stdpp Require Import gmap strings list fin_maps pretty.
From Stdlib Require Import ZArith Ascii.

Set Warnings "-register-all,-clear-no-such-hyp".

(* ===================================================================== *)
(** ** JavaScript values                                                  *)
(* ===================================================================== *)

Module Js.

Inductive JsVal :=
| JUndefined
| JNull
| JBool (b : bool)
| JNum (n : Z)
| JStr (s : string)
| JArr (elems : list JsVal)
| JObj (props : gmap string JsVal).

(** Number of nodes of a value: the measure for induction on values. *)
Fixpoint jsize (v : JsVal) : nat :=
  match v with
  | JArr l => S (foldr (fun x n => jsize x + n) 0 l)
  | JObj m => S (map_fold (fun _ x n => jsize x + n) 0 m)
  | _ => 1
  end.

(** What a call can end in: a returned value or a thrown exception.
    [Unmodelled] marks the few writes whose effect lies outside the data
    model (see [assignValue] below); no theorem draws a conclusion from it. *)
Inductive JsError :=
| UnsupportedSource      (* throw 'Unsupported source' *)
| SyntaxError            (* JSON.parse of a non-JSON text *)
| TypeError              (* property read on undefined or null *)
| Unmodelled.

Inductive Completion (A : Type) :=
| Returns (a : A)
| Throws (e : JsError).
Arguments Returns {A} a.
Arguments Throws {A} e.

#[global] Instance completion_bind : MBind Completion := fun A B k c =>
  match c with
  | Returns a => k a
  | Throws e => Throws e
  end.

(** [!! v] *)
Definition truthy (v : JsVal) : bool :=
  match v with
  | JUndefined | JNull => false
  | JBool b => b
  | JNum n => negb (n =? 0)%Z
  | JStr s => negb (String.eqb s "")
  | JArr _ | JObj _ => true
  end.

(** [v == null] *)
Definition nullish (v : JsVal) : bool :=
  match v with
  | JUndefined | JNull => true
  | _ => false
  end.

(** [a ?? b] *)
Definition coalesce (a b : JsVal) : JsVal := if nullish a then b else a.

(** [Array.isArray( v )] *)
Definition isArray (v : JsVal) : bool :=
  match v with JArr _ => true | _ => false end.

(** Value of a string of decimal digits. *)
Definition digit_of (a : ascii) : option N :=
  let n := N_of_ascii a in
  if ((48 <=? n) && (n <=? 57))%N then Some (n - 48)%N else None.

Fixpoint digits_value (acc : N) (s : string) : option N :=
  match s with
  | EmptyString => Some acc
  | String a s' =>
      match digit_of a with
      | Some d => digits_value (10 * acc + d)%N s'
      | None => None
      end
  end.

(** A canonical numeric string: the decimal notation of a natural number,
    without sign, leading zero or fraction. *)
Definition canonical_uint (s : string) : option N :=
  match s with
  | EmptyString => None
  | _ =>
      match digits_value 0 s with
      | Some n => if decide (pretty n = s) then Some n else None
      | None => None
      end
  end.

(** An array index is a canonical numeric string below [2^32 - 1]. *)
Definition array_index (s : string) : option nat :=
  match canonical_uint s with
  | Some n => if (n <? 4294967295)%N then Some (N.to_nat n) else None
  | None => None
  end.

(** [v[ k ]] for a value that is neither [undefined] nor [null] (on those
    JavaScript throws; the callers below guard the read or use [opt_get]). *)
Definition get_prop (v : JsVal) (k : string) : JsVal :=
  match v with
  | JObj m => default JUndefined (m !! k)
  | JArr l =>
      match array_index k with
      | Some i => default JUndefined (l !! i)
      | None =>
          if decide (k = "length") then JNum (Z.of_nat (length l))
          else JUndefined
      end
  | JStr s =>
      match array_index k with
      | Some i =>
          match String.get i s with
          | Some c => JStr (String c EmptyString)
          | None => JUndefined
          end
      | None =>
          if decide (k = "length") then JNum (Z.of_nat (String.length s))
          else JUndefined
      end
  | _ => JUndefined
  end.

(** [v?.[ k ]] *)
Definition opt_get (v : JsVal) (k : string) : JsVal :=
  if nullish v then JUndefined else get_prop v k.

(** [k in Object( v )] *)
Definition has_prop (v : JsVal) (k : string) : bool :=
  match v with
  | JObj m => bool_decide (is_Some (m !! k))
  | JArr l =>
      match array_index k with
      | Some i => bool_decide (i < length l)
      | None => bool_decide (k = "length")
      end
  | JStr s =>
      match array_index k with
      | Some i => bool_decide (i < String.length s)
      | None => bool_decide (k = "length")
      end
  | _ => false
  end.

(** The own enumerable properties of an array-like: index [i] under the
    key [pretty i]. *)
Definition index_props (l : list JsVal) : gmap string JsVal :=
  list_to_map (imap (fun i x => (pretty (N.of_nat i), x)) l).

Fixpoint string_chars (s : string) : list JsVal :=
  match s with
  | EmptyString => []
  | String c s' => JStr (String c EmptyString) :: string_chars s'
  end.

(** The properties copied by [{ ...v }]. *)
Definition spread (v : JsVal) : gmap string JsVal :=
  match v with
  | JObj m => m
  | JArr l => index_props l
  | JStr s => index_props (string_chars s)
  | _ => ∅
  end.

(** [JSON.stringify] followed by [JSON.parse].  [json_value v] is [None]
    where [JSON.stringify] leaves the value out: an [undefined] property
    is dropped, an [undefined] array element becomes [null]. *)
Fixpoint json_value (v : JsVal) : option JsVal :=
  match v with
  | JUndefined => None
  | JArr l => Some (JArr ((fun x => default JNull (json_value x)) <$> l))
  | JObj m => Some (JObj (omap json_value m))
  | _ => Some v
  end.

(** [JSON.parse( JSON.stringify( v ) )]: for [undefined] the text handed to
    [JSON.parse] is not JSON. *)
Definition json_clone (v : JsVal) : Completion JsVal :=
  match json_value v with
  | Some c => Returns c
  | None => Throws SyntaxError
  end.

(** fast-deep-equal: arrays are compared element by element, objects by the
    number of keys and then key by key. *)
Fixpoint fastDeepEqual (a b : JsVal) : bool :=
  match a, b with
  | JUndefined, JUndefined => true
  | JNull, JNull => true
  | JBool x, JBool y => bool_decide (x = y)
  | JNum x, JNum y => bool_decide (x = y)
  | JStr x, JStr y => bool_decide (x = y)
  | JArr la, JArr lb =>
      bool_decide (length la = length lb) &&
      (fix all2 (xs ys : list JsVal) : bool :=
         match xs, ys with
         | x :: xs', y :: ys' => fastDeepEqual x y && all2 xs' ys'
         | _, _ => true
         end) la lb
  | JObj ma, JObj mb =>
      bool_decide (size ma = size mb) &&
      map_fold (fun k x acc =>
                  acc && match mb !! k with
                         | Some y => fastDeepEqual x y
                         | None => false
                         end) true ma
  | _, _ => false
  end.

End Js.

(* ===================================================================== *)
(** ** lodash: [get] and [set]                                            *)
(* ===================================================================== *)

Module Lodash.
Import Js.

(** [stringToPath]: the segments between the dots of a path. *)
Fixpoint stringToPath (s : string) : list string :=
  match s with
  | EmptyString => [""]
  | String a s' =>
      if decide (a = "."%char) then "" :: stringToPath s'
      else match stringToPath s' with
           | seg :: rest => String a seg :: rest
           | [] => [String a EmptyString]
           end
  end.

(** The inverse of [stringToPath]: the segments joined by dots. *)
Fixpoint join_dots (path : list string) : string :=
  match path with
  | [] => ""
  | [k] => k
  | k :: rest => k +:+ "." +:+ join_dots rest
  end.

(** [castPath( path, object )]: a string that names a property of the
    object is taken as one key, otherwise it is split. *)
Definition castPath (path : string) (object : JsVal) : list string :=
  if has_prop object path then [path] else stringToPath path.

Fixpoint baseGet_walk (object : JsVal) (path : list string) : JsVal :=
  match path with
  | [] => object
  | key :: rest =>
      if nullish object then JUndefined
      else baseGet_walk (get_prop object key) rest
  end.

Definition baseGet (object : JsVal) (path : list string) : JsVal :=
  match path with
  | [] => JUndefined
  | _ => baseGet_walk object path
  end.

(** [get( object, path )] *)
Definition get (object : JsVal) (path : string) : JsVal :=
  if nullish object then JUndefined
  else baseGet object (castPath path object).

(** [isObject( v )] *)
Definition isObject (v : JsVal) : bool :=
  match v with JArr _ | JObj _ => true | _ => false end.

(** [isIndex( s )]: a canonical numeric string below [MAX_SAFE_INTEGER]. *)
Definition isIndex (s : string) : bool :=
  match canonical_uint s with
  | Some n => (n <? 9007199254740991)%N
  | None => false
  end.

(** The keys [set] refuses to write: at such a key [baseSet] stops and
    returns the object as it is by then. *)
Definition unsafe_key (k : string) : bool :=
  bool_decide (k = "__proto__" ∨ k = "constructor" ∨ k = "prototype").

(** No segment of the path is refused. *)
Definition accepted (path : list string) : bool :=
  forallb (fun k => negb (unsafe_key k)) path.

(** [a[ i ] = v] on an array: a write past the end fills the gap. *)
Definition store_at {A} (hole : A) (l : list A) (i : nat) (v : A) : list A :=
  if decide (i < length l) then <[i := v]> l
  else l ++ replicate (i - length l) hole ++ [v].

Definition array_store : list JsVal -> nat -> JsVal -> list JsVal :=
  store_at JUndefined.

(** [assignValue( object, key, value )].  On an array only index writes
    (and the idle write of its own length) stay inside the data model. *)
Definition assignValue (object : JsVal) (key : string) (value : JsVal)
  : Completion JsVal :=
  match object with
  | JObj m => Returns (JObj (<[key := value]> m))
  | JArr l =>
      match array_index key with
      | Some i => Returns (JArr (array_store l i value))
      | None =>
          match value with
          | JNum n =>
              if bool_decide (key = "length" ∧ n = Z.of_nat (length l))
              then Returns object else Throws Unmodelled
          | _ => Throws Unmodelled
          end
      end
  | _ => Throws Unmodelled
  end.

(** The loop of [baseSet]: missing or non-object links of the path are
    replaced by a fresh array (before an index) or object; at a refused key
    the loop ends, the links before it having been put in place. *)
Fixpoint baseSet_walk (nested : JsVal) (path : list string) (value : JsVal)
  : Completion JsVal :=
  match path with
  | [] => Returns nested
  | key :: rest =>
      if unsafe_key key then Returns nested
      else
        match rest with
        | [] => assignValue nested key value
        | next :: _ =>
            let objValue := get_prop nested key in
            let newValue :=
              if isObject objValue then objValue
              else if isIndex next then JArr [] else JObj ∅ in
            child ← baseSet_walk newValue rest value;
            assignValue nested key child
        end
  end.

(** [set( object, path, value )] *)
Definition set (object : JsVal) (path : string) (value : JsVal)
  : Completion JsVal :=
  if isObject object then baseSet_walk object (castPath path object) value
  else Returns object.

(** When [set] stays inside the data model: no segment is refused or is an
    index, and the links the path finds in place lead through objects. *)
Definition plain_keys (path : list string) : bool :=
  forallb (fun k => negb (unsafe_key k) && negb (isIndex k)) path.

Fixpoint objects_along (object : JsVal) (path : list string) : bool :=
  match path with
  | [] => true
  | key :: rest =>
      match object with
      | JObj m =>
          match m !! key with
          | Some child =>
              if isObject child then objects_along child rest else true
          | None => true
          end
      | _ => false
      end
  end.

(** A path without brackets: lodash splits it at its dots and nowhere
    else. *)
Fixpoint bracket_free (s : string) : bool :=
  match s with
  | EmptyString => true
  | String a s' =>
      negb (bool_decide (a = "["%char \/ a = "]"%char)) && bracket_free s'
  end.

(** The names every object inherits from [Object.prototype]. *)
Definition prototype_members : list string :=
  [ "constructor"; "__proto__"; "hasOwnProperty"; "isPrototypeOf";
    "propertyIsEnumerable"; "toLocaleString"; "toString"; "valueOf";
    "__defineGetter__"; "__defineSetter__"; "__lookupGetter__";
    "__lookupSetter__" ].

(** A name of an object's own: it names no inherited member and is not
    refused by [set]. *)
Definition own_name (k : string) : bool :=
  negb (bool_decide (k ∈ prototype_members)) && negb (unsafe_key k).

(** A path at which [set] writes and [get] reads what was written, as the
    model has it: lodash splits it at its dots, refuses none of its
    segments and meets no inherited member on its way. *)
Definition writable (s : string) : bool :=
  bracket_free s && forallb own_name (stringToPath s).

(** A dotted path of plain property names: no bracket, and no segment that
    is an index, an inherited name or a refused key. *)
Definition plain_path (s : string) : bool :=
  bracket_free s &&
  forallb (fun k => own_name k && negb (isIndex k)) (stringToPath s).

End Lodash.

(* ===================================================================== *)
(** ** hooks.js                                                           *)
(* ===================================================================== *)

Module Hooks.
Import Js Lodash.

Definition EMPTY_CONFIG : JsVal :=
  JObj (<["settings" := JObj ∅]> (<["styles" := JObj ∅]> ∅)).

Definition VALID_SETTINGS : list string :=
  [ "appearanceTools";
    "useRootPaddingAwareAlignments";
    "border.color";
    "border.radius";
    "border.style";
    "border.width";
    "shadow.presets";
    "shadow.defaultPresets";
    "color.background";
    "color.custom";
    "color.customDuotone";
    "color.customGradient";
    "color.defaultDuotone";
    "color.defaultGradients";
    "color.defaultPalette";
    "color.duotone";
    "color.gradients";
    "color.link";
    "color.palette";
    "color.text";
    "custom";
    "dimensions.minHeight";
    "layout.contentSize";
    "layout.definitions";
    "layout.wideSize";
    "position.fixed";
    "position.sticky";
    "spacing.customSpacingSize";
    "spacing.spacingSizes";
    "spacing.spacingScale";
    "spacing.blockGap";
    "spacing.margin";
    "spacing.padding";
    "spacing.units";
    "typography.fuild";
    "typography.customFontSize";
    "typography.dropCap";
    "typography.fontFamilies";
    "typography.fontSizes";
    "typography.fontStyle";
    "typography.fontWeight";
    "typography.letterSpacing";
    "typography.lineHeight";
    "typography.textDecoration";
    "typography.textTransform" ].

(** The data of the [GlobalStylesContext]: its entries other than
    [setUserConfig], by name ([user], [base], [merged], ...), as a
    destructuring pattern or a fixed property name reads them. *)
Definition field (configs : gmap string JsVal) (name : string) : JsVal :=
  default JUndefined (configs !! name).

(** [configs[ name ]] for a name that is computed: the bundle is an object
    the hook builds with a rest pattern, so a name it has no entry for
    still finds the members of [Object.prototype] (functions, and the
    prototype itself under [__proto__]).  Such a member is truthy and has
    no property [settings], which is all the accessor asks of it: it is
    represented by an object without properties. *)
Definition bundle_member (configs : gmap string JsVal) (name : string)
  : JsVal :=
  match configs !! name with
  | Some view => view
  | None => if bool_decide (name ∈ prototype_members) then JObj ∅
            else JUndefined
  end.

(** An optional string argument used as a condition: [undefined] and the
    empty string are falsy. *)
Definition given (arg : option string) : bool :=
  match arg with
  | Some s => negb (String.eqb s "")
  | None => false
  end.

Definition text (arg : option string) : string := default "" arg.

(** *** useGlobalStylesReset *)




(** *** useGlobalSetting *)

Definition appendedBlockPath (blockName : option string) : string :=
  if given blockName then ".blocks." +:+ text blockName else "".

Definition appendedPropertyPath (propertyPath : option string) : string :=
  if given propertyPath then "." +:+ text propertyPath else "".

Definition contextualPath (propertyPath blockName : option string) : string :=
  "settings" +:+ appendedBlockPath blockName
             +:+ appendedPropertyPath propertyPath.

Definition globalPath (propertyPath : option string) : string :=
  "settings" +:+ appendedPropertyPath propertyPath.

Definition sourceKey (source : string) : string :=
  if decide (source = "all") then "merged" else source.

(** The value one allow-list entry resolves to in bulk mode. *)
Definition resolveSetting (configToUse : JsVal) (blockName : option string)
  (setting : string) : JsVal :=
  coalesce
    (get configToUse ("settings" +:+ appendedBlockPath blockName
                                 +:+ "." +:+ setting))
    (get configToUse ("settings." +:+ setting)).

(** One turn of [VALID_SETTINGS.forEach]; [value] is what an entry
    resolves to. *)
Definition collect (value : string -> JsVal)
  (acc : Completion JsVal) (setting : string) : Completion JsVal :=
  result ← acc;
  if truthy (value setting) then set result setting (value setting)
  else Returns result.

Definition collectSetting (configToUse : JsVal) (blockName : option string)
  : Completion JsVal -> string -> Completion JsVal :=
  collect (resolveSetting configToUse blockName).

Definition settingValue (propertyPath blockName : option string)
  (source : string) (configs : gmap string JsVal) : Completion JsVal :=
  let configToUse := bundle_member configs (sourceKey source) in
  if negb (truthy configToUse) then Throws UnsupportedSource
  else if given propertyPath then
    Returns (coalesce
               (get configToUse (contextualPath propertyPath blockName))
               (get configToUse (globalPath propertyPath)))
  else
    foldl (collectSetting configToUse blockName) (Returns (JObj ∅))
          VALID_SETTINGS.

(** The updater [setSetting( newValue )] hands to [setUserConfig]. *)
Definition setSetting (propertyPath blockName : option string)
  (newValue currentConfig : JsVal) : Completion JsVal :=
  newUserConfig ← json_clone currentConfig;
  set newUserConfig (contextualPath propertyPath blockName) newValue.

Definition useGlobalSetting (propertyPath blockName : option string)
  (source : string) (configs : gmap string JsVal)
  : Completion (JsVal * (JsVal -> JsVal -> Completion JsVal)) :=
  value ← settingValue propertyPath blockName source configs;
  Returns (value, setSetting propertyPath blockName).

(** *** useGlobalStyle *)

Section Style.

(** The two helpers of [./utils] the style accessor calls. *)
Variable getValueFromVariable :
  JsVal -> option string -> JsVal -> Completion JsVal.
Variable getPresetVariableFromValue :
  JsVal -> option string -> option string -> JsVal -> Completion JsVal.

Definition appendedPath (path : option string) : string :=
  if given path then "." +:+ text path else "".

Definition finalPath (path blockName : option string) : string :=
  if negb (given blockName) then "styles" +:+ appendedPath path
  else "styles.blocks." +:+ text blockName +:+ appendedPath path.

(** The updater [setStyle( newValue )] hands to [setUserConfig]. *)
Definition setStyle (path blockName : option string)
  (shouldDecodeEncode : bool) (configs : gmap string JsVal)
  (newValue currentConfig : JsVal) : Completion JsVal :=
  let mergedConfig := field configs "merged" in
  newUserConfig ← json_clone currentConfig;
  stored ← (if shouldDecodeEncode then
              if nullish mergedConfig then Throws TypeError
              else getPresetVariableFromValue
                     (get_prop mergedConfig "settings") blockName path newValue
            else Returns newValue);
  set newUserConfig (finalPath path blockName) stored.

(** The value read before decoding, per source. *)
Definition rawResult (path blockName : option string) (source : string)
  (configs : gmap string JsVal) : Completion JsVal :=
  let mergedConfig := field configs "merged" in
  let baseConfig := field configs "base" in
  let userConfig := field configs "user" in
  if decide (source = "all") then
    Returns (if decide (finalPath path blockName = "styles.css")
             then get userConfig (finalPath path blockName)
             else get mergedConfig (finalPath path blockName))
  else if decide (source = "user") then
    Returns (get userConfig (finalPath path blockName))
  else if decide (source = "base") then
    Returns (get baseConfig (finalPath path blockName))
  else Throws UnsupportedSource.

Definition styleValue (path blockName : option string) (source : string)
  (shouldDecodeEncode : bool) (configs : gmap string JsVal)
  : Completion JsVal :=
  raw ← rawResult path blockName source configs;
  if shouldDecodeEncode then
    getValueFromVariable
      (if decide (source = "base") then field configs "base"
       else field configs "merged")
      blockName raw
  else Returns raw.

Definition useGlobalStyle (path blockName : option string) (source : string)
  (shouldDecodeEncode : bool) (configs : gmap string JsVal)
  : Completion (JsVal * (JsVal -> JsVal -> Completion JsVal)) :=
  result ← styleValue path blockName source shouldDecodeEncode configs;
  Returns (result, setStyle path blockName shouldDecodeEncode configs).

End Style.

(** *** useSettingsForBlockElement *)

(** The two selectors of the blocks store the hook reads. *)
Record BlocksStore := {
  getSupportedStyles : option string -> option string -> list string;
  getBlockType : option string -> JsVal
}.

(** [updatedSettings.section = { ...updatedSettings.section, [ key ]: value }] *)
Definition assignField (updatedSettings : gmap string JsVal)
  (section key : string) (value : JsVal) : gmap string JsVal :=
  <[section := JObj (<[key := value]> (spread (field updatedSettings section)))]>
    updatedSettings.

Definition disableUnless (supportedStyles : list string) (section : string)
  (updatedSettings : gmap string JsVal) (key : string) : gmap string JsVal :=
  if bool_decide (key ∈ supportedStyles) then updatedSettings
  else assignField updatedSettings section key (JBool false).

(** The side restriction a block declares for one spacing feature. *)
Definition declaredSides (supports : JsVal) (key : string) : JsVal :=
  let declared := opt_get (opt_get supports "spacing") key in
  if isArray declared then declared else opt_get declared "sides".

(** One turn of the loop over [padding], [margin] and [blockGap]. *)
Definition spacingStep (supportedStyles : list string) (supports : JsVal)
  (updatedSettings : gmap string JsVal) (key : string) : gmap string JsVal :=
  let disabled := disableUnless supportedStyles "spacing" updatedSettings key in
  let sides := declaredSides supports key in
  if truthy (opt_get sides "length") then
    assignField disabled "spacing" key
      (JObj (<["sides" := sides]>
               (spread (opt_get (field disabled "spacing") key))))
  else disabled.

(** The body of the hook's [useMemo]. *)
Definition filterSettings (parentSettings : JsVal)
  (supportedStyles : list string) (supports : JsVal) : JsVal :=
  let s0 := spread parentSettings in
  let s1 :=
    if bool_decide ("fontSize" ∈ supportedStyles) then s0
    else <["typography" :=
             JObj (<["customFontSize" := JBool false]>
                     (<["fontSizes" := JObj ∅]>
                        (spread (field s0 "typography"))))]> s0 in
  let s2 :=
    if bool_decide ("fontFamily" ∈ supportedStyles) then s1
    else assignField s1 "typography" "fontFamilies" (JObj ∅) in
  let s3 :=
    foldl (disableUnless supportedStyles "typography") s2
      [ "lineHeight"; "fontStyle"; "fontWeight"; "letterSpacing";
        "textTransform"; "textDecoration" ] in
  let s4 :=
    foldl (disableUnless supportedStyles "layout") s3
      [ "contentSize"; "wideSize" ] in
  let s5 :=
    foldl (spacingStep supportedStyles supports) s4
      [ "padding"; "margin"; "blockGap" ] in
  let s6 := disableUnless supportedStyles "dimensions" s5 "minHeight" in
  JObj s6.

Definition useSettingsForBlockElement (store : BlocksStore)
  (parentSettings : JsVal) (blockName element : option string) : JsVal :=
  let supportedStyles := getSupportedStyles store blockName element in
  let supports := opt_get (getBlockType store blockName) "supports" in
  filterSettings parentSettings supportedStyles supports.

End Hooks.

(* ===================================================================== *)
(** ** The allow list and the loop over it                                *)
(* ===================================================================== *)

Module AllowList.
Import Js Lodash Hooks.

(** The shape of the allow list that bulk mode relies on: every entry has
    one or two segments, no entry of one segment is the first segment of
    another, no segment is refused by [set], and no second segment is an
    index (so the groups are objects, not arrays). *)
Definition entry_ok (allowed : list string) (setting : string) : bool :=
  match stringToPath setting with
  | [k] =>
      negb (unsafe_key k) &&
      forallb (fun other =>
                 match stringToPath other with
                 | k' :: _ :: _ => negb (String.eqb k' k)
                 | _ => true
                 end) allowed
  | [k; k2] => negb (unsafe_key k) && negb (unsafe_key k2) && negb (isIndex k2)
  | _ => false
  end.

Definition shape_ok (allowed : list string) : bool :=
  forallb (entry_ok allowed) allowed.

(** What the object built in bulk mode looks like once the entries [seen]
    of the allow list have been visited; [value] is what an entry resolves
    to.  An entry of one segment is stored under its name, the entries of
    two segments are grouped under their first segment. *)
Record collected (value : string -> JsVal) (allowed seen : list string)
  (result : gmap string JsVal) : Prop := {
  collected_single : forall k v,
    result !! k = Some v -> k ∈ allowed ->
    k ∈ seen /\ truthy (value k) = true /\ v = value k;
  collected_group : forall k v,
    result !! k = Some v -> k ∉ allowed ->
    exists m, v = JObj m /\ m <> ∅ /\
      forall k2 v2, m !! k2 = Some v2 ->
        (k +:+ "." +:+ k2) ∈ seen /\ (k +:+ "." +:+ k2) ∈ allowed /\
        truthy (value (k +:+ "." +:+ k2)) = true /\
        v2 = value (k +:+ "." +:+ k2);
  collected_read : forall s,
    s ∈ seen -> truthy (value s) = true ->
    baseGet_walk (JObj result) (stringToPath s) = value s;
  collected_keys : forall k,
    is_Some (result !! k) -> stringToPath k = [k]
}.

(** The entries already grouped under [k]. *)
Definition group (result : gmap string JsVal) (k : string)
  : gmap string JsVal :=
  match result !! k with
  | Some (JObj m) => m
  | _ => ∅
  end.

End AllowList.

(* ===================================================================== *)
(** ** Objects in the heap                                                *)
(* ===================================================================== *)

(** The updaters of [setSetting] and [setStyle] build a second copy of the
    configuration and assign into it.  Whether the first copy is left alone
    is a question about object identity, so here objects and arrays live in
    a heap and values refer to them by location. *)

Module Heap.
Import Js Lodash Hooks.

Inductive HVal :=
| HUndefined
| HNull
| HBool (b : bool)
| HNum (n : Z)
| HStr (s : string)
| HRef (l : positive).

Inductive Cell :=
| CArr (elems : list HVal)
| CObj (props : gmap string HVal).

Abbreviation heap := (gmap positive Cell).

(** A new object: a location the heap does not use yet. *)
Definition alloc (h : heap) (c : Cell) : heap * positive :=
  let l := fresh (dom h) in (<[l := c]> h, l).

(** All entries of a map of optional values, if none is missing. *)
Definition map_sequence {A} (m : gmap string (option A))
  : option (gmap string A) :=
  map_fold (fun k o acc =>
              match o, acc with
              | Some x, Some m' => Some (<[k := x]> m')
              | _, _ => None
              end) (Some ∅) m.

(** The data a value stands for, followed through the heap down to [fuel]
    levels of nesting.  [None]: a dangling location, or nesting deeper than
    [fuel] (always so below a cycle). *)
Fixpoint read (fuel : nat) (h : heap) (v : HVal) : option JsVal :=
  match v with
  | HUndefined => Some JUndefined
  | HNull => Some JNull
  | HBool b => Some (JBool b)
  | HNum n => Some (JNum n)
  | HStr s => Some (JStr s)
  | HRef l =>
      match fuel with
      | O => None
      | S fuel' =>
          match h !! l with
          | None => None
          | Some (CArr elems) => JArr <$> mapM (read fuel' h) elems
          | Some (CObj props) =>
              JObj <$> map_sequence (read fuel' h <$> props)
          end
      end
  end.

(** [JSON.parse]: every array and object of the text becomes a new object
    of the heap. *)
Fixpoint parse (t : JsVal) (h : heap) : heap * HVal :=
  match t with
  | JUndefined => (h, HUndefined)
  | JNull => (h, HNull)
  | JBool b => (h, HBool b)
  | JNum n => (h, HNum n)
  | JStr s => (h, HStr s)
  | JArr l =>
      let '(h1, elems) :=
        (fix each (xs : list JsVal) (h0 : heap) : heap * list HVal :=
           match xs with
           | [] => (h0, [])
           | x :: xs' =>
               let '(h1, v) := parse x h0 in
               let '(h2, vs) := each xs' h1 in
               (h2, v :: vs)
           end) l h in
      let '(h2, a) := alloc h1 (CArr elems) in
      (h2, HRef a)
  | JObj m =>
      let '(h1, props) :=
        map_fold (fun k x (acc : heap * gmap string HVal) =>
                    let '(h', v) := parse x acc.1 in
                    (h', <[k := v]> acc.2)) (h, ∅) m in
      let '(h2, o) := alloc h1 (CObj props) in
      (h2, HRef o)
  end.



(** [c[ k ]] on the object at a location. *)
Definition cell_get (c : Cell) (k : string) : HVal :=
  match c with
  | CObj m => default HUndefined (m !! k)
  | CArr l =>
      match array_index k with
      | Some i => default HUndefined (l !! i)
      | None =>
          if decide (k = "length") then HNum (Z.of_nat (length l))
          else HUndefined
      end
  end.

(** [k in c] *)
Definition cell_has (c : Cell) (k : string) : bool :=
  match c with
  | CObj m => bool_decide (is_Some (m !! k))
  | CArr l =>
      match array_index k with
      | Some i => bool_decide (i < length l)
      | None => bool_decide (k = "length")
      end
  end.

Definition cell_store (c : Cell) (key : string) (value : HVal)
  : Completion Cell :=
  match c with
  | CObj m => Returns (CObj (<[key := value]> m))
  | CArr l =>
      match array_index key with
      | Some i => Returns (CArr (store_at HUndefined l i value))
      | None =>
          match value with
          | HNum n =>
              if bool_decide (key = "length" ∧ n = Z.of_nat (length l))
              then Returns c else Throws Unmodelled
          | _ => Throws Unmodelled
          end
      end
  end.

(** [assignValue( object, key, value )]: the object at [l] is changed in
    place.  The heap is returned whatever the outcome. *)
Definition assignValue (h : heap) (l : positive) (key : string)
  (value : HVal) : heap * Completion unit :=
  match h !! l with
  | None => (h, Throws Unmodelled)
  | Some c =>
      match cell_store c key value with
      | Returns c' => (<[l := c']> h, Returns tt)
      | Throws e => (h, Throws e)
      end
  end.

(** The loop of [baseSet].  A link that is an object already is followed
    (assigning it to itself is skipped by [assignValue]); any other link is
    replaced by a new array or object. *)
Fixpoint baseSet_walk (h : heap) (nested : positive) (path : list string)
  (value : HVal) : heap * Completion unit :=
  match path with
  | [] => (h, Returns tt)
  | key :: rest =>
      if unsafe_key key then (h, Returns tt)
      else
        match rest with
        | [] => assignValue h nested key value
        | next :: _ =>
            match h !! nested with
            | None => (h, Throws Unmodelled)
            | Some c =>
                match cell_get c key with
                | HRef l' => baseSet_walk h l' rest value
                | _ =>
                    let '(h1, l') :=
                      alloc h (if isIndex next then CArr [] else CObj ∅) in
                    match assignValue h1 nested key (HRef l') with
                    | (h2, Returns _) => baseSet_walk h2 l' rest value
                    | (h2, Throws e) => (h2, Throws e)
                    end
                end
            end
        end
  end.

(** [set( object, path, value )]: returns [object] itself. *)
Definition set (h : heap) (object : HVal) (path : string) (value : HVal)
  : heap * Completion HVal :=
  match object with
  | HRef l =>
      match h !! l with
      | None => (h, Throws Unmodelled)
      | Some c =>
          let segments := if cell_has c path then [path]
                          else stringToPath path in
          match baseSet_walk h l segments value with
          | (h', Returns _) => (h', Returns object)
          | (h', Throws e) => (h', Throws e)
          end
      end
  | _ => (h, Returns object)
  end.

(** [JSON.parse( JSON.stringify( v ) )]: the text is the data [v] stands
    for, minus what [JSON.stringify] leaves out. *)
Definition json_clone (fuel : nat) (h : heap) (v : HVal)
  : heap * Completion HVal :=
  match read fuel h v with
  | None => (h, Throws Unmodelled)
  | Some t =>
      match json_value t with
      | None => (h, Throws SyntaxError)
      | Some text =>
          let '(h1, copy) := parse text h in (h1, Returns copy)
      end
  end.

(** The updater of [setSetting( newValue )], run on the heap. *)
Definition setSetting (fuel : nat) (propertyPath blockName : option string)
  (newValue : HVal) (h : heap) (currentConfig : HVal)
  : heap * Completion HVal :=
  match json_clone fuel h currentConfig with
  | (h1, Returns newUserConfig) =>
      set h1 newUserConfig (contextualPath propertyPath blockName) newValue
  | (h1, Throws e) => (h1, Throws e)
  end.

(** [v.k] with a [TypeError] on [undefined] and [null]. *)
Definition member (h : heap) (v : HVal) (k : string) : Completion HVal :=
  match v with
  | HUndefined | HNull => Throws TypeError
  | HRef l =>
      match h !! l with
      | Some c => Returns (cell_get c k)
      | None => Throws Unmodelled
      end
  | HStr s =>
      match get_prop (JStr s) k with
      | JStr c => Returns (HStr c)
      | JNum n => Returns (HNum n)
      | _ => Returns HUndefined
      end
  | _ => Returns HUndefined
  end.

Section Style.

(** The encoder of [./utils]: it reads the heap and leaves it as it is. *)
Variable getPresetVariableFromValue :
  heap -> HVal -> option string -> option string -> HVal -> Completion HVal.

(** The updater of [setStyle( newValue )], run on the heap. *)
Definition setStyle (fuel : nat) (path blockName : option string)
  (shouldDecodeEncode : bool) (mergedConfig : HVal)
  (newValue : HVal) (h : heap) (currentConfig : HVal)
  : heap * Completion HVal :=
  match json_clone fuel h currentConfig with
  | (h1, Returns newUserConfig) =>
      let stored :=
        if shouldDecodeEncode then
          settings ← member h1 mergedConfig "settings";
          getPresetVariableFromValue h1 settings blockName path newValue
        else Returns newValue in
      match stored with
      | Returns value => set h1 newUserConfig (finalPath path blockName) value
      | Throws e => (h1, Throws e)
      end
  | (h1, Throws e) => (h1, Throws e)
  end.

End Style.









End Heap.

(* ===================================================================== *)
(** ** Navigation menus screen of the site editor                         *)
(* ===================================================================== *)

(** The [onSelect] callback of [SidebarNavigationScreenNavigationMenus].
    The history of [useHistory] is the list of the locations pushed so far,
    the latest last; [None] is a history that is not there. *)

Module Navigation.
Import Js.

(** [v.k]: a [TypeError] on [undefined] and [null]. *)
Definition member (v : JsVal) (k : string) : Completion JsVal :=
  if nullish v then Throws TypeError else Returns (get_prop v k).

(** [v === 'text'] *)
Definition is_text (v : JsVal) (text : string) : bool :=
  match v with
  | JStr s => String.eqb s text
  | _ => false
  end.

(** [{ postType, postId }] *)
Definition location (postType postId : JsVal) : JsVal :=
  JObj (<["postType" := postType]> (<["postId" := postId]> ∅)).

(** [history.push( location )] *)
Definition push (history : list JsVal) (target : JsVal) : list JsVal :=
  history ++ [target].

Definition onSelect (history : option (list JsVal)) (selectedBlock : JsVal)
  : Completion (option (list JsVal)) :=
  attributes ← member selectedBlock "attributes";
  name ← member selectedBlock "name";
  kind ← member attributes "kind";
  let id := get_prop attributes "id" in
  let type := get_prop attributes "type" in
  let history1 :=
    match history with
    | Some pushed =>
        if is_text kind "post-type" && truthy id && truthy type
        then Some (push pushed (location type id))
        else history
    | None => None
    end in
  let history2 :=
    match history1 with
    | Some pushed =>
        if is_text name "core/page-list-item" && truthy id
        then Some (push pushed (location (JStr "page") id))
        else history1
    | None => None
    end in
  Returns history2.

End Navigation.

(* ===================================================================== *)
(** ** Entries of the filtered settings                                   *)
(* ===================================================================== *)

Module Entries.
Import Js Hooks.

(** [stored upd section key value]: in the settings [upd] the section is an
    object that holds [value] under [key]. *)
Definition stored (upd : gmap string JsVal) (section key : string)
  (value : JsVal) : Prop :=
  exists m, upd !! section = Some (JObj m) /\ m !! key = Some value.

(** A step of the filter keeps an entry when whatever is stored there
    before the step is stored there after it. *)
Definition keeps (step : gmap string JsVal -> gmap string JsVal)
  (section key : string) : Prop :=
  forall upd value,
    stored upd section key value -> stored (step upd) section key value.

(** The entry of a section as [{ ...section }] copies it. *)
Definition entry (upd : gmap string JsVal) (section key : string)
  : option JsVal :=
  spread (field upd section) !! key.

(** The entries the filter writes, each with the style that has to be
    supported for the entry to be left as it is: style, section, key. *)
Definition controlled : list (string * string * string) :=
  [ ("fontSize", "typography", "fontSizes");
    ("fontSize", "typography", "customFontSize");
    ("fontFamily", "typography", "fontFamilies");
    ("lineHeight", "typography", "lineHeight");
    ("fontStyle", "typography", "fontStyle");
    ("fontWeight", "typography", "fontWeight");
    ("letterSpacing", "typography", "letterSpacing");
    ("textTransform", "typography", "textTransform");
    ("textDecoration", "typography", "textDecoration");
    ("contentSize", "layout", "contentSize");
    ("wideSize", "layout", "wideSize");
    ("padding", "spacing", "padding");
    ("margin", "spacing", "margin");
    ("blockGap", "spacing", "blockGap");
    ("minHeight", "dimensions", "minHeight") ].

(** What the filter has stored once it is through, for the supported
    styles and the side restrictions it was given. *)
Record filtered (supportedStyles : list string) (supports : JsVal)
  (upd : gmap string JsVal) : Prop := {
  filtered_fontSize :
    "fontSize" ∉ supportedStyles ->
    stored upd "typography" "fontSizes" (JObj ∅) /\
    stored upd "typography" "customFontSize" (JBool false);
  filtered_fontFamily :
    "fontFamily" ∉ supportedStyles ->
    stored upd "typography" "fontFamilies" (JObj ∅);
  filtered_typography : forall key,
    key ∈ [ "lineHeight"; "fontStyle"; "fontWeight"; "letterSpacing";
            "textTransform"; "textDecoration" ] ->
    key ∉ supportedStyles -> stored upd "typography" key (JBool false);
  filtered_layout : forall key,
    key ∈ [ "contentSize"; "wideSize" ] ->
    key ∉ supportedStyles -> stored upd "layout" key (JBool false);
  filtered_spacing : forall key,
    key ∈ [ "padding"; "margin"; "blockGap" ] ->
    truthy (opt_get (declaredSides supports key) "length") = false ->
    key ∉ supportedStyles -> stored upd "spacing" key (JBool false);
  filtered_sides : forall key,
    key ∈ [ "padding"; "margin"; "blockGap" ] ->
    truthy (opt_get (declaredSides supports key) "length") = true ->
    exists inherited,
      stored upd "spacing" key
        (JObj (<["sides" := declaredSides supports key]> inherited)) /\
      (key ∉ supportedStyles -> inherited = ∅);
  filtered_dimensions :
    "minHeight" ∉ supportedStyles ->
    stored upd "dimensions" "minHeight" (JBool false)
}.

End Entries.

(* ===================================================================== *)
(** ** Where two paths part                                               *)
(* ===================================================================== *)

Module Paths.
Import Js Lodash.

(** [parts_at o pre]: the segments [pre], followed from [o], lead through
    objects to an object, or end early at a link that is missing or holds
    [undefined] or [null]; a write through such a link puts a new object
    there. *)
Fixpoint parts_at (o : JsVal) (pre : list string) {struct pre} : bool :=
  match o with
  | JObj m =>
      match pre with
      | [] => true
      | a :: pre' =>
          match m !! a with
          | Some x =>
              if isObject x then parts_at x pre' else nullish x
          | None => true
          end
      end
  | _ => false
  end.

(** No segment is an index, so [set] creates objects, not arrays. *)
Definition named (path : list string) : bool :=
  forallb (fun k => negb (isIndex k)) path.

End Paths.

(* ===================================================================== *)
(** ** Sample data                                                        *)
(* ===================================================================== *)

Module Samples.
Import Js Lodash Hooks.

Definition obj (l : list (string * JsVal)) : JsVal := JObj (list_to_map l).

(** A theme: a palette, link colour off, a stylesheet and a text colour. *)
Definition sample_base : JsVal :=
  obj [ ("settings",
         obj [ ("color", obj [ ("palette", JArr [JStr "a"]);
                               ("link", JBool false) ]) ]);
        ("styles",
         obj [ ("css", JStr "body{}");
               ("color", obj [ ("text", JStr "black") ]) ]) ].

(** User edits: link colour on for paragraphs, an emptied stylesheet, a
    stylesheet for paragraphs. *)
Definition sample_user_props : gmap string JsVal :=
  list_to_map
    [ ("settings",
       obj [ ("blocks",
              obj [ ("core/paragraph",
                     obj [ ("color", obj [ ("link", JBool true) ]) ]) ]) ]);
      ("styles",
       obj [ ("css", JStr "");
             ("blocks",
              obj [ ("core/paragraph", obj [ ("css", JStr "p{}") ]) ]) ]) ].

Definition sample_user : JsVal := JObj sample_user_props.

(** The theme with the user edits on top. *)
Definition sample_merged : JsVal :=
  obj [ ("settings",
         obj [ ("color", obj [ ("palette", JArr [JStr "a"]);
                               ("link", JBool false) ]);
               ("blocks",
                obj [ ("core/paragraph",
                       obj [ ("color", obj [ ("link", JBool true) ]) ]) ]) ]);
        ("styles",
         obj [ ("css", JStr "");
               ("color", obj [ ("text", JStr "black") ]);
               ("blocks",
                obj [ ("core/paragraph", obj [ ("css", JStr "p{}") ]) ]) ]) ].

Definition sample_bundle : gmap string JsVal :=
  list_to_map [ ("user", sample_user); ("base", sample_base);
                ("merged", sample_merged) ].

(** A decoder and an encoder that leave every value as it is. *)
Definition plain_decode (features : JsVal) (blockName : option string)
  (variable : JsVal) : Completion JsVal := Returns variable.

Definition plain_encode (features : JsVal) (blockName path : option string)
  (value : JsVal) : Completion JsVal := Returns value.

(** A block that declares padding on two sides, asked about through a
    registry that does not list padding among the supported styles. *)
Definition sides_block : JsVal :=
  obj [ ("supports",
         obj [ ("spacing",
                obj [ ("padding", JArr [JStr "top"; JStr "bottom"]) ]) ]) ].

Definition sides_store : BlocksStore :=
  {| getSupportedStyles := fun _ _ => ["color"; "margin"];
     getBlockType := fun _ => sides_block |}.




(** Settings handed to the filter: a font size list, two flags and a
    padding entry. *)
Definition sample_settings_props : gmap string JsVal :=
  list_to_map
    [ ("color", obj [ ("link", JBool true) ]);
      ("typography",
       obj [ ("dropCap", JBool true); ("lineHeight", JBool true);
             ("fontSizes", JArr [JStr "small"]) ]);
      ("spacing",
       obj [ ("margin", JBool true);
             ("padding", obj [ ("top", JBool true) ]);
             ("units", JArr [JStr "px"]) ]) ].

Definition sample_settings : JsVal := JObj sample_settings_props.

(** A block that supports every style the filter asks about and declares
    its spacing features by flags. *)
Definition flags_block : JsVal :=
  obj [ ("supports",
         obj [ ("spacing",
                obj [ ("padding", JBool true); ("margin", JBool true) ]) ]) ].

Definition flags_store : BlocksStore :=
  {| getSupportedStyles := fun _ _ =>
       [ "fontSize"; "fontFamily"; "lineHeight"; "fontStyle"; "fontWeight";
         "letterSpacing"; "textTransform"; "textDecoration"; "contentSize";
         "wideSize"; "padding"; "margin"; "blockGap"; "minHeight" ];
     getBlockType := fun _ => flags_block |}.

(** A block that supports padding and declares it for two sides. *)
Definition padded_store : BlocksStore :=
  {| getSupportedStyles := fun _ _ => ["padding"];
     getBlockType := fun _ => sides_block |}.

(** The same capabilities declared otherwise: the supported styles in
    another order among others, the sides of padding under [sides]. *)
Definition sides_object_block : JsVal :=
  obj [ ("supports",
         obj [ ("align", JBool true);
               ("spacing",
                obj [ ("padding",
                       obj [ ("sides",
                              JArr [JStr "top"; JStr "bottom"]) ]) ]) ]) ].

Definition sides_object_store : BlocksStore :=
  {| getSupportedStyles := fun _ _ => ["margin"; "background"; "color"];
     getBlockType := fun _ => sides_object_block |}.

(** Blocks of a navigation menu: a link to a post, and a page list item
    that is also described as a link to a page. *)
Definition sample_link : JsVal :=
  obj [ ("name", JStr "core/navigation-link");
        ("attributes",
         obj [ ("kind", JStr "post-type"); ("type", JStr "post");
               ("id", JNum 7) ]) ].

Definition sample_page_item : JsVal :=
  obj [ ("name", JStr "core/page-list-item");
        ("attributes",
         obj [ ("kind", JStr "post-type"); ("type", JStr "page");
               ("id", JNum 3) ]) ].

(** A user view with a list under the name [constructor], one of the keys
    [set] refuses; the list has an element that is [undefined]. *)
Definition refused_user : JsVal :=
  obj [ ("styles", obj [ ("constructor", JArr [JUndefined]) ]) ].

Definition refused_bundle : gmap string JsVal :=
  list_to_map [ ("user", refused_user) ].

End Samples.

(* ===================================================================== *)
(** * Properties                                                         *)
(* ===================================================================== *)

Import Js Lodash Hooks AllowList Samples.
(* ===================================================================== *)
(** ** Induction on values                                                *)
(* ===================================================================== *)

Lemma jsize_elem (l : list JsVal) (x : JsVal) :
  x ∈ l -> jsize x < jsize (JArr l).
Proof.
  simpl. induction 1 as [x l | x y l _ IH]; simpl; lia.
Qed.

Lemma jsize_prop (m : gmap string JsVal) (k : string) (x : JsVal) :
  m !! k = Some x -> jsize x < jsize (JObj m).
Proof.
  intros Hk. simpl.
  rewrite (map_fold_delete_L _ _ k x m); [lia | | done].
  intros; lia.
Qed.

Lemma JsVal_rect_nested (P : JsVal -> Prop) :
  P JUndefined -> P JNull -> (forall b, P (JBool b)) ->
  (forall n, P (JNum n)) -> (forall s, P (JStr s)) ->
  (forall l, Forall P l -> P (JArr l)) ->
  (forall m, map_Forall (fun _ => P) m -> P (JObj m)) ->
  forall v, P v.
Proof.
  intros Hu Hn Hb Hz Hs Ha Ho v.
  remember (jsize v) as n eqn:Hsize. revert v Hsize.
  induction (lt_wf n) as [n _ IH]. intros v ->.
  destruct v; auto.
  - apply Ha, Forall_forall. intros x Hx.
    eapply IH; [apply jsize_elem, Hx | done].
  - apply Ho. intros k x Hk.
    eapply IH; [eapply jsize_prop, Hk | done].
Qed.

(* ===================================================================== *)
(** ** Deep equality is equality of values                                *)
(* ===================================================================== *)

Lemma map_fold_all {A} (Q : string -> A -> bool) (m : gmap string A) :
  map_fold (fun k x acc => acc && Q k x) true m = true <->
  map_Forall (fun k x => Q k x = true) m.
Proof.
  apply (map_fold_weak_ind
           (fun r m => r = true <-> map_Forall (fun k x => Q k x = true) m)).
  - split; [intros _; apply map_Forall_empty | done].
  - intros k x m' r Hk IH. rewrite andb_true_iff, IH, map_Forall_insert by done.
    tauto.
Qed.

Lemma fastDeepEqual_JObj (ma mb : gmap string JsVal) :
  fastDeepEqual (JObj ma) (JObj mb) = true <->
  size ma = size mb /\
  forall k x, ma !! k = Some x ->
              exists y, mb !! k = Some y /\ fastDeepEqual x y = true.
Proof.
  cbn [fastDeepEqual].
  rewrite andb_true_iff, bool_decide_eq_true.
  rewrite (map_fold_all
             (fun k x => match mb !! k with
                         | Some y => fastDeepEqual x y
                         | None => false
                         end)).
  apply and_iff_compat_l. unfold map_Forall.
  split; intros H k x Hk; specialize (H k x Hk).
  - destruct (mb !! k) as [y|]; [eauto | done].
  - destruct H as (y & -> & Hy). done.
Qed.

Lemma fastDeepEqual_JArr (la lb : list JsVal) :
  fastDeepEqual (JArr la) (JArr lb) = true <->
  Forall2 (fun x y => fastDeepEqual x y = true) la lb.
Proof.
  cbn [fastDeepEqual].
  rewrite andb_true_iff, bool_decide_eq_true.
  split.
  - intros [Hlen Hall]. revert lb Hlen Hall.
    induction la as [|x la IH]; intros [|y lb] Hlen Hall; try done.
    apply andb_true_iff in Hall as [Hxy Hall].
    constructor; [done|]. apply IH; [by inversion Hlen | done].
  - induction 1 as [|x y la lb Hxy _ [Hlen Hall]]; [done|].
    split; [simpl; congruence|]. apply andb_true_iff. done.
Qed.

Lemma fastDeepEqual_eq (a b : JsVal) : fastDeepEqual a b = true <-> a = b.
Proof.
  revert b. induction a as [| | x | x | x | la IH | ma IH] using JsVal_rect_nested;
    intros b.
  1-5: destruct b; cbn [fastDeepEqual];
       rewrite ?bool_decide_eq_true; split; congruence.
  - destruct b as [| | | | | lb |]; try (cbn; split; congruence).
    rewrite fastDeepEqual_JArr. split.
    + intros H. f_equal. revert IH.
      induction H as [|x y la lb Hxy _ IHl]; [done|].
      intros [Hx Hla]%Forall_cons. f_equal; [by apply Hx | by apply IHl].
    + intros [= <-]. induction IH as [|x la Hx _ IHl]; constructor; [|done].
      by apply Hx.
  - destruct b as [| | | | | | mb]; try (cbn; split; congruence).
    rewrite fastDeepEqual_JObj. split.
    + intros [Hsize Hall]. f_equal.
      apply map_subseteq_size_eq; [|lia].
      apply map_subseteq_spec. intros k x Hk.
      destruct (Hall k x Hk) as (y & Hy & Hxy).
      apply (IH k x Hk) in Hxy. congruence.
    + intros [= <-]. split; [done|]. intros k x Hk.
      exists x. split; [done|]. by apply (IH k x Hk).
Qed.

(* ===================================================================== *)
(** ** Paths                                                              *)
(* ===================================================================== *)

Lemma append_cons (a : ascii) (s t : string) :
  String a s +:+ t = String a (s +:+ t).
Proof. reflexivity. Qed.

Lemma append_nil (t : string) : "" +:+ t = t.
Proof. reflexivity. Qed.

Lemma append_assoc (s t u : string) : (s +:+ t) +:+ u = s +:+ t +:+ u.
Proof.
  induction s as [|a s IH]; [done|]. by rewrite !append_cons, IH.
Qed.

Lemma stringToPath_nonempty (s : string) : stringToPath s <> [].
Proof.
  destruct s as [|a s]; simpl; [done|].
  case_decide; [done|]. by destruct (stringToPath s).
Qed.

(** A dot separates the segments of the left part from those of the right. *)
Lemma stringToPath_app (a b : string) :
  stringToPath (a +:+ "." +:+ b) = stringToPath a ++ stringToPath b.
Proof.
  induction a as [|c a IH].
  - rewrite append_nil, append_cons, append_nil. reflexivity.
  - rewrite append_cons. simpl. case_decide; [by rewrite IH|].
    rewrite IH. pose proof (stringToPath_nonempty a).
    by destruct (stringToPath a).
Qed.

(** Joining the segments with dots gives the path back. *)
Lemma join_stringToPath (s : string) : join_dots (stringToPath s) = s.
Proof.
  induction s as [|c s IH]; [done|]. simpl. case_decide as Hc.
  - subst c. pose proof (stringToPath_nonempty s).
    destruct (stringToPath s) as [|k rest]; [done|].
    simpl in *. by rewrite IH.
  - pose proof (stringToPath_nonempty s).
    destruct (stringToPath s) as [|k rest]; [done|].
    destruct rest as [|k' rest]; simpl in *; by rewrite <- IH.
Qed.

Lemma stringToPath_single (s k : string) : stringToPath s = [k] -> k = s.
Proof. intros H. by rewrite <- (join_stringToPath s), H. Qed.

Lemma length_append (s t : string) :
  String.length (s +:+ t) = String.length s + String.length t.
Proof. induction s as [|a s IH]; [done|]. rewrite append_cons. simpl. lia. Qed.

Lemma stringToPath_head_ne (s k k' : string) (rest : list string) :
  stringToPath s = k :: k' :: rest -> k <> s.
Proof.
  intros H Heq. pose proof (join_stringToPath s) as Hj. rewrite H in Hj.
  apply (f_equal String.length) in Hj. subst s.
  change (join_dots (k :: k' :: rest))
    with (k +:+ "." +:+ join_dots (k' :: rest)) in Hj.
  rewrite !length_append in Hj. simpl in Hj. lia.
Qed.

Lemma digits_value_one_segment (s : string) (acc n : N) :
  digits_value acc s = Some n -> stringToPath s = [s].
Proof.
  revert acc. induction s as [|a s IH]; intros acc; simpl; [done|].
  destruct (digit_of a) as [d|] eqn:Hd; [|done]. intros Hs.
  rewrite decide_False.
  - by rewrite (IH _ Hs).
  - intros ->. by vm_compute in Hd.
Qed.

Lemma array_index_one_segment (s : string) (i : nat) :
  array_index s = Some i -> stringToPath s = [s].
Proof.
  unfold array_index, canonical_uint. destruct s as [|a s]; [done|].
  destruct (digits_value 0 (String a s)) as [n|] eqn:Hn; [|done].
  intros _. by eapply digits_value_one_segment.
Qed.

(* ===================================================================== *)
(** ** Reading back what [set] wrote                                      *)
(* ===================================================================== *)

Lemma array_store_lookup (l : list JsVal) (i : nat) (x : JsVal) :
  array_store l i x !! i = Some x.
Proof.
  unfold array_store, store_at. case_decide as Hi.
  - by apply list_lookup_insert_eq.
  - rewrite lookup_app_r by lia. rewrite lookup_app_r; rewrite length_replicate.
    + by replace (i - length l - (i - length l)) with 0 by lia.
    + lia.
Qed.

Lemma array_store_length (l : list JsVal) (i : nat) (x : JsVal) :
  i < length (array_store l i x).
Proof.
  unfold array_store, store_at. case_decide as Hi.
  - by rewrite length_insert.
  - rewrite !length_app, length_replicate. simpl. lia.
Qed.

Lemma isObject_not_nullish (o : JsVal) : isObject o = true -> nullish o = false.
Proof. by destruct o. Qed.

(** After a write the key holds the value, and the target is still an
    object or array. *)
Lemma assignValue_read (o o' : JsVal) (k : string) (x : JsVal) :
  assignValue o k x = Returns o' ->
  get_prop o' k = x /\ isObject o' = true /\ has_prop o' k = true.
Proof.
  destruct o as [| | | | | l | m]; try done; simpl.
  - destruct (array_index k) as [i|] eqn:Hi.
    + intros [= <-]. simpl. rewrite Hi, array_store_lookup.
      split_and!; [done..|]. apply bool_decide_eq_true, array_store_length.
    + destruct x as [| | | n | | |]; try done.
      case_bool_decide as Hk; [|done]. destruct Hk as [-> ->].
      intros [= <-]. by vm_compute.
  - intros [= <-]. simpl. rewrite lookup_insert_eq.
    split_and!; [done..|]. by apply bool_decide_eq_true.
Qed.

(** A path of several segments that named no property before the write
    names none after it. *)
Lemma assignValue_has_prop (o o' : JsVal) (k p : string) (x : JsVal) :
  assignValue o k x = Returns o' ->
  has_prop o p = false -> p <> k -> stringToPath p <> [p] ->
  has_prop o' p = false.
Proof.
  intros Ha Hp Hne Hseg.
  destruct o as [| | | | | l | m]; try done; simpl in Ha.
  - assert (isArray o' = true) as Harr.
    { destruct (array_index k); [by inversion Ha|].
      destruct x; try done. case_bool_decide; [by inversion Ha | done]. }
    destruct o' as [| | | | | l' |]; try done. simpl.
    destruct (array_index p) as [j|] eqn:Hj.
    + by apply array_index_one_segment in Hj.
    + apply bool_decide_eq_false. intros ->. by apply Hseg.
  - inversion Ha; subst. simpl in *. by rewrite lookup_insert_ne.
Qed.

Lemma baseSet_walk_read (path : list string) :
  forall (o o' v : JsVal),
    path <> [] -> accepted path = true ->
    baseSet_walk o path v = Returns o' ->
    baseGet_walk o' path = v /\
    exists k rest x, path = k :: rest /\ assignValue o k x = Returns o'.
Proof.
  induction path as [|k rest IH]; intros o o' v Hne Hacc Hset; [done|].
  simpl in Hacc. apply andb_true_iff in Hacc as [Hk%negb_true_iff Hacc].
  simpl in Hset. rewrite Hk in Hset.
  destruct rest as [|next rest'].
  - destruct (assignValue_read _ _ _ _ Hset) as (Hget & Hobj & _).
    split; [|by eauto]. simpl.
    by rewrite (isObject_not_nullish _ Hobj).
  - set (newValue := if isObject (get_prop o k) then get_prop o k
                     else if isIndex next then JArr [] else JObj ∅) in *.
    destruct (baseSet_walk newValue (next :: rest') v) as [child|] eqn:Hchild;
      [|done].
    simpl in Hset.
    destruct (IH newValue child v ltac:(done) Hacc Hchild) as (Hread & _).
    destruct (assignValue_read _ _ _ _ Hset) as (Hget & Hobj & _).
    split; [|by eauto].
    change (baseGet_walk o' (k :: next :: rest'))
      with (if nullish o' then JUndefined
            else baseGet_walk (get_prop o' k) (next :: rest')).
    by rewrite (isObject_not_nullish _ Hobj), Hget.
Qed.

(** Whatever the path, the walk returns the object as it was or with its
    first key assigned. *)
Lemma baseSet_walk_shape (path : list string) (o o' v : JsVal) :
  baseSet_walk o path v = Returns o' ->
  o' = o \/
  exists k rest x, path = k :: rest /\ unsafe_key k = false /\
                   assignValue o k x = Returns o'.
Proof.
  destruct path as [|k rest]; simpl; [intros [= <-]; by left|].
  destruct (unsafe_key k) eqn:Hk; [intros [= <-]; by left|].
  destruct rest as [|next rest'].
  - intros Ha. right. by eauto 6.
  - destruct (baseSet_walk _ (next :: rest') v) as [child|]; [|done].
    simpl. intros Ha. right. by eauto 6.
Qed.



(** The path is split the same way before and after the write. *)
Lemma castPath_after_set (o o' : JsVal) (p k : string) (rest : list string)
  (x : JsVal) :
  castPath p o = k :: rest -> assignValue o k x = Returns o' ->
  castPath p o' = castPath p o.
Proof.
  unfold castPath. intros Hsegs Ha.
  destruct (has_prop o p) eqn:Hp.
  - inversion Hsegs; subst.
    by destruct (assignValue_read _ _ _ _ Ha) as (_ & _ & ->).
  - destruct rest as [|k' rest'].
    + pose proof (stringToPath_single _ _ Hsegs) as ->.
      by destruct (assignValue_read _ _ _ _ Ha) as (_ & _ & ->).
    + rewrite (assignValue_has_prop _ _ _ _ _ Ha Hp); [done| |].
      * intros ->. by eapply stringToPath_head_ne.
      * by rewrite Hsegs.
Qed.

Lemma castPath_nonempty (p : string) (o : JsVal) : castPath p o <> [].
Proof. unfold castPath. destruct (has_prop o p); [done|]. apply stringToPath_nonempty. Qed.

(** A refused key has no dot, so a path none of whose segments is refused
    is not refused as a whole either. *)
Lemma accepted_castPath (p : string) (o : JsVal) :
  accepted (stringToPath p) = true -> accepted (castPath p o) = true.
Proof.
  unfold castPath. destruct (has_prop o p); [|done]. intros Hacc.
  simpl. rewrite andb_true_r. destruct (unsafe_key p) eqn:Hk; [|done].
  apply bool_decide_eq_true in Hk. destruct Hk as [->|[->| ->]]; done.
Qed.

Lemma writable_segments (p : string) :
  writable p = true -> accepted (stringToPath p) = true.
Proof.
  unfold writable, accepted. intros [_ Hsegs]%andb_true_iff.
  induction (stringToPath p) as [|k rest IH]; [done|].
  simpl in *. apply andb_true_iff in Hsegs as [Hk Hrest].
  rewrite (IH Hrest), andb_true_r. unfold own_name in Hk.
  by apply andb_true_iff in Hk as [_ ?].
Qed.

Lemma writable_accepted (p : string) (o : JsVal) :
  writable p = true -> accepted (castPath p o) = true.
Proof. intros H%writable_segments. by apply accepted_castPath. Qed.

Lemma plain_path_writable (p : string) :
  plain_path p = true -> writable p = true.
Proof.
  unfold plain_path, writable.
  intros [-> Hsegs]%andb_true_iff. simpl.
  induction (stringToPath p) as [|k rest IH]; [done|].
  simpl in *. apply andb_true_iff in Hsegs as [Hk Hrest].
  rewrite (IH Hrest), andb_true_r.
  by apply andb_true_iff in Hk as [? _].
Qed.

Lemma plain_keys_intro (a : string) (path : list string) :
  unsafe_key a = false -> isIndex a = false -> plain_keys path = true ->
  plain_keys (a :: path) = true.
Proof. unfold plain_keys. simpl. by intros -> -> ->. Qed.

Lemma plain_path_segments (p : string) :
  plain_path p = true -> plain_keys (stringToPath p) = true.
Proof.
  unfold plain_path. intros [_ Hsegs]%andb_true_iff.
  induction (stringToPath p) as [|k rest IH]; [done|].
  simpl in Hsegs. apply andb_true_iff in Hsegs as [Hk Hrest].
  unfold own_name in Hk.
  apply andb_true_iff in Hk as [Hk ?%negb_true_iff].
  apply andb_true_iff in Hk as [_ ?%negb_true_iff].
  apply plain_keys_intro; [done..|]. by apply IH.
Qed.

Lemma plain_path_plain_keys (p : string) (o : JsVal) :
  plain_path p = true -> plain_keys (castPath p o) = true.
Proof.
  intros Hkeys%plain_path_segments.
  unfold castPath. destruct (has_prop o p); [|done].
  destruct (stringToPath p) as [|k [|k' rest]] eqn:Hp.
  - by apply stringToPath_nonempty in Hp.
  - by rewrite <- (stringToPath_single _ _ Hp).
  - apply plain_keys_intro; [| |done].
    + destruct (unsafe_key p) eqn:Hk; [|done].
      apply bool_decide_eq_true in Hk. destruct Hk as [->|[->| ->]]; done.
    + unfold isIndex, canonical_uint.
      destruct p as [|a p]; [done|].
      destruct (digits_value 0 (String a p)) as [n|] eqn:Hn; [|done].
      apply digits_value_one_segment in Hn. congruence.
Qed.

(** [get( set( o, p, v ), p )] is [v] when no segment is refused. *)
Lemma get_set (o o' : JsVal) (p : string) (v : JsVal) :
  isObject o = true -> accepted (castPath p o) = true ->
  set o p v = Returns o' -> get o' p = v.
Proof.
  intros Hobj Hacc. unfold set. rewrite Hobj. intros Hset.
  destruct (baseSet_walk_read _ _ _ _ (castPath_nonempty p o) Hacc Hset)
    as (Hread & k & rest & x & Hsegs & Ha).
  destruct (assignValue_read _ _ _ _ Ha) as (_ & Hobj' & _).
  unfold get. rewrite (isObject_not_nullish _ Hobj').
  rewrite (castPath_after_set _ _ _ _ _ _ Hsegs Ha).
  unfold baseGet. by destruct (castPath p o).
Qed.

(* ===================================================================== *)
(** ** When [set] returns                                                 *)
(* ===================================================================== *)

Lemma objects_along_empty (path : list string) :
  objects_along (JObj ∅) path = true.
Proof. destruct path as [|k rest]; [done|]. simpl. by rewrite lookup_empty. Qed.

Lemma baseSet_walk_returns (path : list string) :
  forall (o v : JsVal),
    plain_keys path = true -> objects_along o path = true ->
    exists o', baseSet_walk o path v = Returns o'.
Proof.
  induction path as [|key rest IH]; intros o v Hkeys Halong; [by eexists|].
  simpl in Hkeys. apply andb_true_iff in Hkeys as [Hkey Hrest].
  apply andb_true_iff in Hkey as [Hsafe%negb_true_iff _].
  destruct o as [| | | | | |m]; try done.
  simpl. rewrite Hsafe. destruct rest as [|next rest']; [by eexists|].
  set (child := default JUndefined (m !! key)).
  assert (isIndex next = false) as ->.
  { simpl in Hrest. apply andb_true_iff in Hrest as [Hnext _].
    by apply andb_true_iff in Hnext as [_ ?%negb_true_iff]. }
  assert (objects_along (if isObject child then child else JObj ∅)
                        (next :: rest') = true) as Hchild.
  { destruct (isObject child) eqn:Hobj; [|apply objects_along_empty].
    unfold child in *. simpl in Halong.
    destruct (m !! key) as [c|]; simpl in *; [|done]. by rewrite Hobj in Halong. }
  destruct (IH _ v Hrest Hchild) as [child' ->]. by eexists.
Qed.

Lemma set_returns (o v : JsVal) (p : string) :
  plain_keys (castPath p o) = true -> objects_along o (castPath p o) = true ->
  exists o', set o p v = Returns o'.
Proof.
  intros Hkeys Halong. unfold set. destruct (isObject o); [|by eexists].
  by apply baseSet_walk_returns.
Qed.

(* ===================================================================== *)
(** ** Bulk mode: the loop over the allow list                            *)
(* ===================================================================== *)

Lemma segments_single (s : string) :
  forall k, k ∈ stringToPath s -> stringToPath k = [k].
Proof.
  induction s as [|a s IH]; intros k; simpl.
  - by intros ->%list_elem_of_singleton.
  - case_decide as Ha.
    + intros [->|Hk]%elem_of_cons; [done | by apply IH].
    + pose proof (stringToPath_nonempty s).
      destruct (stringToPath s) as [|seg rest]; [done|].
      intros [->|Hk]%elem_of_cons.
      * simpl. rewrite decide_False by done.
        rewrite (IH seg); [done | by left].
      * apply IH. by right.
Qed.

Lemma castPath_plain_keys (m : gmap string JsVal) (s : string) :
  (forall k, is_Some (m !! k) -> stringToPath k = [k]) ->
  castPath s (JObj m) = stringToPath s.
Proof.
  intros Hkeys. unfold castPath. simpl. case_bool_decide as Hs; [|done].
  symmetry. by apply Hkeys.
Qed.

Section Bulk.

Variable value : string -> JsVal.
Variable allowed : list string.
Hypothesis shape : shape_ok allowed = true.

Lemma entry_shape (s : string) : s ∈ allowed -> entry_ok allowed s = true.
Proof.
  intros Hs. unfold shape_ok in shape.
  rewrite forallb_forall in shape. by apply shape, list_elem_of_In.
Qed.

(** An entry of one segment is not the first segment of another entry. *)
Lemma single_not_group (k s k' k2 : string) (rest : list string) :
  k ∈ allowed -> stringToPath k = [k] ->
  s ∈ allowed -> stringToPath s = k' :: k2 :: rest -> k' <> k.
Proof.
  intros Hk Hseg Hs Hsegs ->. pose proof (entry_shape k Hk) as Hok.
  unfold entry_ok in Hok. rewrite Hseg in Hok.
  apply andb_true_iff in Hok as [_ Hall].
  rewrite forallb_forall in Hall.
  specialize (Hall s ltac:(by apply list_elem_of_In)).
  rewrite Hsegs in Hall. apply negb_true_iff in Hall.
  by rewrite String.eqb_refl in Hall.
Qed.

Lemma collected_more (seen : list string) (s : string)
  (r : gmap string JsVal) :
  collected value allowed seen r -> truthy (value s) = false ->
  collected value allowed (seen ++ [s]) r.
Proof.
  intros [H1 H2 H3 H4] Hs. split.
  - intros k v Hk Hin. destruct (H1 k v Hk Hin) as (? & ? & ?).
    split_and!; [|done..]. apply elem_of_app. by left.
  - intros k v Hk Hin. destruct (H2 k v Hk Hin) as (m & ? & ? & Hm).
    exists m. split_and!; [done..|]. intros k2 v2 Hk2.
    destruct (Hm k2 v2 Hk2) as (? & ? & ? & ?).
    split_and!; [|done..]. apply elem_of_app. by left.
  - intros s0 [Hs0|Hs0%list_elem_of_singleton]%elem_of_app Ht.
    + by apply H3.
    + subst s0. congruence.
  - done.
Qed.

Lemma collected_store_single (seen : list string) (s : string)
  (r : gmap string JsVal) :
  (forall s0, s0 ∈ seen -> s0 ∈ allowed) -> s ∈ allowed ->
  stringToPath s = [s] -> truthy (value s) = true ->
  collected value allowed seen r ->
  collected value allowed (seen ++ [s]) (<[s := value s]> r).
Proof.
  intros Hseen Hs Hseg Ht [H1 H2 H3 H4]. split.
  - intros k v Hk Hin. destruct (decide (k = s)) as [->|Hne].
    + rewrite lookup_insert_eq in Hk. inversion Hk; subst.
      split_and!; [|done..]. apply elem_of_app. right. by left.
    + rewrite lookup_insert_ne in Hk by done.
      destruct (H1 k v Hk Hin) as (? & ? & ?).
      split_and!; [|done..]. apply elem_of_app. by left.
  - intros k v Hk Hin. destruct (decide (k = s)) as [->|Hne]; [done|].
    rewrite lookup_insert_ne in Hk by done.
    destruct (H2 k v Hk Hin) as (m & ? & ? & Hm).
    exists m. split_and!; [done..|]. intros k2 v2 Hk2.
    destruct (Hm k2 v2 Hk2) as (? & ? & ? & ?).
    split_and!; [|done..]. apply elem_of_app. by left.
  - intros s0 [Hs0|Hs0%list_elem_of_singleton]%elem_of_app Ht0.
    + specialize (H3 s0 Hs0 Ht0).
      pose proof (stringToPath_nonempty s0).
      destruct (stringToPath s0) as [|k0 rest] eqn:Hsegs; [done|].
      destruct (decide (k0 = s)) as [->|Hne].
      * destruct rest as [|k2 rest].
        -- apply stringToPath_single in Hsegs as ->. simpl.
           by rewrite lookup_insert_eq.
        -- exfalso. by eapply (single_not_group s s0 s k2 rest); eauto.
      * simpl in *. by rewrite lookup_insert_ne.
    + subst s0. rewrite Hseg. simpl. by rewrite lookup_insert_eq.
  - intros k [v Hk]. destruct (decide (k = s)) as [->|Hne]; [done|].
    rewrite lookup_insert_ne in Hk by done. by apply H4.
Qed.

Lemma two_segments_join (s k k2 : string) :
  stringToPath s = [k; k2] -> s = k +:+ "." +:+ k2.
Proof. intros H. by rewrite <- (join_stringToPath s), H. Qed.

Lemma collected_store_group (seen : list string) (s k k2 : string)
  (r : gmap string JsVal) :
  (forall s0, s0 ∈ seen -> s0 ∈ allowed) -> s ∈ allowed ->
  stringToPath s = [k; k2] -> truthy (value s) = true ->
  collected value allowed seen r ->
  collected value allowed (seen ++ [s])
    (<[k := JObj (<[k2 := value s]> (group r k))]> r).
Proof.
  intros Hseen Hs Hseg Ht [H1 H2 H3 H4].
  assert (stringToPath k = [k]) as Hk1.
  { apply (segments_single s). rewrite Hseg. by left. }
  assert (k ∉ allowed) as Hkout.
  { intros Hin. by eapply (single_not_group k s k k2 []). }
  pose proof (two_segments_join _ _ _ Hseg) as Hjoin.
  split.
  - intros k0 v Hk0 Hin. destruct (decide (k0 = k)) as [->|Hne]; [done|].
    rewrite lookup_insert_ne in Hk0 by done.
    destruct (H1 k0 v Hk0 Hin) as (? & ? & ?).
    split_and!; [|done..]. apply elem_of_app. by left.
  - intros k0 v Hk0 Hin. destruct (decide (k0 = k)) as [->|Hne].
    + rewrite lookup_insert_eq in Hk0. inversion Hk0; subst v.
      eexists. split_and!; [done| |].
      { intros Hempty. apply (f_equal (lookup k2)) in Hempty.
        by rewrite lookup_insert_eq, lookup_empty in Hempty. }
      intros k2' v2 Hk2. destruct (decide (k2' = k2)) as [->|Hne2].
      * rewrite lookup_insert_eq in Hk2. inversion Hk2; subst v2.
        rewrite <- Hjoin. split_and!; [|done..].
        apply elem_of_app. right. by left.
      * rewrite lookup_insert_ne in Hk2 by done.
        unfold group in Hk2. destruct (r !! k) as [v|] eqn:Hrk; [|done].
        destruct (H2 k v Hrk Hkout) as (m & -> & _ & Hm).
        destruct (Hm k2' v2 Hk2) as (? & ? & ? & ?).
        split_and!; [|done..]. apply elem_of_app. by left.
    + rewrite lookup_insert_ne in Hk0 by done.
      destruct (H2 k0 v Hk0 Hin) as (m & ? & ? & Hm).
      exists m. split_and!; [done..|]. intros k2' v2 Hk2.
      destruct (Hm k2' v2 Hk2) as (? & ? & ? & ?).
      split_and!; [|done..]. apply elem_of_app. by left.
  - intros s0 [Hs0|Hs0%list_elem_of_singleton]%elem_of_app Ht0.
    + specialize (H3 s0 Hs0 Ht0).
      pose proof (entry_shape s0 (Hseen s0 Hs0)) as Hok. unfold entry_ok in Hok.
      destruct (stringToPath s0) as [|k0 [|k2' [|? ?]]] eqn:Hsegs; try done.
      * assert (k0 <> k) as Hne.
        { intros ->. pose proof (stringToPath_single _ _ Hsegs) as ->.
          apply Hkout. by apply Hseen. }
        simpl in *. by rewrite lookup_insert_ne.
      * destruct (decide (k0 = k)) as [->|Hne];
          [|simpl in *; by rewrite lookup_insert_ne].
        simpl in *. rewrite lookup_insert_eq. simpl.
        destruct (decide (k2' = k2)) as [->|Hne2].
        -- rewrite lookup_insert_eq. simpl.
           by rewrite (two_segments_join _ _ _ Hsegs), <- Hjoin.
        -- rewrite lookup_insert_ne by done. rewrite <- H3. unfold group.
           destruct (r !! k) as [v|] eqn:Hrk; [|done].
           by destruct (H2 k v Hrk Hkout) as (m & -> & _).
    + subst s0. rewrite Hseg. simpl.
      by rewrite lookup_insert_eq; simpl; rewrite lookup_insert_eq.
  - intros k0 [v Hk0]. destruct (decide (k0 = k)) as [->|Hne]; [done|].
    rewrite lookup_insert_ne in Hk0 by done. by apply H4.
Qed.

(** One turn keeps the invariant, and it returns. *)
Lemma collect_collected (seen : list string) (s : string)
  (r : gmap string JsVal) :
  (forall s0, s0 ∈ seen -> s0 ∈ allowed) -> s ∈ allowed ->
  collected value allowed seen r ->
  exists r', collect value (Returns (JObj r)) s = Returns (JObj r') /\
             collected value allowed (seen ++ [s]) r'.
Proof.
  intros Hseen Hs Hc. unfold collect. simpl.
  destruct (truthy (value s)) eqn:Ht; [|by eauto using collected_more].
  unfold set. simpl.
  rewrite (castPath_plain_keys r s (collected_keys _ _ _ _ Hc)).
  pose proof (entry_shape s Hs) as Hok. unfold entry_ok in Hok.
  destruct (stringToPath s) as [|k [|k2 [|? ?]]] eqn:Hsegs; try done.
  - apply andb_true_iff in Hok as [Hsafe%negb_true_iff _].
    pose proof (stringToPath_single _ _ Hsegs) as ->.
    simpl. rewrite Hsafe. simpl. eexists. split; [done|].
    by apply collected_store_single.
  - apply andb_true_iff in Hok as [Hok Hidx%negb_true_iff].
    apply andb_true_iff in Hok as [Hsafe%negb_true_iff Hsafe2%negb_true_iff].
    simpl. rewrite Hsafe, Hsafe2, Hidx. simpl.
    assert ((if isObject (default JUndefined (r !! k))
             then default JUndefined (r !! k) else JObj ∅)
            = JObj (group r k)) as ->.
    { unfold group. destruct (r !! k) as [v|] eqn:Hrk; [|done].
      assert (k ∉ allowed) as Hkout.
      { intros Hin. eapply (single_not_group k s k k2 []); eauto.
        apply (segments_single s). rewrite Hsegs. by left. }
      by destruct (collected_group _ _ _ _ Hc k v Hrk Hkout) as (m & -> & _). }
    simpl. eexists. split; [done|].
    by apply collected_store_group.
Qed.

Lemma loop_collected (pending : list string) :
  forall (seen : list string) (r : gmap string JsVal),
    (forall s0, s0 ∈ seen -> s0 ∈ allowed) ->
    (forall s0, s0 ∈ pending -> s0 ∈ allowed) ->
    collected value allowed seen r ->
    exists r', foldl (collect value) (Returns (JObj r)) pending = Returns (JObj r') /\
               collected value allowed (seen ++ pending) r'.
Proof.
  induction pending as [|s pending IH]; intros seen r Hseen Htodo Hc.
  - exists r. by rewrite app_nil_r.
  - destruct (collect_collected seen s r Hseen) as (r1 & Hturn & Hc1);
      [apply Htodo; by left | done |].
    cbn [foldl]. rewrite Hturn.
    destruct (IH (seen ++ [s]) r1) as (r' & Hloop & Hc'); [| |done|].
    + intros s0 [?|Heq%list_elem_of_singleton]%elem_of_app; [by apply Hseen|].
      subst s0. apply Htodo. by left.
    + intros s0 Hs0. apply Htodo. by right.
    + exists r'. by rewrite <- app_assoc in Hc'.
Qed.

Lemma collected_empty : collected value allowed [] ∅.
Proof.
  split.
  - intros k v Hk. by rewrite lookup_empty in Hk.
  - intros k v Hk. by rewrite lookup_empty in Hk.
  - intros s Hs. by apply elem_of_nil in Hs.
  - intros k [v Hk]. by rewrite lookup_empty in Hk.
Qed.

(** The whole loop returns an object that satisfies the invariant for the
    whole allow list. *)
Lemma bulk_collected :
  exists r, foldl (collect value) (Returns (JObj ∅)) allowed = Returns (JObj r) /\
            collected value allowed allowed r.
Proof.
  destruct (loop_collected allowed [] ∅) as (r & Hloop & Hc);
    [by intros s ?%elem_of_nil | done | apply collected_empty |].
  by exists r.
Qed.

End Bulk.

(* ===================================================================== *)
(** ** The hooks                                                          *)
(* ===================================================================== *)

Lemma given_Some (s : string) : s <> "" -> given (Some s) = true.
Proof.
  intros Hs. simpl. apply negb_true_iff, String.eqb_neq. done.
Qed.

Lemma given_false_text (arg : option string) :
  given arg = false -> arg = None \/ arg = Some "".
Proof.
  destruct arg as [s|]; [|by left]. simpl.
  intros H%negb_false_iff%String.eqb_eq. right. by subst.
Qed.

Lemma contextualPath_block (P b : string) :
  P <> "" -> b <> "" ->
  contextualPath (Some P) (Some b) = "settings.blocks." +:+ b +:+ "." +:+ P.
Proof.
  intros HP Hb. unfold contextualPath, appendedBlockPath, appendedPropertyPath.
  rewrite !given_Some by done. simpl text.
  change "settings.blocks." with ("settings" +:+ ".blocks.").
  by rewrite !append_assoc.
Qed.

Lemma contextualPath_global (P : string) (B : option string) :
  P <> "" -> given B = false ->
  contextualPath (Some P) B = "settings." +:+ P.
Proof.
  intros HP HB. unfold contextualPath, appendedBlockPath, appendedPropertyPath.
  by rewrite HB, given_Some.
Qed.

Lemma globalPath_given (P : string) :
  P <> "" -> globalPath (Some P) = "settings." +:+ P.
Proof.
  intros HP. unfold globalPath, appendedPropertyPath. by rewrite given_Some.
Qed.

Lemma finalPath_block (path : option string) (b : string) :
  b <> "" ->
  finalPath path (Some b) = "styles.blocks." +:+ b +:+ appendedPath path.
Proof. intros Hb. unfold finalPath. by rewrite given_Some. Qed.


(** The resolved path is [styles.css] only for the path [css] without a
    block name. *)
Lemma finalPath_css_only (path B : option string) :
  finalPath path B = "styles.css" -> path = Some "css" /\ given B = false.
Proof.
  unfold finalPath, appendedPath.
  destruct (given B) eqn:HB; simpl negb; cbv iota.
  - change "styles.blocks." with ("styles." +:+ "blocks.").
    change "styles.css" with ("styles." +:+ "css").
    rewrite !append_assoc. intros H%(inj (String.append _)).
    by rewrite !append_cons in H.
  - destruct (given path) eqn:Hp.
    + change "styles.css" with ("styles" +:+ "." +:+ "css").
      intros H%(inj (String.append _))%(inj (String.append _)).
      destruct path as [p|]; [|done]. simpl in H. by subst.
    + done.
Qed.

Lemma shape_VALID_SETTINGS : shape_ok VALID_SETTINGS = true.
Proof. by vm_compute. Qed.

(** A view that is there under its name is what [configs[ name ]] finds. *)
Lemma bundle_member_field (configs : gmap string JsVal) (name : string) :
  truthy (field configs name) = true ->
  bundle_member configs name = field configs name.
Proof.
  unfold bundle_member, field. by destruct (configs !! name).
Qed.

(** Bulk mode returns an object that satisfies the loop invariant for the
    whole allow list. *)
Lemma settingValue_bulk (P B : option string) (source : string)
  (configs : gmap string JsVal) :
  given P = false ->
  truthy (bundle_member configs (sourceKey source)) = true ->
  exists r,
    settingValue P B source configs = Returns (JObj r) /\
    collected (resolveSetting (bundle_member configs (sourceKey source)) B)
              VALID_SETTINGS VALID_SETTINGS r.
Proof.
  intros HP Hview. unfold settingValue. rewrite Hview, HP. simpl negb. cbv iota.
  exact (bulk_collected
           (resolveSetting (bundle_member configs (sourceKey source)) B)
           VALID_SETTINGS shape_VALID_SETTINGS).
Qed.

(* ===================================================================== *)
(** ** Reset capability                                                   *)
(* ===================================================================== *)





(* ===================================================================== *)
(** ** Setting accessor, one path                                         *)
(* ===================================================================== *)

(** C3.  With a path [P] and a view that is there: when a block name is
    given, the result is the value at [settings.blocks.B.P] if that value is
    present (neither [undefined] nor [null]) and the value at [settings.P]
    otherwise, which is [undefined] when nothing is stored there either;
    without a block name the result is the value at [settings.P]. *)
Theorem getSetting_block_then_global (P : string) (source : string)
  (configs : gmap string JsVal) :
  P <> "" ->
  truthy (field configs (sourceKey source)) = true ->
  let view := field configs (sourceKey source) in
  let globalValue := get view ("settings." +:+ P) in
  (forall b, b <> "" ->
     let blockValue := get view ("settings.blocks." +:+ b +:+ "." +:+ P) in
     (nullish blockValue = false ->
        settingValue (Some P) (Some b) source configs = Returns blockValue) /\
     (nullish blockValue = true ->
        settingValue (Some P) (Some b) source configs = Returns globalValue) /\
     (nullish blockValue = true -> globalValue = JUndefined ->
        settingValue (Some P) (Some b) source configs = Returns JUndefined)) /\
  (forall B, given B = false ->
     settingValue (Some P) B source configs = Returns globalValue).
Proof.
  intros HP Hview view globalValue. split.
  - intros b Hb blockValue.
    assert (settingValue (Some P) (Some b) source configs
            = Returns (coalesce blockValue globalValue)) as ->.
    { unfold settingValue. rewrite (bundle_member_field _ _ Hview), Hview.
      simpl negb. cbv iota.
      rewrite (given_Some P HP).
      by rewrite contextualPath_block, globalPath_given. }
    unfold coalesce. split_and!; intros ->; [done..|]. by intros ->.
  - intros B HB. subst globalValue view. unfold settingValue.
    rewrite (bundle_member_field _ _ Hview), Hview. simpl negb. cbv iota. rewrite (given_Some P HP).
    rewrite contextualPath_global, globalPath_given by done.
    unfold coalesce. by destruct (nullish _).
Qed.

(* ===================================================================== *)
(** ** Style accessor: which view is read                                 *)
(* ===================================================================== *)

Section StyleReads.

Variable getValueFromVariable :
  JsVal -> option string -> JsVal -> Completion JsVal.


(** C9.  With a block name [B] and source [all], the path [css] is read from
    the merged view at [styles.blocks.B.css]: the user-only rule does not
    apply to block-scoped css. *)
Theorem getStyle_block_css_from_merged (configs : gmap string JsVal)
  (B : string) :
  B <> "" ->
  finalPath (Some "css") (Some B) = "styles.blocks." +:+ B +:+ ".css" /\
  rawResult (Some "css") (Some B) "all" configs
    = Returns (get (field configs "merged")
                   ("styles.blocks." +:+ B +:+ ".css")) /\
  styleValue getValueFromVariable (Some "css") (Some B) "all" false configs
    = Returns (get (field configs "merged")
                   ("styles.blocks." +:+ B +:+ ".css")) /\
  styleValue getValueFromVariable (Some "css") (Some B) "all" true configs
    = getValueFromVariable (field configs "merged") (Some B)
        (get (field configs "merged") ("styles.blocks." +:+ B +:+ ".css")).
Proof.
  intros HB.
  assert (finalPath (Some "css") (Some B) = "styles.blocks." +:+ B +:+ ".css")
    as Hpath by (by rewrite finalPath_block).
  assert (rawResult (Some "css") (Some B) "all" configs
          = Returns (get (field configs "merged")
                         ("styles.blocks." +:+ B +:+ ".css"))) as Hraw.
  { unfold rawResult. simpl. rewrite Hpath.
    destruct (decide (_ = "styles.css")) as [Hcss|]; [|done].
    rewrite <- Hpath in Hcss. apply finalPath_css_only in Hcss as [_ Hg].
    by rewrite given_Some in Hg. }
  split_and!; [done..| |];
    unfold styleValue; by rewrite Hraw.
Qed.

End StyleReads.

(* ===================================================================== *)
(** ** Setting accessor, bulk mode                                        *)
(* ===================================================================== *)

(** What bulk mode reads back for an entry of the allow list. *)
Lemma collected_get (value : string -> JsVal) (allowed : list string)
  (r : gmap string JsVal) (s : string) :
  shape_ok allowed = true -> collected value allowed allowed r ->
  s ∈ allowed ->
  get (JObj r) s = if truthy (value s) then value s else JUndefined.
Proof.
  intros Hshape Hc Hs. unfold get. simpl nullish. cbv iota.
  rewrite (castPath_plain_keys r s (collected_keys _ _ _ _ Hc)).
  pose proof (stringToPath_nonempty s) as Hne.
  assert (baseGet (JObj r) (stringToPath s)
          = baseGet_walk (JObj r) (stringToPath s)) as ->.
  { unfold baseGet. by destruct (stringToPath s). }
  destruct (truthy (value s)) eqn:Ht; [by apply (collected_read _ _ _ _ Hc)|].
  pose proof (entry_shape allowed Hshape s Hs) as Hok. unfold entry_ok in Hok.
  destruct (stringToPath s) as [|k [|k2 [|? ?]]] eqn:Hsegs; try done.
  - pose proof (stringToPath_single _ _ Hsegs) as ->. simpl.
    destruct (r !! s) as [v|] eqn:Hr; [|done].
    destruct (collected_single _ _ _ _ Hc s v Hr Hs) as (_ & Ht' & _).
    congruence.
  - simpl. destruct (r !! k) as [v|] eqn:Hr; [|done].
    assert (k ∉ allowed) as Hkout.
    { intros Hin. eapply (single_not_group allowed Hshape k s k k2 []); eauto.
      apply (segments_single s). rewrite Hsegs. by left. }
    destruct (collected_group _ _ _ _ Hc k v Hr Hkout) as (m & -> & _ & Hm).
    simpl. destruct (m !! k2) as [v2|] eqn:Hm2; [|done].
    destruct (Hm k2 v2 Hm2) as (_ & _ & Ht' & _).
    rewrite <- (two_segments_join _ _ _ Hsegs) in Ht'. congruence.
Qed.


(* ===================================================================== *)
(** ** Unsupported sources                                                *)
(* ===================================================================== *)








(* ===================================================================== *)
(** ** Writes                                                             *)
(* ===================================================================== *)

(** A value that is neither an object nor an array is its own copy. *)
Lemma json_value_plain (v c : JsVal) :
  json_value v = Some c -> isObject c = false -> c = v.
Proof. destruct v; simpl; intros [= <-]; done. Qed.

Lemma json_clone_Returns (v c : JsVal) :
  json_clone v = Returns c -> json_value v = Some c.
Proof. unfold json_clone. destruct (json_value v); congruence. Qed.

Lemma json_value_object (m : gmap string JsVal) :
  json_value (JObj m) = Some (JObj (omap json_value m)).
Proof. reflexivity. Qed.

(** C5, as stated, fails where the path ends at a key [set] refuses
    ([__proto__], [constructor], [prototype]): the update has copied the
    configuration through JSON, where the [undefined] element of the list
    became [null], and has written nothing, so the value at the path is no
    longer the one that was read. *)
Lemma style_round_trip_counterexample :
  useGlobalStyle plain_decode plain_encode (Some "constructor") None "user"
                 false refused_bundle
    = Returns (JArr [JUndefined],
               setStyle plain_encode (Some "constructor") None false
                        refused_bundle) /\
  setStyle plain_encode (Some "constructor") None false refused_bundle
           (JArr [JUndefined]) (field refused_bundle "user")
    = Returns (obj [ ("styles", obj [ ("constructor", JArr [JNull]) ]) ]) /\
  get (field refused_bundle "user") (finalPath (Some "constructor") None)
    = JArr [JUndefined] /\
  get (obj [ ("styles", obj [ ("constructor", JArr [JNull]) ]) ])
      (finalPath (Some "constructor") None)
    = JArr [JNull] /\
  fastDeepEqual (JArr [JNull]) (JArr [JUndefined]) = false.
Proof.
  split_and!.
  - unfold useGlobalStyle.
    assert (styleValue plain_decode (Some "constructor") None "user" false
                       refused_bundle = Returns (JArr [JUndefined])) as ->
      by (by vm_compute).
    reflexivity.
  - by vm_compute.
  - by vm_compute.
  - by vm_compute.
  - by vm_compute.
Qed.

Section StyleWrites.

Variable getValueFromVariable :
  JsVal -> option string -> JsVal -> Completion JsVal.
Variable getPresetVariableFromValue :
  JsVal -> option string -> option string -> JsVal -> Completion JsVal.

(** C5, amended.  For a resolved path that [set] writes at (no bracket, no
    segment that is [prototype] or a name every object inherits, such as
    [constructor], [__proto__] or [toString]): read a style from the user
    view without decoding, hand the value to the setter obtained from the
    same call, run the resulting update on the user configuration; in the
    configuration it returns, the value at the resolved path is deep-equal
    to the one that was there before. *)
Theorem style_round_trip_writable (path B : option string)
  (configs : gmap string JsVal) (value new : JsVal)
  (setStyle : JsVal -> JsVal -> Completion JsVal) :
  writable (finalPath path B) = true ->
  useGlobalStyle getValueFromVariable getPresetVariableFromValue
                 path B "user" false configs = Returns (value, setStyle) ->
  setStyle value (field configs "user") = Returns new ->
  fastDeepEqual (get new (finalPath path B))
                (get (field configs "user") (finalPath path B)) = true.
Proof.
  intros Hpath Huse Hset. apply fastDeepEqual_eq.
  unfold useGlobalStyle, styleValue, rawResult in Huse.
  simpl in Huse. inversion Huse; subst value setStyle. clear Huse.
  unfold Hooks.setStyle in Hset.
  destruct (json_clone (field configs "user")) as [copy|] eqn:Hcopy; [|done].
  simpl in Hset. apply json_clone_Returns in Hcopy.
  destruct (isObject copy) eqn:Hobj.
  - apply (get_set copy); [done | by apply writable_accepted | done].
  - unfold set in Hset. rewrite Hobj in Hset. inversion Hset; subst new.
    by rewrite (json_value_plain _ _ Hcopy Hobj).
Qed.

(** The hook hands out the value it read together with the setter. *)
Lemma useGlobalStyle_Returns (path B : option string) (source : string)
  (decode : bool) (configs : gmap string JsVal) (value : JsVal) :
  styleValue getValueFromVariable path B source decode configs
    = Returns value ->
  useGlobalStyle getValueFromVariable getPresetVariableFromValue
                 path B source decode configs
  = Returns (value, setStyle getPresetVariableFromValue path B decode configs).
Proof.
  intros H. unfold useGlobalStyle. by rewrite H.
Qed.

End StyleWrites.

Lemma style_round_trip_writable_witness :
  exists new,
    setStyle plain_encode (Some "css") (Some "core/paragraph") false
             sample_bundle (JStr "p{}") (field sample_bundle "user")
      = Returns new /\
    fastDeepEqual
      (get new (finalPath (Some "css") (Some "core/paragraph")))
      (get (field sample_bundle "user")
           (finalPath (Some "css") (Some "core/paragraph"))) = true.
Proof.
  eexists. split.
  - vm_compute. reflexivity.
  - apply (style_round_trip_writable plain_decode plain_encode
             (Some "css") (Some "core/paragraph") sample_bundle (JStr "p{}") _
             (setStyle plain_encode (Some "css") (Some "core/paragraph") false
                       sample_bundle)).
    + vm_compute. reflexivity.
    + apply useGlobalStyle_Returns. vm_compute. reflexivity.
    + vm_compute. reflexivity.
Defined.

Lemma setSetting_object (P B : option string) (newValue : JsVal)
  (m : gmap string JsVal) :
  setSetting P B newValue (JObj m)
  = set (JObj (omap json_value m)) (contextualPath P B) newValue.
Proof. reflexivity. Qed.

Lemma lookup_copy (m : gmap string JsVal) (k : string) :
  omap json_value m !! k = m !! k ≫= json_value.
Proof. apply lookup_omap. Qed.

Lemma baseSet_walk_step (nested : JsVal) (key next : string)
  (rest : list string) (value : JsVal) :
  baseSet_walk nested (key :: next :: rest) value
  = if unsafe_key key then Returns nested
    else
      child ← baseSet_walk
                (if isObject (get_prop nested key) then get_prop nested key
                 else if isIndex next then JArr [] else JObj ∅)
                (next :: rest) value;
      assignValue nested key child.
Proof. reflexivity. Qed.

Lemma settings_dot_ne (P : string) : "settings." +:+ P <> "settings".
Proof.
  change "settings." with ("settings" +:+ ".").
  change "settings" with ("settings" +:+ "") at 2.
  rewrite append_assoc. by intros H%(inj (String.append _)).
Qed.

(** A block-scoped write leaves the global slot alone, provided the settings
    are a mapping, the path does not itself start at [blocks], and the
    configuration has no property whose name is one of the dotted paths. *)
Lemma setSetting_keeps_global (P b : string) (newValue new : JsVal)
  (m settings : gmap string JsVal) :
  P <> "" -> b <> "" ->
  m !! "settings" = Some (JObj settings) ->
  head (stringToPath P) <> Some "blocks" ->
  m !! ("settings." +:+ P) = None ->
  m !! ("settings.blocks." +:+ b +:+ "." +:+ P) = None ->
  setSetting (Some P) (Some b) newValue (JObj m) = Returns new ->
  get new ("settings." +:+ P)
  = get (JObj (omap json_value m)) ("settings." +:+ P).
Proof.
  intros HP Hb Hsettings Hhead Hglobal Hblock.
  rewrite setSetting_object, contextualPath_block by done.
  set (c := omap json_value m).
  set (s' := omap json_value settings).
  assert (c !! "settings" = Some (JObj s')) as Hc.
  { unfold c. by rewrite lookup_copy, Hsettings. }
  assert (stringToPath ("settings." +:+ P) = "settings" :: stringToPath P)
    as Hgsegs.
  { change "settings." with ("settings" +:+ ".").
    by rewrite append_assoc, stringToPath_app. }
  assert (stringToPath ("settings.blocks." +:+ b +:+ "." +:+ P)
          = "settings" :: "blocks" :: stringToPath b ++ stringToPath P)
    as Hbsegs.
  { change "settings.blocks." with ("settings" +:+ "." +:+ "blocks" +:+ ".").
    by rewrite !append_assoc, !stringToPath_app. }
  pose proof (stringToPath_nonempty P) as HPne.
  destruct (stringToPath P) as [|k restP] eqn:HsegP; [done|].
  assert (k <> "blocks") as Hk by (intros ->; by apply Hhead).
  unfold set. simpl isObject. cbv iota.
  assert (castPath ("settings.blocks." +:+ b +:+ "." +:+ P) (JObj c)
          = "settings" :: "blocks" :: stringToPath b ++ k :: restP) as ->.
  { unfold castPath. simpl has_prop. unfold c.
    by rewrite lookup_copy, Hblock, bool_decide_eq_false_2
      by (by intros [? ?]). }
  pose proof (stringToPath_nonempty b) as Hbne.
  destruct (stringToPath b ++ k :: restP) as [|k1 rest1] eqn:Hrest;
    [by destruct (stringToPath b)|].
  rewrite !baseSet_walk_step.
  change (unsafe_key "settings") with false.
  change (unsafe_key "blocks") with false. cbv iota.
  assert (get_prop (JObj c) "settings" = JObj s') as ->
    by (simpl; by rewrite Hc).
  simpl isObject. cbv iota.
  destruct (baseSet_walk _ (k1 :: rest1) newValue) as [child|];
    unfold mbind, completion_bind; [|done].
  simpl assignValue. intros [= <-].
  unfold get. simpl nullish. cbv iota.
  assert (forall top : gmap string JsVal,
            top !! ("settings." +:+ P) = None ->
            castPath ("settings." +:+ P) (JObj top) = "settings" :: k :: restP)
    as Hcast.
  { intros top Htop. unfold castPath. simpl has_prop.
    by rewrite Htop, bool_decide_eq_false_2, Hgsegs by (by intros [? ?]). }
  rewrite !Hcast.
  - simpl. rewrite lookup_insert_eq, Hc. simpl.
    by rewrite lookup_insert_ne.
  - unfold c. by rewrite lookup_copy, Hglobal.
  - rewrite lookup_insert_ne by (apply not_eq_sym, settings_dot_ne).
    unfold c. by rewrite lookup_copy, Hglobal.
Qed.

(** The update returns when the copy can be written at the path. *)
Lemma setSetting_returns (P B : option string) (newValue : JsVal)
  (m : gmap string JsVal) :
  let copy := JObj (omap json_value m) in
  plain_keys (castPath (contextualPath P B) copy) = true ->
  objects_along copy (castPath (contextualPath P B) copy) = true ->
  exists new, setSetting P B newValue (JObj m) = Returns new.
Proof. intros copy Hkeys Halong. rewrite setSetting_object. by apply set_returns. Qed.

(** C10, as stated, fails at a path with a key [set] refuses
    ([__proto__], [constructor], [prototype]): the update returns, with
    the objects the path passes through before that key put in place, and
    the new value is stored nowhere. *)
Lemma setSetting_block_scoped_counterexample :
  setSetting (Some "constructor.link") (Some "core/paragraph") (JBool true)
             EMPTY_CONFIG
    = Returns (obj [ ("settings",
                      obj [ ("blocks",
                             obj [ ("core/paragraph", obj []) ]) ]);
                     ("styles", obj []) ]) /\
  get (obj [ ("settings",
              obj [ ("blocks", obj [ ("core/paragraph", obj []) ]) ]);
             ("styles", obj []) ])
      "settings.blocks.core/paragraph.constructor.link"
    = JUndefined /\
  setSetting (Some "constructor.link") None (JBool true) EMPTY_CONFIG
    = Returns EMPTY_CONFIG /\
  get EMPTY_CONFIG "settings.constructor.link" = JUndefined.
Proof. split_and!; by vm_compute. Qed.

(** C10, amended.  For a configuration that is a mapping and a path [P],
    the written path being one [set] writes at (no bracket, no segment
    that is [prototype] or a name every object inherits, such as
    [constructor], [__proto__] or [toString]): an update by
    [setSetting] that returns has stored the new value at
    [settings.blocks.B.P] when a block name is given and at [settings.P]
    when it is not; the update does return, with the value stored, when
    the segments are plain names and the copy has mappings along them;
    with a block name the value at [settings.P] is the one the copy
    already had (for settings that are a mapping, a block name without
    bracket and a path of plain names that neither starts at [blocks] nor
    is itself a property name); and the setter is the same function
    whatever the source, the bundle and the value that was read. *)
Theorem setSetting_block_scoped_writable (P : string) (newValue : JsVal)
  (m : gmap string JsVal) :
  P <> "" ->
  (forall b new, b <> "" ->
     writable ("settings.blocks." +:+ b +:+ "." +:+ P) = true ->
     setSetting (Some P) (Some b) newValue (JObj m) = Returns new ->
     get new ("settings.blocks." +:+ b +:+ "." +:+ P) = newValue) /\
  (forall B new, given B = false ->
     writable ("settings." +:+ P) = true ->
     setSetting (Some P) B newValue (JObj m) = Returns new ->
     get new ("settings." +:+ P) = newValue) /\
  (forall B,
     let copy := JObj (omap json_value m) in
     plain_path (contextualPath (Some P) B) = true ->
     objects_along copy (castPath (contextualPath (Some P) B) copy) = true ->
     exists new,
       setSetting (Some P) B newValue (JObj m) = Returns new /\
       get new (contextualPath (Some P) B) = newValue) /\
  (forall b new settings, b <> "" ->
     bracket_free b = true -> plain_path P = true ->
     m !! "settings" = Some (JObj settings) ->
     head (stringToPath P) <> Some "blocks" ->
     m !! ("settings." +:+ P) = None ->
     m !! ("settings.blocks." +:+ b +:+ "." +:+ P) = None ->
     setSetting (Some P) (Some b) newValue (JObj m) = Returns new ->
     get new ("settings." +:+ P)
     = get (JObj (omap json_value m)) ("settings." +:+ P)) /\
  (forall B source configs value setter,
     useGlobalSetting (Some P) B source configs = Returns (value, setter) ->
     setter = setSetting (Some P) B).
Proof.
  intros HP. split_and!.
  - intros b new Hb Hpath.
    rewrite setSetting_object, contextualPath_block by done.
    apply get_set; [done | by apply writable_accepted].
  - intros B new HB Hpath.
    rewrite setSetting_object, contextualPath_global by done.
    apply get_set; [done | by apply writable_accepted].
  - intros B copy Hpath Halong.
    destruct (setSetting_returns (Some P) B newValue m) as [new Hnew];
      [by apply plain_path_plain_keys | done |].
    exists new. split; [done|]. rewrite setSetting_object in Hnew.
    apply (get_set copy); [done | | done].
    by apply writable_accepted, plain_path_writable.
  - intros b new settings Hb _ _. by apply setSetting_keeps_global.
  - intros B source configs value setter. unfold useGlobalSetting.
    destruct (settingValue (Some P) B source configs); [|done].
    by intros [= _ <-].
Qed.

Lemma setSetting_block_scoped_writable_witness :
  exists new,
    setSetting (Some "color.palette") (Some "core/paragraph")
               (JArr [JStr "b"]) (JObj sample_user_props) = Returns new /\
    get new "settings.blocks.core/paragraph.color.palette" = JArr [JStr "b"] /\
    get new "settings.color.palette"
    = get (JObj (omap json_value sample_user_props)) "settings.color.palette".
Proof.
  eexists. split; [vm_compute; reflexivity|].
  destruct (setSetting_block_scoped_writable "color.palette" (JArr [JStr "b"])
              sample_user_props ltac:(discriminate))
    as (Hblock & _ & _ & Hglobal & _).
  split.
  - apply (Hblock "core/paragraph");
      [discriminate | vm_compute; reflexivity | vm_compute; reflexivity].
  - eapply (Hglobal "core/paragraph");
      [ discriminate | vm_compute; reflexivity | vm_compute; reflexivity
      | vm_compute; reflexivity | discriminate
      | vm_compute; reflexivity | vm_compute; reflexivity
      | vm_compute; reflexivity ].
Defined.

(* ===================================================================== *)
(** ** Capability filter                                                  *)
(* ===================================================================== *)

(** C1, at an input where the code departs from it: the block declares
    padding sides, the registry does not list padding as supported, and the
    result carries the sides for padding instead of [false]. *)
Lemma padding_sides_override_disabled :
  ("padding" ∉ getSupportedStyles sides_store (Some "core/group") None) /\
  get (useSettingsForBlockElement sides_store (JObj ∅)
         (Some "core/group") None) "spacing.padding"
  = obj [ ("sides", JArr [JStr "top"; JStr "bottom"]) ] /\
  (get (useSettingsForBlockElement sides_store (JObj ∅)
          (Some "core/group") None) "spacing.padding"
   <> JBool false) /\
  get (useSettingsForBlockElement sides_store (JObj ∅)
         (Some "core/group") None) "spacing.blockGap"
  = JBool false.
Proof.
  split_and!.
  - simpl. intros H.
    repeat (apply elem_of_cons in H as [H|H]; [discriminate H|]).
    by apply elem_of_nil in H.
  - by vm_compute.
  - by vm_compute.
  - by vm_compute.
Qed.

(** What the spacing loop does in general.  A turn for another feature
    keeps an entry that is already stored. *)
Lemma spacingStep_other (supported : list string) (supports : JsVal)
  (upd m : gmap string JsVal) (key key' : string) (entry : JsVal) :
  key' <> key ->
  upd !! "spacing" = Some (JObj m) -> m !! key = Some entry ->
  exists m', spacingStep supported supports upd key' !! "spacing"
             = Some (JObj m') /\ m' !! key = Some entry.
Proof.
  intros Hne Hupd Hm. unfold spacingStep. cbv zeta.
  assert (exists m1,
            disableUnless supported "spacing" upd key' !! "spacing"
            = Some (JObj m1) /\ m1 !! key = Some entry) as (m1 & Hd & Hm1).
  { unfold disableUnless. case_bool_decide; [exists m; split; assumption|].
    unfold assignField, field. rewrite Hupd. simpl.
    rewrite lookup_insert_eq. eexists. split; [done|].
    by rewrite lookup_insert_ne. }
  destruct (truthy _); [|exists m1; split; assumption].
  unfold assignField. rewrite lookup_insert_eq. eexists. split; [done|].
  rewrite lookup_insert_ne by done. unfold field at 1. by rewrite Hd.
Qed.

Lemma disableUnless_other_section (supported : list string)
  (section key : string) (upd : gmap string JsVal) :
  section <> "spacing" ->
  disableUnless supported section upd key !! "spacing" = upd !! "spacing".
Proof.
  intros Hne. unfold disableUnless. case_bool_decide; [done|].
  unfold assignField. by rewrite lookup_insert_ne.
Qed.

(** Whatever the turn for a feature stores for it, whatever the settings
    were before, is in the result of the filter. *)
Lemma filter_spacing_entry (Q : JsVal -> Prop) (parentSettings : JsVal)
  (supported : list string) (supports : JsVal) (key : string) :
  key ∈ ["padding"; "margin"; "blockGap"] ->
  (forall upd, exists m entry,
      spacingStep supported supports upd key !! "spacing" = Some (JObj m) /\
      m !! key = Some entry /\ Q entry) ->
  Q (get_prop (get_prop (filterSettings parentSettings supported supports)
                        "spacing") key).
Proof.
  intros Hkey Hturn. unfold filterSettings.
  set (s4 := foldl (disableUnless supported "layout") _ _).
  cbn [foldl].
  assert (forall upd m entry,
            upd !! "spacing" = Some (JObj m) -> m !! key = Some entry ->
            Q entry ->
            Q (get_prop
                 (get_prop
                    (JObj (disableUnless supported "dimensions" upd
                             "minHeight")) "spacing") key)) as Hend.
  { intros upd m entry Hupd Hm HQ. simpl.
    rewrite disableUnless_other_section, Hupd by done. simpl.
    by rewrite Hm. }
  repeat (apply elem_of_cons in Hkey as [->|Hkey]).
  - destruct (Hturn s4) as (m & entry & H1 & Hm & HQ).
    destruct (spacingStep_other supported supports _ m "padding" "margin"
                entry ltac:(done) H1 Hm) as (m2 & H2 & Hm2).
    destruct (spacingStep_other supported supports _ m2 "padding" "blockGap"
                entry ltac:(done) H2 Hm2) as (m3 & H3 & Hm3).
    by eapply Hend.
  - destruct (Hturn (spacingStep supported supports s4 "padding"))
      as (m & entry & H1 & Hm & HQ).
    destruct (spacingStep_other supported supports _ m "margin" "blockGap"
                entry ltac:(done) H1 Hm) as (m3 & H3 & Hm3).
    by eapply Hend.
  - destruct (Hturn (spacingStep supported supports
                       (spacingStep supported supports s4 "padding")
                       "margin")) as (m & entry & H1 & Hm & HQ).
    by eapply Hend.
  - by apply elem_of_nil in Hkey.
Qed.

(** An unsupported spacing feature without declared sides is disabled. *)
Lemma spacing_disabled_without_sides (parentSettings : JsVal)
  (supported : list string) (supports : JsVal) (key : string) :
  key ∈ ["padding"; "margin"; "blockGap"] ->
  key ∉ supported ->
  truthy (opt_get (declaredSides supports key) "length") = false ->
  get_prop (get_prop (filterSettings parentSettings supported supports)
                     "spacing") key
  = JBool false.
Proof.
  intros Hkey Hunsupported Hsides.
  apply (filter_spacing_entry (fun entry => entry = JBool false)); [done|].
  intros upd. unfold spacingStep. cbv zeta. rewrite Hsides.
  unfold disableUnless. rewrite bool_decide_eq_false_2 by done.
  unfold assignField. rewrite lookup_insert_eq.
  eexists _, _. split_and!; [done| |done]. by rewrite lookup_insert_eq.
Qed.

(** Declared sides are copied into the entry of the feature, whether the
    feature is supported or not. *)
Lemma spacing_sides_copied (parentSettings : JsVal)
  (supported : list string) (supports : JsVal) (key : string) :
  key ∈ ["padding"; "margin"; "blockGap"] ->
  truthy (opt_get (declaredSides supports key) "length") = true ->
  exists entry,
    get_prop (get_prop (filterSettings parentSettings supported supports)
                       "spacing") key
    = JObj entry /\
    entry !! "sides" = Some (declaredSides supports key).
Proof.
  intros Hkey Hsides.
  apply (filter_spacing_entry
           (fun e => exists entry, e = JObj entry /\
                       entry !! "sides" = Some (declaredSides supports key)));
    [done|].
  intros upd. unfold spacingStep. cbv zeta. rewrite Hsides.
  unfold assignField at 1. rewrite lookup_insert_eq.
  eexists _, _. split_and!; [done| |].
  - by rewrite lookup_insert_eq.
  - eexists. split; [done|]. by rewrite lookup_insert_eq.
Qed.

(* ===================================================================== *)
(** ** Writes in the heap                                                 *)
(* ===================================================================== *)

Module HeapFacts.
Import Heap.




















(** *** [JSON.parse] makes new objects only *)








(** *** Reading data from the heap *)




(** *** The copy made by [JSON.parse] holds the text *)






(** *** The two updaters *)






End HeapFacts.

(* ===================================================================== *)
(** ** The heap run and the data run of a write agree                     *)
(* ===================================================================== *)

Module Refinement.
Import Heap HeapFacts.








(** *** [JSON.parse] builds owned trees *)







(** *** The loop of [baseSet] on an owned tree *)






(** *** Copy, then assign *)


End Refinement.


(* ===================================================================== *)
(** ** The theorems at sample inputs                                      *)
(* ===================================================================== *)


Lemma getSetting_block_then_global_witness :
  settingValue (Some "color.link") (Some "core/paragraph") "all" sample_bundle
    = Returns (JBool true) /\
  settingValue (Some "color.palette") (Some "core/paragraph") "all"
               sample_bundle
    = Returns (JArr [JStr "a"]) /\
  settingValue (Some "color.link") None "all" sample_bundle
    = Returns (JBool false).
Proof.
  destruct (getSetting_block_then_global "color.link" "all" sample_bundle
              ltac:(discriminate) ltac:(reflexivity)) as [Hblock Hglobal].
  destruct (getSetting_block_then_global "color.palette" "all" sample_bundle
              ltac:(discriminate) ltac:(reflexivity)) as [Hblock' _].
  split_and!.
  - apply (Hblock "core/paragraph"); [discriminate | reflexivity].
  - apply (Hblock' "core/paragraph"); [discriminate | reflexivity].
  - apply (Hglobal None). reflexivity.
Defined.



Lemma getStyle_block_css_from_merged_witness :
  styleValue plain_decode (Some "css") (Some "core/paragraph") "all" false
             sample_bundle
  = Returns (JStr "p{}").
Proof.
  destruct (getStyle_block_css_from_merged plain_decode sample_bundle
              "core/paragraph" ltac:(discriminate)) as (_ & _ & -> & _).
  reflexivity.
Defined.

(* ===================================================================== *)
(** ** Navigation menus screen: [onSelect]                                *)
(* ===================================================================== *)

Section OnSelect.
Import Navigation.

Lemma onSelect_attributes (history : option (list JsVal))
  (selectedBlock : JsVal) :
  nullish selectedBlock = false ->
  nullish (get_prop selectedBlock "attributes") = false ->
  let attributes := get_prop selectedBlock "attributes" in
  let name := get_prop selectedBlock "name" in
  let id := get_prop attributes "id" in
  let type := get_prop attributes "type" in
  let first :=
    is_text (get_prop attributes "kind") "post-type" && truthy id && truthy type in
  let second := is_text name "core/page-list-item" && truthy id in
  onSelect history selectedBlock
  = Returns
      (pushed ← history;
       Some (pushed ++ (if first then [location type id] else [])
                    ++ (if second then [location (JStr "page") id] else []))).
Proof.
  intros Hblock Hattrs. cbv zeta.
  unfold onSelect, member. rewrite Hblock. simpl. rewrite Hattrs. simpl.
  destruct history as [pushed|]; [|done]. simpl. unfold push.
  destruct (is_text _ "post-type" && _ && _);
    destruct (is_text _ "core/page-list-item" && _);
    by rewrite <- ?app_assoc, ?app_nil_r.
Qed.

(** X1.  For a selected block with attributes, and a history that is there,
    [onSelect] returns and leaves the locations pushed before in place; it
    pushes at most two locations after them, each an object whose [postId]
    is [attributes.id], and none at all when [attributes.id] is falsy. *)
Theorem onSelect_pushes (pushed : list JsVal) (selectedBlock : JsVal) :
  nullish selectedBlock = false ->
  nullish (get_prop selectedBlock "attributes") = false ->
  let id := get_prop (get_prop selectedBlock "attributes") "id" in
  exists new,
    onSelect (Some pushed) selectedBlock = Returns (Some (pushed ++ new)) /\
    length new <= 2 /\
    Forall (fun target => get_prop target "postId" = id /\
                          exists postType, target = location postType id) new /\
    (truthy id = false -> new = []).
Proof.
  intros Hblock Hattrs id.
  rewrite (onSelect_attributes _ _ Hblock Hattrs). simpl.
  eexists. split; [reflexivity|].
  fold id. destruct (truthy id).
  - split_and!; [|  |done].
    + rewrite length_app. do 2 destruct (_ && _); simpl; lia.
    + apply Forall_app.
      split; destruct (_ && _); constructor; try (by constructor);
        (split; [by vm_compute | by eexists]).
  - rewrite !andb_false_r. simpl. split_and!; [lia | constructor | done].
Qed.

(** X2.  Selecting a page list item with an id, with a history that is
    there, ends at the page of that id: the last location pushed is
    [{ postType: 'page', postId: attributes.id }].  When the block is also a
    link of kind [post-type] with a type, the location of that type is
    pushed just before it, so the history gets two entries for one
    selection; otherwise the page is the only location pushed. *)
Theorem onSelect_page_list_item (pushed : list JsVal)
  (selectedBlock : JsVal) :
  nullish (get_prop selectedBlock "attributes") = false ->
  get_prop selectedBlock "name" = JStr "core/page-list-item" ->
  let attributes := get_prop selectedBlock "attributes" in
  let id := get_prop attributes "id" in
  let type := get_prop attributes "type" in
  truthy id = true ->
  onSelect (Some pushed) selectedBlock
  = Returns
      (Some (if is_text (get_prop attributes "kind") "post-type" && truthy type
             then pushed ++ [location type id; location (JStr "page") id]
             else pushed ++ [location (JStr "page") id])).
Proof.
  intros Hattrs Hname attributes id type Hid.
  assert (nullish selectedBlock = false) as Hblock.
  { destruct selectedBlock; try done; by vm_compute in Hname. }
  rewrite (onSelect_attributes _ _ Hblock Hattrs). simpl.
  fold attributes id type. rewrite Hname, Hid. simpl.
  rewrite andb_true_r.
  by destruct (is_text (get_prop attributes "kind") "post-type");
    destruct (truthy type).
Qed.

(** X3.  [onSelect] throws exactly when the selected block or its
    attributes are [undefined] or [null], and then it is a [TypeError]; and
    without a history it pushes nothing. *)
Theorem onSelect_throws (history : option (list JsVal))
  (selectedBlock : JsVal) :
  ((exists e, onSelect history selectedBlock = Throws e) <->
   nullish selectedBlock = true \/
   nullish (get_prop selectedBlock "attributes") = true) /\
  (forall e, onSelect history selectedBlock = Throws e -> e = TypeError) /\
  (forall after, onSelect None selectedBlock = Returns after -> after = None).
Proof.
  destruct (nullish selectedBlock) eqn:Hblock.
  { unfold onSelect, member. rewrite Hblock. simpl.
    split_and!; [|by intros e [= <-]|done].
    split; [by left | by eexists]. }
  destruct (nullish (get_prop selectedBlock "attributes")) eqn:Hattrs.
  { unfold onSelect, member. rewrite Hblock. simpl. rewrite Hattrs. simpl.
    split_and!; [|by intros e [= <-]|done].
    split; [by right | by eexists]. }
  split_and!.
  - rewrite (onSelect_attributes _ _ Hblock Hattrs).
    split; [by intros [e ?] | by intros [?|?]].
  - by rewrite (onSelect_attributes _ _ Hblock Hattrs).
  - rewrite (onSelect_attributes _ _ Hblock Hattrs). simpl. by intros after [= <-].
Qed.

End OnSelect.

(* ===================================================================== *)
(** ** What a spread copies                                               *)
(* ===================================================================== *)

Lemma digit_of_pretty_N_char (d : N) : is_Some (digit_of (pretty_N_char d)).
Proof. unfold pretty_N_char. repeat case_match; vm_compute; by eexists. Qed.

Lemma digits_value_cons (a : ascii) (s : string) :
  is_Some (digit_of a) -> (forall acc, is_Some (digits_value acc s)) ->
  forall acc, is_Some (digits_value acc (String a s)).
Proof. intros [d Hd] Hs acc. simpl. rewrite Hd. apply Hs. Qed.

Lemma pretty_N_go_digits (x : N) (s : string) :
  (forall acc, is_Some (digits_value acc s)) ->
  forall acc, is_Some (digits_value acc (pretty_N_go x s)).
Proof.
  revert s. induction (N.lt_wf_0 x) as [x _ IH]; intros s Hs.
  assert (x = 0 \/ 0 < x)%N as [->|Hx] by lia; [by rewrite pretty_N_go_0|].
  rewrite pretty_N_go_step by done. apply IH; [by apply N.div_lt|].
  apply digits_value_cons; [apply digit_of_pretty_N_char | done].
Qed.

(** The decimal notation of a number consists of digits. *)
Lemma pretty_N_digits (n : N) : is_Some (digits_value 0 (pretty n)).
Proof.
  unfold pretty, pretty_N. case_decide; [vm_compute; by eexists|].
  apply pretty_N_go_digits. intros acc. by eexists.
Qed.

(** The properties of an array-like that a spread copies are its indices. *)
Lemma index_props_lookup (l : list JsVal) (k : string) :
  digits_value 0 k = None -> index_props l !! k = None.
Proof.
  intros Hk. unfold index_props. apply not_elem_of_list_to_map_1.
  intros (kv & -> & Hin)%list_elem_of_fmap.
  apply elem_of_lookup_imap in Hin as (i & x & -> & _). simpl in Hk.
  destruct (pretty_N_digits (N.of_nat i)) as [n Hn]. congruence.
Qed.

(** A property that is neither an index nor [length], read from the copy
    of a value, is the property of the value. *)
Lemma spread_lookup (v : JsVal) (k : string) :
  digits_value 0 k = None -> k <> "length" ->
  default JUndefined (spread v !! k) = opt_get v k.
Proof.
  intros Hk Hlen.
  assert (array_index k = None) as Hindex.
  { unfold array_index, canonical_uint. rewrite Hk. by destruct k. }
  destruct v as [| | | | s | l | m]; try done.
  - unfold opt_get. simpl. rewrite Hindex, decide_False by done.
    by rewrite index_props_lookup.
  - unfold opt_get. simpl. rewrite Hindex, decide_False by done.
    by rewrite index_props_lookup.
Qed.

(* ===================================================================== *)
(** ** Capability filter: what each step stores and keeps                 *)
(* ===================================================================== *)

Section FilterSteps.
Import Entries.

Implicit Types (upd : gmap string JsVal) (supported : list string).

Lemma field_insert upd (s s' : string) (v : JsVal) :
  field (<[s := v]> upd) s' = if decide (s' = s) then v else field upd s'.
Proof.
  unfold field. case_decide; subst;
    by rewrite ?lookup_insert_eq, ?lookup_insert_ne.
Qed.

Lemma assignField_lookup_ne upd (s k s' : string) (v : JsVal) :
  s' <> s -> assignField upd s k v !! s' = upd !! s'.
Proof. intros Hne. unfold assignField. by rewrite lookup_insert_ne. Qed.

Lemma assignField_stores upd (s k : string) (v : JsVal) :
  stored (assignField upd s k v) s k v.
Proof.
  unfold assignField. eexists. rewrite lookup_insert_eq. split; [done|].
  by rewrite lookup_insert_eq.
Qed.

Lemma assignField_keeps (s k s' k' : string) (v' : JsVal) :
  s' <> s \/ k' <> k -> keeps (fun upd => assignField upd s' k' v') s k.
Proof.
  intros Hne upd value (m & Hs & Hk). unfold assignField.
  destruct (decide (s' = s)) as [->|Hs'].
  - destruct Hne as [?|Hk']; [done|].
    eexists. rewrite lookup_insert_eq. split; [done|].
    unfold field. rewrite Hs. simpl. by rewrite lookup_insert_ne.
  - exists m. by rewrite lookup_insert_ne.
Qed.

(** Writing an entry that is stored already changes nothing. *)
Lemma assignField_stored upd (s k : string) (v : JsVal) :
  stored upd s k v -> assignField upd s k v = upd.
Proof.
  intros (m & Hs & Hk). unfold assignField, field. rewrite Hs. simpl.
  rewrite (insert_id m) by done. by apply insert_id.
Qed.

Lemma assignField_entry upd (s k s' k' : string) (v : JsVal) :
  entry (assignField upd s k v) s' k'
  = if bool_decide (s' = s /\ k' = k) then Some v else entry upd s' k'.
Proof.
  unfold entry, assignField. rewrite field_insert.
  destruct (decide (s' = s)) as [->|Hs].
  - simpl. destruct (decide (k' = k)) as [->|Hk].
    + by rewrite lookup_insert_eq, bool_decide_eq_true_2.
    + rewrite lookup_insert_ne by done.
      by rewrite bool_decide_eq_false_2 by (by intros [_ ?]).
  - by rewrite bool_decide_eq_false_2 by (by intros [? _]).
Qed.

(** *** [disableUnless] *)

Lemma disableUnless_lookup_ne supported (s k s' : string) upd :
  s' <> s -> disableUnless supported s upd k !! s' = upd !! s'.
Proof.
  intros Hne. unfold disableUnless. case_bool_decide; [done|].
  by apply assignField_lookup_ne.
Qed.

Lemma disableUnless_supported supported (s k : string) upd :
  k ∈ supported -> disableUnless supported s upd k = upd.
Proof. intros Hk. unfold disableUnless. by rewrite bool_decide_eq_true_2. Qed.

Lemma disableUnless_stores supported (s k : string) upd :
  k ∉ supported -> stored (disableUnless supported s upd k) s k (JBool false).
Proof.
  intros Hk. unfold disableUnless. rewrite bool_decide_eq_false_2 by done.
  apply assignField_stores.
Qed.

Lemma disableUnless_keeps supported (s k s' k' : string) :
  s' <> s \/ k' <> k -> keeps (fun upd => disableUnless supported s' upd k') s k.
Proof.
  intros Hne upd value Hst. unfold disableUnless.
  case_bool_decide; [done|]. by apply assignField_keeps.
Qed.

Lemma disableUnless_stored supported (s k : string) upd :
  (k ∉ supported -> stored upd s k (JBool false)) ->
  disableUnless supported s upd k = upd.
Proof.
  intros Hst. unfold disableUnless. case_bool_decide; [done|].
  by apply assignField_stored, Hst.
Qed.

Lemma disableUnless_entry supported (s k s' k' : string) upd :
  entry (disableUnless supported s upd k) s' k'
  = if bool_decide (s' = s /\ k' = k /\ k ∉ supported) then Some (JBool false)
    else entry upd s' k'.
Proof.
  unfold disableUnless. case_bool_decide as Hk.
  - by rewrite bool_decide_eq_false_2 by (by intros (_ & _ & ?)).
  - rewrite assignField_entry.
    rewrite (bool_decide_ext (s' = s /\ k' = k /\ k ∉ supported) (s' = s /\ k' = k));
      [done | naive_solver].
Qed.

(** *** The loops over several keys of one section *)

Lemma foldl_disableUnless_lookup_ne supported (s s' : string)
  (keys : list string) upd :
  s' <> s -> foldl (disableUnless supported s) upd keys !! s' = upd !! s'.
Proof.
  intros Hne. revert upd. induction keys as [|k keys IH]; intros upd; [done|].
  simpl. by rewrite IH, disableUnless_lookup_ne.
Qed.

Lemma foldl_disableUnless_keeps supported (s k s' : string)
  (keys : list string) :
  s' <> s \/ k ∉ keys ->
  keeps (fun upd => foldl (disableUnless supported s') upd keys) s k.
Proof.
  intros Hne. induction keys as [|k' keys IH]; intros upd value Hst; [done|].
  simpl. apply IH.
  - destruct Hne as [?|Hk]; [by left|]. right. set_solver.
  - apply (disableUnless_keeps supported s k s' k'); [|done].
    destruct Hne as [?|Hk]; [by left|]. right. set_solver.
Qed.

Lemma foldl_disableUnless_stores supported (s k : string)
  (keys : list string) upd :
  k ∈ keys -> k ∉ supported ->
  stored (foldl (disableUnless supported s) upd keys) s k (JBool false).
Proof.
  intros Hin Hk. revert upd.
  induction keys as [|k' keys IH] using rev_ind; intros upd;
    [by apply elem_of_nil in Hin|].
  rewrite foldl_app. simpl.
  destruct (decide (k' = k)) as [->|Hne].
  - by apply disableUnless_stores.
  - apply (disableUnless_keeps supported s k s k'); [by right|].
    apply IH. set_solver.
Qed.

Lemma foldl_disableUnless_stored supported (s : string)
  (keys : list string) upd :
  (forall k, k ∈ keys -> k ∉ supported -> stored upd s k (JBool false)) ->
  foldl (disableUnless supported s) upd keys = upd.
Proof.
  intros Hst. induction keys as [|k keys IH]; [done|]. simpl.
  rewrite disableUnless_stored by (apply Hst; set_solver).
  apply IH. intros k' Hk'. apply Hst. set_solver.
Qed.

Lemma foldl_disableUnless_entry supported (s s' k' : string)
  (keys : list string) upd :
  entry (foldl (disableUnless supported s) upd keys) s' k'
  = if bool_decide (s' = s /\ k' ∈ keys /\ k' ∉ supported)
    then Some (JBool false) else entry upd s' k'.
Proof.
  revert upd. induction keys as [|k keys IH] using rev_ind; intros upd.
  - simpl. rewrite bool_decide_eq_false_2; [done|]. set_solver.
  - rewrite foldl_app. simpl. rewrite disableUnless_entry, IH.
    repeat case_bool_decide; try done; set_solver.
Qed.

(** *** The two font steps *)

Lemma fontSize_step upd :
  <["typography" :=
      JObj (<["customFontSize" := JBool false]>
              (<["fontSizes" := JObj ∅]> (spread (field upd "typography"))))]>
    upd
  = assignField (assignField upd "typography" "fontSizes" (JObj ∅))
                "typography" "customFontSize" (JBool false).
Proof.
  unfold assignField. rewrite field_insert, decide_True by done.
  by rewrite insert_insert_eq.
Qed.

(** *** The spacing loop *)

Lemma spacingStep_no_sides supported (supports : JsVal) upd (k : string) :
  truthy (opt_get (declaredSides supports k) "length") = false ->
  spacingStep supported supports upd k
  = disableUnless supported "spacing" upd k.
Proof. intros H. unfold spacingStep. cbv zeta. by rewrite H. Qed.

(** What the turn of a feature finds stored for it after the support
    check. *)
Lemma spacing_entry_checked supported upd (k : string) :
  opt_get (field (disableUnless supported "spacing" upd k) "spacing") k
  = if bool_decide (k ∈ supported) then opt_get (field upd "spacing") k
    else JBool false.
Proof.
  unfold disableUnless. case_bool_decide; [done|].
  unfold assignField. rewrite field_insert, decide_True by done.
  unfold opt_get. simpl. by rewrite lookup_insert_eq.
Qed.

Lemma spacingStep_sides supported (supports : JsVal) upd (k : string) :
  truthy (opt_get (declaredSides supports k) "length") = true ->
  spacingStep supported supports upd k
  = assignField (disableUnless supported "spacing" upd k) "spacing" k
      (JObj (<["sides" := declaredSides supports k]>
               (spread (if bool_decide (k ∈ supported)
                        then opt_get (field upd "spacing") k
                        else JBool false)))).
Proof.
  intros H. unfold spacingStep. cbv zeta.
  by rewrite H, spacing_entry_checked.
Qed.

Lemma spacingStep_lookup_ne supported (supports : JsVal) upd
  (k s' : string) :
  s' <> "spacing" -> spacingStep supported supports upd k !! s' = upd !! s'.
Proof.
  intros Hne. unfold spacingStep. cbv zeta. destruct (truthy _).
  - by rewrite assignField_lookup_ne, disableUnless_lookup_ne.
  - by rewrite disableUnless_lookup_ne.
Qed.

Lemma spacingStep_keeps supported (supports : JsVal) (s k k' : string) :
  s <> "spacing" \/ k' <> k ->
  keeps (fun upd => spacingStep supported supports upd k') s k.
Proof.
  intros Hne upd value Hst. unfold spacingStep. cbv zeta.
  assert ("spacing" <> s \/ k' <> k) as Hne' by naive_solver.
  pose proof (disableUnless_keeps supported s k "spacing" k' Hne' upd value Hst)
    as Hd.
  destruct (truthy _); [|done]. by apply assignField_keeps.
Qed.

Lemma spacingStep_entry supported (supports : JsVal) upd
  (k s' k' : string) :
  s' <> "spacing" \/ k' <> k ->
  entry (spacingStep supported supports upd k) s' k' = entry upd s' k'.
Proof.
  intros Hne. unfold spacingStep. cbv zeta.
  assert (entry (disableUnless supported "spacing" upd k) s' k'
          = entry upd s' k') as Hd.
  { rewrite disableUnless_entry. rewrite bool_decide_eq_false_2; [done|].
    naive_solver. }
  destruct (truthy _); [|done].
  rewrite assignField_entry, Hd. rewrite bool_decide_eq_false_2; [done|].
  naive_solver.
Qed.

End FilterSteps.

(* ===================================================================== *)
(** ** Capability filter: the result                                      *)
(* ===================================================================== *)

Section FilterResult.
Import Entries.

Implicit Types (upd : gmap string JsVal) (supported : list string).

(** An entry that is stored when a step is done is still stored when the
    steps after it are done. *)
Ltac other_entry :=
  solve [ left; done | right; done
        | right; rewrite ?not_elem_of_cons; split_and?;
          first [ done | apply not_elem_of_nil ] ].

Ltac later_step :=
  first
    [ apply disableUnless_keeps; [other_entry|]
    | apply spacingStep_keeps; [other_entry|]
    | apply foldl_disableUnless_keeps; [other_entry|]
    | apply assignField_keeps; [other_entry|] ].

Ltac cases_of H :=
  repeat (apply elem_of_cons in H as [->|H]); [..|by apply elem_of_nil in H].

Lemma filter_filtered (parentSettings : JsVal) supported (supports : JsVal) :
  exists r,
    filterSettings parentSettings supported supports = JObj r /\
    filtered supported supports r.
Proof.
  eexists. split; [reflexivity|]. cbn [foldl]. split.
  - intros Hfont. rewrite (bool_decide_eq_false_2 _ Hfont), fontSize_step.
    split; destruct (bool_decide ("fontFamily" ∈ supported));
      repeat later_step; apply assignField_stores.
  - intros Hfont. rewrite (bool_decide_eq_false_2 _ Hfont).
    repeat later_step. apply assignField_stores.
  - intros key Hkey Hunsupported.
    cases_of Hkey; repeat later_step; by apply disableUnless_stores.
  - intros key Hkey Hunsupported.
    cases_of Hkey; repeat later_step; by apply disableUnless_stores.
  - intros key Hkey Hsides Hunsupported.
    cases_of Hkey; repeat later_step;
      rewrite spacingStep_no_sides by done; by apply disableUnless_stores.
  - intros key Hkey Hsides.
    cases_of Hkey; (eexists; split;
      [ repeat later_step; rewrite spacingStep_sides by done;
        apply assignField_stores
      | intros Hunsupported; by rewrite bool_decide_eq_false_2 ]).
  - intros Hunsupported. by apply disableUnless_stores.
Qed.

(** The settings the filter has been through are left as they are by a
    second pass. *)
Lemma spacingStep_fixed supported (supports : JsVal) upd (k : string) :
  (truthy (opt_get (declaredSides supports k) "length") = false ->
   k ∉ supported -> stored upd "spacing" k (JBool false)) ->
  (truthy (opt_get (declaredSides supports k) "length") = true ->
   exists inherited,
     stored upd "spacing" k
       (JObj (<["sides" := declaredSides supports k]> inherited)) /\
     (k ∉ supported -> inherited = ∅)) ->
  spacingStep supported supports upd k = upd.
Proof.
  intros Hflag Hsides.
  destruct (truthy (opt_get (declaredSides supports k) "length")) eqn:Hlen.
  - rewrite spacingStep_sides by done.
    destruct (Hsides eq_refl) as (inherited & (m & Hs & Hk) & Hempty).
    case_bool_decide as Hsup.
    + rewrite disableUnless_supported by done.
      apply assignField_stored. exists m. split; [done|].
      unfold field, opt_get. rewrite Hs. simpl. rewrite Hk. simpl.
      by rewrite insert_insert_eq.
    + rewrite (Hempty Hsup) in *. unfold disableUnless.
      rewrite bool_decide_eq_false_2 by done. unfold assignField.
      rewrite field_insert, decide_True by done. unfold field. rewrite Hs.
      simpl. rewrite !insert_insert_eq.
      rewrite (insert_id m) by done. by apply insert_id.
  - rewrite spacingStep_no_sides by done. apply disableUnless_stored. auto.
Qed.

Lemma filtered_fixed supported (supports : JsVal) (r : gmap string JsVal) :
  filtered supported supports r ->
  filterSettings (JObj r) supported supports = JObj r.
Proof.
  intros Hr. unfold filterSettings. simpl spread. cbv zeta. f_equal.
  assert ((if bool_decide ("fontSize" ∈ supported) then r
           else <["typography" :=
                    JObj (<["customFontSize" := JBool false]>
                            (<["fontSizes" := JObj ∅]>
                               (spread (field r "typography"))))]> r) = r)
    as ->.
  { case_bool_decide as Hfont; [done|]. rewrite fontSize_step.
    destruct (filtered_fontSize _ _ _ Hr Hfont) as [Hsizes Hcustom].
    by rewrite (assignField_stored r "typography" "fontSizes"),
      assignField_stored. }
  assert ((if bool_decide ("fontFamily" ∈ supported) then r
           else assignField r "typography" "fontFamilies" (JObj ∅)) = r)
    as ->.
  { case_bool_decide as Hfont; [done|].
    by apply assignField_stored, (filtered_fontFamily _ _ _ Hr). }
  rewrite (foldl_disableUnless_stored supported "typography")
    by apply (filtered_typography _ _ _ Hr).
  rewrite (foldl_disableUnless_stored supported "layout")
    by apply (filtered_layout _ _ _ Hr).
  cbn [foldl].
  assert (forall k, k ∈ ["padding"; "margin"; "blockGap"] ->
            spacingStep supported supports r k = r) as Hstep.
  { intros k Hk. apply spacingStep_fixed.
    - by apply (filtered_spacing _ _ _ Hr).
    - by apply (filtered_sides _ _ _ Hr). }
  rewrite !Hstep by set_solver.
  apply disableUnless_stored, (filtered_dimensions _ _ _ Hr).
Qed.

(** Sections the filter has no step for are handed on. *)
Lemma filter_other_section (parentSettings : JsVal) supported
  (supports : JsVal) (section : string) :
  section ∉ ["typography"; "layout"; "spacing"; "dimensions"] ->
  exists r,
    filterSettings parentSettings supported supports = JObj r /\
    r !! section = spread parentSettings !! section.
Proof.
  intros Hsection. eexists. split; [reflexivity|].
  assert (section <> "typography" /\ section <> "layout" /\
          section <> "spacing" /\ section <> "dimensions")
    as (Ht & Hl & Hs & Hd) by set_solver.
  cbn [foldl].
  rewrite disableUnless_lookup_ne, !spacingStep_lookup_ne by done.
  rewrite !disableUnless_lookup_ne by done.
  case_bool_decide; [|rewrite assignField_lookup_ne by done];
    (case_bool_decide; [done|by rewrite lookup_insert_ne]).
Qed.

(** Entries the filter has no reason to write are as a copy of the parent
    settings has them. *)
Lemma spacingStep_entry_kept supported (supports : JsVal) upd
  (k s' k' : string) :
  (s' = "spacing" -> k' = k ->
   k ∈ supported /\
   truthy (opt_get (declaredSides supports k) "length") = false) ->
  entry (spacingStep supported supports upd k) s' k' = entry upd s' k'.
Proof.
  intros Hkept.
  destruct (decide (s' = "spacing" /\ k' = k)) as [[-> ->]|Hne].
  - destruct Hkept as [Hsup Hsides]; [done..|].
    by rewrite spacingStep_no_sides, disableUnless_supported.
  - apply spacingStep_entry.
    destruct (decide (s' = "spacing")); [right|left]; naive_solver.
Qed.

Lemma filter_entry_kept (parentSettings : JsVal) supported
  (supports : JsVal) (section key : string) (r : gmap string JsVal) :
  filterSettings parentSettings supported supports = JObj r ->
  (forall style, (style, section, key) ∈ controlled -> style ∈ supported) ->
  (section = "spacing" ->
   truthy (opt_get (declaredSides supports key) "length") = false) ->
  entry r section key = entry (spread parentSettings) section key.
Proof.
  intros [= <-] Hsup Hsides. unfold controlled in Hsup.
  assert (forall k, k ∈ ["padding"; "margin"; "blockGap"] ->
            section = "spacing" -> key = k ->
            k ∈ supported /\
            truthy (opt_get (declaredSides supports k) "length") = false)
    as Hspacing.
  { intros k Hk -> ->. split; [|by apply Hsides].
    apply Hsup. cases_of Hk; set_solver. }
  rewrite disableUnless_entry. cbn [foldl].
  rewrite !spacingStep_entry_kept by (apply Hspacing; set_solver).
  rewrite !disableUnless_entry.
  repeat (rewrite bool_decide_eq_false_2;
          [|intros (-> & -> & Hout); apply Hout, Hsup; set_solver]).
  case_bool_decide as Hfamily.
  - case_bool_decide as Hsize; [done|].
    rewrite fontSize_step, !assignField_entry.
    repeat (rewrite bool_decide_eq_false_2;
            [|intros (-> & ->); apply Hsize, Hsup; set_solver]).
    done.
  - rewrite assignField_entry.
    rewrite bool_decide_eq_false_2
      by (intros (-> & ->); apply Hfamily, Hsup; set_solver).
    case_bool_decide as Hsize; [done|].
    rewrite fontSize_step, !assignField_entry.
    repeat (rewrite bool_decide_eq_false_2;
            [|intros (-> & ->); apply Hsize, Hsup; set_solver]).
    done.
Qed.

Lemma stored_read upd (section key : string) (value : JsVal) :
  stored upd section key value ->
  get_prop (get_prop (JObj upd) section) key = value.
Proof. intros (m & Hs & Hk). simpl. rewrite Hs. simpl. by rewrite Hk. Qed.

(** An entry under a name that is neither an index nor [length], read with
    [?.], is what the copy of the section holds. *)
Lemma entry_read upd (section key : string) :
  digits_value 0 key = None -> key <> "length" ->
  opt_get (field upd section) key = default JUndefined (entry upd section key).
Proof. intros Hk Hlen. unfold entry. by rewrite spread_lookup. Qed.

Lemma field_spread (parentSettings : JsVal) (section : string) :
  digits_value 0 section = None -> section <> "length" ->
  field (spread parentSettings) section = opt_get parentSettings section.
Proof. intros Hs Hlen. unfold field. by rewrite spread_lookup. Qed.

Lemma entry_before_spacing (parentSettings : JsVal) supported (k : string) :
  entry
    (foldl (disableUnless supported "layout")
       (foldl (disableUnless supported "typography")
          (if bool_decide ("fontFamily" ∈ supported)
           then
             if bool_decide ("fontSize" ∈ supported)
             then spread parentSettings
             else <["typography" :=
                      JObj (<["customFontSize" := JBool false]>
                              (<["fontSizes" := JObj ∅]>
                                 (spread (field (spread parentSettings)
                                                "typography"))))]>
                    (spread parentSettings)
           else
             assignField
               (if bool_decide ("fontSize" ∈ supported)
                then spread parentSettings
                else <["typography" :=
                         JObj (<["customFontSize" := JBool false]>
                                 (<["fontSizes" := JObj ∅]>
                                    (spread (field (spread parentSettings)
                                                   "typography"))))]>
                       (spread parentSettings))
               "typography" "fontFamilies" (JObj ∅))
          [ "lineHeight"; "fontStyle"; "fontWeight"; "letterSpacing";
            "textTransform"; "textDecoration" ])
       [ "contentSize"; "wideSize" ]) "spacing" k
  = entry (spread parentSettings) "spacing" k.
Proof.
  rewrite !foldl_disableUnless_entry.
  rewrite !bool_decide_eq_false_2 by (by intros [? _]).
  rewrite fontSize_step.
  repeat case_bool_decide; rewrite ?assignField_entry;
    by rewrite ?bool_decide_eq_false_2 by (by intros [? _]).
Qed.

(** X4.  The filter has steps for the sections [typography], [layout],
    [spacing] and [dimensions] only: under every other name the result
    holds what a copy [{ ...parentSettings }] holds, the very value of the
    parent settings when these are an object, and nothing when they hold
    nothing there. *)
Theorem filter_passes_other_sections (store : BlocksStore)
  (parentSettings : JsVal) (blockName element : option string)
  (section : string) :
  section ∉ ["typography"; "layout"; "spacing"; "dimensions"] ->
  exists r,
    useSettingsForBlockElement store parentSettings blockName element
      = JObj r /\
    r !! section = spread parentSettings !! section /\
    (forall p, parentSettings = JObj p -> r !! section = p !! section).
Proof.
  intros Hsection. unfold useSettingsForBlockElement. cbv zeta.
  destruct (filter_other_section parentSettings
              (getSupportedStyles store blockName element)
              (opt_get (getBlockType store blockName) "supports")
              section Hsection) as (r & Hr & Hsame).
  exists r. split_and!; [done..|]. intros p ->. exact Hsame.
Qed.

(** X5.  When every style the filter asks about is supported and the block
    declares sides for none of the spacing features, the result is a copy
    of the parent settings with nothing changed: the same keys with the
    same values. *)
Theorem filter_identity_when_supported (store : BlocksStore)
  (parentSettings : JsVal) (blockName element : option string) :
  let supportedStyles := getSupportedStyles store blockName element in
  let supports := opt_get (getBlockType store blockName) "supports" in
  (forall style section key,
     (style, section, key) ∈ controlled -> style ∈ supportedStyles) ->
  (forall key, key ∈ ["padding"; "margin"; "blockGap"] ->
     truthy (opt_get (declaredSides supports key) "length") = false) ->
  useSettingsForBlockElement store parentSettings blockName element
    = JObj (spread parentSettings) /\
  (forall p, parentSettings = JObj p ->
     useSettingsForBlockElement store parentSettings blockName element
       = parentSettings).
Proof.
  intros supportedStyles supports Hsup Hsides.
  assert (useSettingsForBlockElement store parentSettings blockName element
          = JObj (spread parentSettings)) as Hcopy.
  { unfold useSettingsForBlockElement, filterSettings. cbv zeta.
    fold supportedStyles supports.
    assert (Forall (fun entry => entry.1.1 ∈ supportedStyles) controlled)
      as Hall.
    { apply Forall_forall. intros [[style section] key] Hin.
      by eapply Hsup. }
    unfold controlled in Hall.
    repeat (apply Forall_cons in Hall as [? Hall]). cbn [fst] in *.
    rewrite !bool_decide_eq_true_2 by done.
    rewrite !foldl_disableUnless_stored
      by (intros k Hk Hout; destruct Hout; cases_of Hk; done).
    cbn [foldl].
    rewrite !spacingStep_no_sides by (apply Hsides; set_solver).
    by rewrite !disableUnless_supported by done. }
  split; [done|]. intros p ->. exact Hcopy.
Qed.

(** X6.  A style the block does not support that has a flag of its own
    ([lineHeight], [fontStyle], [fontWeight], [letterSpacing],
    [textTransform], [textDecoration] under [typography]; [contentSize],
    [wideSize] under [layout]; [minHeight] under [dimensions]) is [false]
    in the result, whatever the parent settings hold. *)
Theorem unsupported_flags_disabled (store : BlocksStore)
  (parentSettings : JsVal) (blockName element : option string)
  (section key : string) :
  (section, key) ∈
    [ ("typography", "lineHeight"); ("typography", "fontStyle");
      ("typography", "fontWeight"); ("typography", "letterSpacing");
      ("typography", "textTransform"); ("typography", "textDecoration");
      ("layout", "contentSize"); ("layout", "wideSize");
      ("dimensions", "minHeight") ] ->
  key ∉ getSupportedStyles store blockName element ->
  get_prop
    (get_prop
       (useSettingsForBlockElement store parentSettings blockName element)
       section) key
  = JBool false.
Proof.
  intros Hentry Hunsupported. unfold useSettingsForBlockElement. cbv zeta.
  destruct (filter_filtered parentSettings
              (getSupportedStyles store blockName element)
              (opt_get (getBlockType store blockName) "supports"))
    as (r & -> & Hr).
  apply stored_read.
  repeat (apply elem_of_cons in Hentry as [[= -> ->]|Hentry]);
    [..|by apply elem_of_nil in Hentry];
    first [ apply (filtered_typography _ _ _ Hr); [set_solver|done]
          | apply (filtered_layout _ _ _ Hr); [set_solver|done]
          | by apply (filtered_dimensions _ _ _ Hr) ].
Qed.

(** X7.  Without support for [fontSize] the result offers no font sizes
    and no custom font size: [typography.fontSizes] is the empty object and
    [typography.customFontSize] is [false].  Without support for
    [fontFamily], [typography.fontFamilies] is the empty object.  This holds
    whatever the parent settings hold there. *)
Theorem unsupported_fonts_emptied (store : BlocksStore)
  (parentSettings : JsVal) (blockName element : option string) :
  let result :=
    useSettingsForBlockElement store parentSettings blockName element in
  let typography := get_prop result "typography" in
  ("fontSize" ∉ getSupportedStyles store blockName element ->
   get_prop typography "fontSizes" = JObj ∅ /\
   get_prop typography "customFontSize" = JBool false) /\
  ("fontFamily" ∉ getSupportedStyles store blockName element ->
   get_prop typography "fontFamilies" = JObj ∅).
Proof.
  cbv zeta. unfold useSettingsForBlockElement. cbv zeta.
  destruct (filter_filtered parentSettings
              (getSupportedStyles store blockName element)
              (opt_get (getBlockType store blockName) "supports"))
    as (r & -> & Hr).
  split.
  - intros Hfont. destruct (filtered_fontSize _ _ _ Hr Hfont).
    split; by apply stored_read.
  - intros Hfont. by apply stored_read, (filtered_fontFamily _ _ _ Hr).
Qed.


Lemma spacing_prior upd (parentSettings : JsVal) (k : string) :
  digits_value 0 k = None -> k <> "length" ->
  entry upd "spacing" k = entry (spread parentSettings) "spacing" k ->
  opt_get (field upd "spacing") k
  = opt_get (opt_get parentSettings "spacing") k.
Proof.
  intros Hk Hlen Hentry. rewrite entry_read, Hentry by done.
  by rewrite <- entry_read, field_spread.
Qed.

(** A block that declares a spacing feature by a flag, or not at all,
    declares no sides for it. *)
Lemma declaredSides_flag (supports : JsVal) (key : string) :
  let declared := opt_get (opt_get supports "spacing") key in
  nullish declared = true \/ (exists b, declared = JBool b) ->
  truthy (opt_get (declaredSides supports key) "length") = false.
Proof.
  intros declared Hflag. unfold declaredSides. fold declared.
  destruct Hflag as [Hnull|[b ->]]; [|done].
  by destruct declared.
Qed.

(** X9.  For a spacing feature the block declares sides for (a non-empty
    list, given directly or under [sides]), the entry of the result is an
    object that carries these sides.  If the feature is supported the other
    properties of the entry are those of the parent settings' entry; if it
    is not, the entry is exactly [{ sides }]: the [false] stored by the
    support check is replaced. *)
Theorem spacing_sides_entry (store : BlocksStore)
  (parentSettings : JsVal) (blockName element : option string)
  (key : string) :
  let supportedStyles := getSupportedStyles store blockName element in
  let supports := opt_get (getBlockType store blockName) "supports" in
  key ∈ ["padding"; "margin"; "blockGap"] ->
  truthy (opt_get (declaredSides supports key) "length") = true ->
  get_prop
    (get_prop
       (useSettingsForBlockElement store parentSettings blockName element)
       "spacing") key
  = JObj (<["sides" := declaredSides supports key]>
            (if bool_decide (key ∈ supportedStyles)
             then spread (opt_get (opt_get parentSettings "spacing") key)
             else ∅)).
Proof.
  intros supportedStyles supports Hkey Hsides.
  unfold useSettingsForBlockElement, filterSettings. cbv zeta.
  fold supportedStyles supports. cbn [foldl].
  apply stored_read.
  cases_of Hkey; repeat later_step;
    rewrite spacingStep_sides by done;
    (match goal with
     | |- stored (assignField _ _ ?k (JObj (<[_ := _]> (spread ?prior))))
                 _ _ (JObj (<[_ := _]> ?inherited)) =>
         assert (spread prior = inherited) as ->; [|apply assignField_stores]
     end);
    (case_bool_decide; [|done]); f_equal; apply spacing_prior; try done;
    rewrite ?spacingStep_entry by (by right);
    apply entry_before_spacing.
Qed.

(** X10.  For a spacing feature the block declares no sides for (its
    [supports.spacing] entry is a flag or is missing, as for a block type
    that is not registered), the entry of the result is [false] when the
    feature is not supported and the entry of the parent settings when it
    is. *)
Theorem spacing_entry_without_sides (store : BlocksStore)
  (parentSettings : JsVal) (blockName element : option string)
  (key : string) :
  let supportedStyles := getSupportedStyles store blockName element in
  let declared :=
    opt_get (opt_get (opt_get (getBlockType store blockName) "supports")
                     "spacing") key in
  let result :=
    useSettingsForBlockElement store parentSettings blockName element in
  key ∈ ["padding"; "margin"; "blockGap"] ->
  nullish declared = true \/ (exists b, declared = JBool b) ->
  (key ∉ supportedStyles ->
   get_prop (get_prop result "spacing") key = JBool false) /\
  (key ∈ supportedStyles ->
   opt_get (get_prop result "spacing") key
   = opt_get (opt_get parentSettings "spacing") key).
Proof.
  intros supportedStyles declared result Hkey Hflag.
  apply declaredSides_flag in Hflag.
  subst result. unfold useSettingsForBlockElement. cbv zeta.
  fold supportedStyles.
  destruct (filter_filtered parentSettings supportedStyles
              (opt_get (getBlockType store blockName) "supports"))
    as (r & Hr & Hfiltered).
  rewrite Hr. split.
  - intros Hunsupported.
    by apply stored_read, (filtered_spacing _ _ _ Hfiltered).
  - intros Hsupported.
    change (get_prop (JObj r) "spacing") with (field r "spacing").
    assert (digits_value 0 key = None /\ key <> "length") as [Hdigits Hlen]
      by (cases_of Hkey; by split).
    apply spacing_prior; [done..|].
    apply (filter_entry_kept _ _ _ _ _ _ Hr); [|done].
    intros style Hstyle. unfold controlled in Hstyle.
    cases_of Hkey;
      repeat (apply elem_of_cons in Hstyle as [[= ->]|Hstyle]; try done);
      by apply elem_of_nil in Hstyle.
Qed.

(** X11.  Filtering is idempotent: running the hook on its own result, for
    the same block and element, gives that result again. *)
Theorem filter_idempotent (store : BlocksStore) (parentSettings : JsVal)
  (blockName element : option string) :
  useSettingsForBlockElement store
    (useSettingsForBlockElement store parentSettings blockName element)
    blockName element
  = useSettingsForBlockElement store parentSettings blockName element.
Proof.
  unfold useSettingsForBlockElement. cbv zeta.
  destruct (filter_filtered parentSettings
              (getSupportedStyles store blockName element)
              (opt_get (getBlockType store blockName) "supports"))
    as (r & -> & Hr).
  by apply filtered_fixed.
Qed.

Lemma disableUnless_same supported supported' (s k : string) upd :
  bool_decide (k ∈ supported) = bool_decide (k ∈ supported') ->
  disableUnless supported s upd k = disableUnless supported' s upd k.
Proof. intros H. unfold disableUnless. by rewrite H. Qed.

Lemma spacingStep_same supported supported' (supports supports' : JsVal)
  upd (k : string) :
  bool_decide (k ∈ supported) = bool_decide (k ∈ supported') ->
  declaredSides supports k = declaredSides supports' k ->
  spacingStep supported supports upd k
  = spacingStep supported' supports' upd k.
Proof.
  intros Hsup Hsides. unfold spacingStep. cbv zeta.
  by rewrite Hsides, (disableUnless_same supported supported').
Qed.

(** X27.  The filter looks at nothing but the support of the styles it
    asks about and the sides declared for the three spacing features: two
    blocks (or two registries) that agree on both get the same settings
    from the same parent settings.  The order of the supported styles,
    other styles in the list, other declarations of the block, and the
    form in which the sides are declared (an array, or an object with
    [sides]) make no difference. *)
Theorem filter_depends_on_support_and_sides (store store' : BlocksStore)
  (parentSettings : JsVal) (blockName element : option string)
  (blockName' element' : option string) :
  let supports := opt_get (getBlockType store blockName) "supports" in
  let supports' := opt_get (getBlockType store' blockName') "supports" in
  (forall style section key,
     (style, section, key) ∈ controlled ->
     style ∈ getSupportedStyles store blockName element <->
     style ∈ getSupportedStyles store' blockName' element') ->
  (forall key, key ∈ ["padding"; "margin"; "blockGap"] ->
     declaredSides supports key = declaredSides supports' key) ->
  useSettingsForBlockElement store parentSettings blockName element
  = useSettingsForBlockElement store' parentSettings blockName' element'.
Proof.
  intros supports supports' Hsup Hsides.
  unfold useSettingsForBlockElement, filterSettings. cbv zeta.
  fold supports supports'.
  set (supported := getSupportedStyles store blockName element) in *.
  set (supported' := getSupportedStyles store' blockName' element') in *.
  assert (Forall (fun entry => bool_decide (entry.1.1 ∈ supported)
                               = bool_decide (entry.1.1 ∈ supported'))
                 controlled) as Hall.
  { apply Forall_forall. intros [[style section] key] Hin.
    apply bool_decide_ext. by eapply Hsup. }
  unfold controlled in Hall.
  repeat (apply Forall_cons in Hall as [? Hall]). cbn [fst] in *.
  cbn [foldl].
  rewrite !(disableUnless_same supported supported') by assumption.
  rewrite !(spacingStep_same supported supported' supports supports')
    by first [ assumption | apply Hsides; set_solver ].
  repeat match goal with
         | H : bool_decide (_ ∈ supported) = _ |- _ => rewrite ?H; clear H
         end.
  reflexivity.
Qed.

End FilterResult.

(* ===================================================================== *)
(** ** What a write leaves alone                                          *)
(* ===================================================================== *)

Section Frame.
Import Paths.

(** Below [undefined] or [null] there is nothing to read. *)
Lemma baseGet_walk_nothing (x : JsVal) (path : list string) :
  nullish x = true -> path <> [] -> baseGet_walk x path = JUndefined.
Proof.
  intros Hnull Hne. destruct path as [|k rest]; [done|]. simpl.
  by rewrite Hnull.
Qed.

Lemma baseGet_walk_empty_object (path : list string) :
  path <> [] -> baseGet_walk (JObj ∅) path = JUndefined.
Proof.
  intros Hne. destruct path as [|k rest]; [done|]. simpl.
  rewrite lookup_empty. simpl. by destruct rest.
Qed.

Lemma parts_at_empty (pre : list string) : parts_at (JObj ∅) pre = true.
Proof. destruct pre; [done|]. simpl. by rewrite lookup_empty. Qed.

Lemma plain_keys_cons (a : string) (path : list string) :
  plain_keys (a :: path) = true ->
  unsafe_key a = false /\ isIndex a = false /\ plain_keys path = true.
Proof.
  unfold plain_keys. simpl. intros [Ha ->]%andb_true_iff.
  apply andb_true_iff in Ha as [?%negb_true_iff ?%negb_true_iff]. done.
Qed.

(** Two paths that part at a segment, at an object or below a link with
    nothing under it: a write at the one is not seen at the other. *)
Lemma baseSet_walk_frame (pre : list string) :
  forall (o o' : JsVal) (k k' : string) (r r' : list string) (v : JsVal),
    parts_at o pre = true -> plain_keys (pre ++ [k]) = true -> k <> k' ->
    baseSet_walk o (pre ++ k :: r) v = Returns o' ->
    baseGet_walk o' (pre ++ k' :: r') = baseGet_walk o (pre ++ k' :: r').
Proof.
  induction pre as [|a pre IH]; intros o o' k k' r r' v Hparts Hkeys Hne Hset.
  - destruct o as [| | | | | |n]; try done. simpl app in *.
    destruct (baseSet_walk_shape (k :: r) (JObj n) o' v Hset)
      as [->|(k0 & rest & x & [= <- <-] & _ & Ha)]; [done|].
    simpl in Ha. inversion Ha; subst o'. simpl.
    by rewrite lookup_insert_ne.
  - destruct o as [| | | | | |m]; try done.
    change ((a :: pre) ++ k :: r) with (a :: (pre ++ k :: r)) in Hset.
    change ((a :: pre) ++ k' :: r') with (a :: (pre ++ k' :: r')).
    change ((a :: pre) ++ [k]) with (a :: (pre ++ [k])) in Hkeys.
    apply plain_keys_cons in Hkeys as (Ha & _ & Hkeys).
    assert (exists next rest, pre ++ k :: r = next :: rest /\
                              isIndex next = false)
      as (next & rest & Htail & Hnext).
    { destruct pre as [|b pre']; cbn [app] in *.
      - exists k, r. split; [done|].
        by apply plain_keys_cons in Hkeys as (_ & ? & _).
      - exists b, (pre' ++ k :: r). split; [done|].
        by apply plain_keys_cons in Hkeys as (_ & ? & _). }
    rewrite Htail in Hset. rewrite baseSet_walk_step in Hset.
    rewrite <- Htail in Hset. clear Htail.
    rewrite Ha, Hnext in Hset.
    set (x := get_prop (JObj m) a) in *.
    set (newValue := if isObject x then x else JObj ∅) in *.
    destruct (baseSet_walk newValue (pre ++ k :: r) v) as [child|] eqn:Hchild;
      [|done].
    simpl in Hset. inversion Hset; subst o'. clear Hset.
    assert (parts_at newValue pre = true) as Hparts'.
    { unfold newValue. destruct (isObject x) eqn:Hobj;
        [|apply parts_at_empty].
      unfold x in *. simpl in Hparts, Hobj |- *.
      destruct (m !! a) as [y|]; simpl in *; [|done].
      by rewrite Hobj in Hparts. }
    pose proof (IH newValue child k k' r r' v Hparts' Hkeys Hne Hchild)
      as Hframe.
    simpl. rewrite lookup_insert_eq. simpl. rewrite Hframe.
    fold x. unfold newValue. destruct (isObject x) eqn:Hobj; [done|].
    assert (pre ++ k' :: r' <> []) as Hpath by (by destruct pre).
    rewrite baseGet_walk_empty_object by done.
    symmetry. apply baseGet_walk_nothing; [|done].
    unfold x in *. simpl in Hparts, Hobj |- *.
    destruct (m !! a) as [y|]; simpl in *; [|done].
    by rewrite Hobj in Hparts.
Qed.

(** The same for [get] and [set], whichever way they split the two
    paths. *)
Lemma get_set_frame (c : gmap string JsVal) (o' : JsVal) (p q : string)
  (v : JsVal) (pre : list string) (k k' : string) (r r' : list string) :
  stringToPath p = pre ++ k :: r -> stringToPath q = pre ++ k' :: r' ->
  k <> k' -> plain_keys (pre ++ [k]) = true ->
  parts_at (JObj c) pre = true ->
  set (JObj c) p v = Returns o' -> get o' q = get (JObj c) q.
Proof.
  intros Hp Hq Hne Hnamed Hparts Hset.
  assert (p <> q) as Hpq.
  { intros ->. rewrite Hp in Hq. apply app_inv_head in Hq. congruence. }
  unfold set in Hset. simpl isObject in Hset. cbv iota in Hset.
  destruct (baseSet_walk_shape _ _ _ _ Hset)
    as [->|(k0 & rest & x & Hsegs & _ & Ha)]; [done|].
  simpl in Ha. inversion Ha; subst o'. clear Ha.
  assert (q <> k0) as Hqk0.
  { unfold castPath in Hsegs. destruct (has_prop (JObj c) p).
    - inversion Hsegs. by subst.
    - rewrite Hp in Hsegs. intros ->.
      assert (stringToPath k0 = [k0]) as Hone.
      { apply (segments_single p). rewrite Hp, Hsegs. by left. }
      rewrite Hone in Hq.
      destruct pre as [|a [|b pre]]; simpl in *; try done.
      inversion Hq; inversion Hsegs; congruence. }
  unfold get. simpl nullish. cbv iota.
  assert (castPath q (JObj (<[k0 := x]> c)) = castPath q (JObj c)) as ->.
  { unfold castPath. simpl. by rewrite lookup_insert_ne. }
  assert (pre ++ k' :: r' <> []) as Hqne by (by destruct pre).
  unfold castPath at 1 2. destruct (has_prop (JObj c) q) eqn:Hqlit.
  { simpl. by rewrite lookup_insert_ne. }
  rewrite Hq. unfold baseGet.
  destruct (pre ++ k' :: r') as [|q1 qs] eqn:Hqs; [done|]. rewrite <- Hqs.
  unfold castPath in Hsegs, Hset.
  destruct (has_prop (JObj c) p) eqn:Hplit.
  - inversion Hsegs; subst k0 rest. rewrite Hqs. simpl.
    rewrite lookup_insert_ne; [done|]. intros <-.
    assert (stringToPath p = [p]) as Hone.
    { apply (segments_single q). rewrite Hq. by left. }
    rewrite Hone in Hp.
    destruct pre as [|a [|b pre]]; simpl in *; try done.
    inversion Hp; inversion Hqs; congruence.
  - rewrite Hp in Hset.
    by apply (baseSet_walk_frame pre (JObj c) _ k k' r r' v).
Qed.

End Frame.

(* ===================================================================== *)
(** ** The paths of the two accessors, by segment                         *)
(* ===================================================================== *)

Lemma append_empty (s : string) : s +:+ "" = s.
Proof. induction s as [|a s IH]; [done|]. by rewrite append_cons, IH. Qed.

(** The segments of an optional argument, none when it is not given. *)
Lemma scope_segments (head : string) (B P : option string) :
  stringToPath head = [head] ->
  stringToPath
    (head +:+ (if given B then ".blocks." +:+ text B else "")
          +:+ (if given P then "." +:+ text P else ""))
  = head :: (if given B then "blocks" :: stringToPath (text B) else [])
         ++ (if given P then stringToPath (text P) else []).
Proof.
  intros Hhead.
  destruct (given B), (given P).
  - change ".blocks." with ("." +:+ "blocks" +:+ ".").
    rewrite !append_assoc. by rewrite !stringToPath_app, Hhead.
  - change ".blocks." with ("." +:+ "blocks" +:+ ".").
    rewrite append_empty, !append_assoc.
    by rewrite !stringToPath_app, Hhead, app_nil_r.
  - rewrite append_nil. by rewrite stringToPath_app, Hhead.
  - by rewrite !append_empty.
Qed.

Lemma contextualPath_segments (P B : option string) :
  stringToPath (contextualPath P B)
  = "settings" :: (if given B then "blocks" :: stringToPath (text B) else [])
               ++ (if given P then stringToPath (text P) else []).
Proof. by apply (scope_segments "settings"). Qed.

Lemma finalPath_segments (path B : option string) :
  stringToPath (finalPath path B)
  = "styles" :: (if given B then "blocks" :: stringToPath (text B) else [])
             ++ (if given path then stringToPath (text path) else []).
Proof.
  unfold finalPath, appendedPath.
  destruct (given B) eqn:HB; simpl negb; cbv iota.
  - change "styles.blocks." with ("styles" +:+ ".blocks.").
    rewrite append_assoc.
    pose proof (scope_segments "styles" B path eq_refl) as H.
    by rewrite HB in H.
  - pose proof (scope_segments "styles" B path eq_refl) as H.
    rewrite HB, append_nil in H. exact H.
Qed.

Lemma bulk_block_segments (B : option string) (setting : string) :
  stringToPath ("settings" +:+ appendedBlockPath B +:+ "." +:+ setting)
  = "settings" :: (if given B then "blocks" :: stringToPath (text B) else [])
               ++ stringToPath setting.
Proof.
  unfold appendedBlockPath. destruct (given B).
  - change ".blocks." with ("." +:+ "blocks" +:+ ".").
    rewrite !append_assoc. by rewrite !stringToPath_app.
  - rewrite append_nil. by rewrite stringToPath_app.
Qed.

Lemma bulk_global_segments (setting : string) :
  stringToPath ("settings." +:+ setting) = "settings" :: stringToPath setting.
Proof.
  change "settings." with ("settings" +:+ ".").
  by rewrite append_assoc, stringToPath_app.
Qed.

(* ===================================================================== *)
(** ** Reads after a write                                                *)
(* ===================================================================== *)

Section WritesAndReads.
Import Paths.

Variable getValueFromVariable :
  JsVal -> option string -> JsVal -> Completion JsVal.
Variable getPresetVariableFromValue :
  JsVal -> option string -> option string -> JsVal -> Completion JsVal.

(** What the style updater hands to [set]. *)
Lemma setStyle_object (path B : option string) (decode : bool)
  (configs : gmap string JsVal) (newValue new : JsVal)
  (m : gmap string JsVal) :
  setStyle getPresetVariableFromValue path B decode configs newValue (JObj m)
    = Returns new ->
  exists stored,
    set (JObj (omap json_value m)) (finalPath path B) stored = Returns new /\
    (decode = false -> stored = newValue) /\
    (decode = true ->
     nullish (field configs "merged") = false /\
     getPresetVariableFromValue (get_prop (field configs "merged") "settings")
                                B path newValue = Returns stored).
Proof.
  unfold setStyle. cbv zeta.
  change (json_clone (JObj m)) with (Returns (JObj (omap json_value m))).
  destruct decode.
  - destruct (nullish (field configs "merged")) eqn:Hmerged; [done|].
    destruct (getPresetVariableFromValue _ B path newValue) as [stored|]
      eqn:Hstored; [|done].
    intros Hset. exists stored. split_and!; [done..|]. by intros _.
  - intros Hset. exists newValue. by split_and!.
Qed.

Lemma set_returns_object (c : gmap string JsVal) (p : string)
  (v new : JsVal) :
  set (JObj c) p v = Returns new -> exists c', new = JObj c'.
Proof.
  intros Hset. unfold set in Hset. simpl isObject in Hset. cbv iota in Hset.
  destruct (baseSet_walk_shape _ _ _ _ Hset)
    as [->|(k & rest & x & _ & _ & Ha)]; [by eexists|].
  simpl in Ha. inversion Ha. by eexists.
Qed.

(** A write under one top-level name is not seen under another. *)
Lemma set_other_half (c : gmap string JsVal) (p q : string) (v new : JsVal)
  (a b : string) (r r' : list string) :
  stringToPath p = a :: r -> stringToPath q = b :: r' -> a <> b ->
  isIndex a = false -> unsafe_key a = false ->
  set (JObj c) p v = Returns new -> get new q = get (JObj c) q.
Proof.
  intros Hp Hq Hne Ha Hsafe Hset. revert Hsafe.
  intros Hsafe.
  apply (get_set_frame c new p q v [] a b r r'); try done.
  by apply plain_keys_intro.
Qed.

(** The setting accessor reads its view at paths under [settings] only. *)
Lemma collectSetting_reads (B : option string) (v1 v2 : JsVal)
  (settings : list string) (acc : Completion JsVal) :
  (forall q rest, stringToPath q = "settings" :: rest ->
                  get v1 q = get v2 q) ->
  foldl (collectSetting v1 B) acc settings
  = foldl (collectSetting v2 B) acc settings.
Proof.
  intros Hget. revert acc.
  induction settings as [|s l IH]; intros acc; [done|].
  cbn [foldl]. rewrite <- IH. f_equal.
  unfold collectSetting, collect, resolveSetting.
  by rewrite (Hget _ _ (bulk_block_segments B s)),
    (Hget _ _ (bulk_global_segments s)).
Qed.

Lemma settingValue_reads (P B : option string) (source : string)
  (configs : gmap string JsVal) (v1 v2 : JsVal) :
  truthy v1 = truthy v2 ->
  (forall q rest, stringToPath q = "settings" :: rest ->
                  get v1 q = get v2 q) ->
  settingValue P B source (<["user" := v1]> configs)
  = settingValue P B source (<["user" := v2]> configs).
Proof.
  intros Htruthy Hget. unfold settingValue. cbv zeta.
  destruct (decide (sourceKey source = "user")) as [->|Hother].
  - unfold bundle_member. rewrite !lookup_insert_eq.
    rewrite Htruthy. destruct (truthy v2); [|done]. cbn [negb].
    destruct (given P).
    + by rewrite (Hget _ _ (contextualPath_segments P B)),
        (Hget (globalPath P) _ (contextualPath_segments P None)).
    + by apply collectSetting_reads.
  - unfold bundle_member. by rewrite !lookup_insert_ne.
Qed.

(** The style accessor reads the user view at paths under [styles] only. *)
Lemma styleValue_reads (path B : option string) (source : string)
  (decode : bool) (configs : gmap string JsVal) (v1 v2 : JsVal) :
  (forall q rest, stringToPath q = "styles" :: rest ->
                  get v1 q = get v2 q) ->
  styleValue getValueFromVariable path B source decode
             (<["user" := v1]> configs)
  = styleValue getValueFromVariable path B source decode
               (<["user" := v2]> configs).
Proof.
  intros Hget. unfold styleValue, rawResult. cbv zeta.
  unfold field. rewrite !lookup_insert_eq.
  rewrite !(lookup_insert_ne _ "user" "merged"),
    !(lookup_insert_ne _ "user" "base") by done.
  cbn [default from_option id].
  by rewrite (Hget _ _ (finalPath_segments path B)).
Qed.

(** X12.  A setting write changes no style.  For a user configuration that
    is a mapping, whatever [setSetting] is asked to write and wherever:
    every style read, for every path, block, source and decoding mode, gives
    the same from a bundle whose user configuration is the outcome of the
    update as from one whose user configuration is the plain JSON copy. *)
Theorem setSetting_keeps_styles (P B : option string) (newValue new : JsVal)
  (m : gmap string JsVal) :
  setSetting P B newValue (JObj m) = Returns new ->
  forall configs path B' source decode,
    styleValue getValueFromVariable path B' source decode
               (<["user" := new]> configs)
    = styleValue getValueFromVariable path B' source decode
                 (<["user" := JObj (omap json_value m)]> configs).
Proof.
  rewrite setSetting_object. intros Hset configs path B' source decode.
  apply styleValue_reads. intros q rest Hq.
  eapply (set_other_half _ _ q _ _ "settings" "styles");
    [apply contextualPath_segments | exact Hq | done | done | done
    | exact Hset].
Qed.

(** X13.  A style write changes no setting.  For a user configuration that
    is a mapping, whatever [setStyle] is asked to write and wherever, with
    or without encoding: every setting read, for a path or in bulk, for
    every block and source, gives the same from a bundle whose user
    configuration is the outcome of the update as from one whose user
    configuration is the plain JSON copy. *)
Theorem setStyle_keeps_settings (path B : option string) (decode : bool)
  (bundle : gmap string JsVal) (newValue new : JsVal)
  (m : gmap string JsVal) :
  setStyle getPresetVariableFromValue path B decode bundle newValue (JObj m)
    = Returns new ->
  forall configs P B' source,
    settingValue P B' source (<["user" := new]> configs)
    = settingValue P B' source
                   (<["user" := JObj (omap json_value m)]> configs).
Proof.
  intros Hset configs P B' source.
  destruct (setStyle_object _ _ _ _ _ _ _ Hset) as (stored & Hstored & _).
  destruct (set_returns_object _ _ _ _ Hstored) as (c' & ->).
  apply settingValue_reads; [done|]. intros q rest Hq.
  eapply (set_other_half _ _ q _ _ "styles" "settings");
    [apply finalPath_segments | exact Hq | done | done | done
    | exact Hstored].
Qed.

(** *** Writes for one block, reads for another *)

Lemma parts_at_prefix (pre suffix : list string) :
  forall o, parts_at o (pre ++ suffix) = true -> parts_at o pre = true.
Proof.
  induction pre as [|a pre IH]; intros o Hparts.
  - by destruct o, suffix.
  - destruct o as [| | | | | |m]; try done. simpl in *.
    destruct (m !! a) as [x|]; [|done].
    destruct (isObject x); [by apply IH | done].
Qed.

Lemma settingValue_user (P B : option string) (configs : gmap string JsVal)
  (view : JsVal) :
  truthy view = true -> given P = true ->
  settingValue P B "user" (<["user" := view]> configs)
  = Returns (coalesce (get view (contextualPath P B))
                      (get view (globalPath P))).
Proof.
  intros Hview HP. unfold settingValue. cbv zeta.
  change (sourceKey "user") with "user".
  unfold bundle_member. rewrite lookup_insert_eq.
  by rewrite Hview, HP.
Qed.

Lemma styleValue_user (path B : option string) (decode : bool)
  (configs : gmap string JsVal) (view : JsVal) :
  styleValue getValueFromVariable path B "user" decode
             (<["user" := view]> configs)
  = if decode
    then getValueFromVariable (field configs "merged") B
           (get view (finalPath path B))
    else Returns (get view (finalPath path B)).
Proof.
  unfold styleValue, rawResult. cbv zeta. unfold field.
  rewrite lookup_insert_eq, (lookup_insert_ne _ "user" "merged") by done.
  reflexivity.
Qed.

(** X14.  A setting written for one block is not seen by another.  For a
    user configuration that is a mapping in whose copy [settings.blocks] is
    an object or holds nothing, and block names [b] and [b'] that are plain
    names (one segment, no bracket, not a number, not a name every object
    inherits) and differ: after [setSetting] has written for [b], whatever
    the path and the value, the accessor for [b'] and a path [P'] of plain
    names (not one that starts at [blocks]) reads from the user view what
    it reads from the plain copy, block value and global fallback alike. *)
Theorem setSetting_other_block (P : option string) (b b' P' : string)
  (newValue new : JsVal) (m : gmap string JsVal)
  (configs : gmap string JsVal) :
  let copy := JObj (omap json_value m) in
  b <> "" -> b' <> "" -> b <> b' ->
  stringToPath b = [b] -> stringToPath b' = [b'] ->
  plain_path b = true -> plain_path b' = true ->
  P' <> "" -> plain_path P' = true ->
  head (stringToPath P') <> Some "blocks" ->
  parts_at copy ["settings"; "blocks"] = true ->
  setSetting P (Some b) newValue (JObj m) = Returns new ->
  get new (contextualPath (Some P') (Some b'))
    = get copy (contextualPath (Some P') (Some b')) /\
  get new (globalPath (Some P')) = get copy (globalPath (Some P')) /\
  settingValue (Some P') (Some b') "user" (<["user" := new]> configs)
    = settingValue (Some P') (Some b') "user" (<["user" := copy]> configs).
Proof.
  intros copy Hb Hb' Hne Hseg Hseg' Hplain _ HP' _ Hhead Hparts.
  rewrite setSetting_object. fold copy. intros Hset.
  apply plain_path_segments in Hplain. rewrite Hseg in Hplain.
  pose proof (contextualPath_segments P (Some b)) as Hwrite.
  rewrite (given_Some b Hb) in Hwrite. simpl text in Hwrite.
  rewrite Hseg in Hwrite.
  pose proof (contextualPath_segments (Some P') (Some b')) as Hblock.
  rewrite (given_Some b' Hb'), (given_Some P' HP') in Hblock.
  simpl text in Hblock. rewrite Hseg' in Hblock.
  pose proof (contextualPath_segments (Some P') None) as Hglobal.
  rewrite (given_Some P' HP') in Hglobal. simpl in Hglobal.
  pose proof (stringToPath_nonempty P') as HP'ne.
  destruct (stringToPath P') as [|k' r'] eqn:HsegP'; [done|].
  assert (get new (contextualPath (Some P') (Some b'))
          = get copy (contextualPath (Some P') (Some b'))) as Hget1.
  { eapply (get_set_frame _ new _ _ newValue ["settings"; "blocks"] b b');
      [exact Hwrite | exact Hblock | done | | exact Hparts | exact Hset].
    by do 2 (apply plain_keys_intro; [done..|]). }
  assert (get new (globalPath (Some P')) = get copy (globalPath (Some P')))
    as Hget2.
  { eapply (get_set_frame _ new _ _ newValue ["settings"] "blocks" k');
      [exact Hwrite | exact Hglobal | | done | | exact Hset].
    - intros <-. by apply Hhead.
    - by apply (parts_at_prefix ["settings"] ["blocks"]). }
  split_and!; [done..|].
  destruct (set_returns_object _ _ _ _ Hset) as (c' & Hnew).
  rewrite !settingValue_user; [|done|by apply given_Some|by rewrite Hnew
                               |by apply given_Some].
  by rewrite Hget1, Hget2.
Qed.

(** X15.  A style written for one block is seen neither by another block
    nor at the root.  For a user configuration that is a mapping in whose
    copy [styles.blocks] is an object or holds nothing: after [setStyle] has
    written for the block [b], reads from the user view for another block
    [b'] (plain names that differ: one segment, no bracket, not a number,
    not a name every object inherits), at any path, and reads without a
    block name at a path of plain names that does not start at [blocks],
    give what they give from the plain copy. *)
Theorem setStyle_other_block (path : option string) (b : string)
  (encode : bool) (bundle : gmap string JsVal) (newValue new : JsVal)
  (m : gmap string JsVal) (configs : gmap string JsVal) :
  let copy := JObj (omap json_value m) in
  b <> "" -> stringToPath b = [b] -> plain_path b = true ->
  parts_at copy ["styles"; "blocks"] = true ->
  setStyle getPresetVariableFromValue path (Some b) encode bundle newValue
           (JObj m) = Returns new ->
  (forall b' path' decode,
     b' <> "" -> b <> b' -> stringToPath b' = [b'] -> plain_path b' = true ->
     styleValue getValueFromVariable path' (Some b') "user" decode
                (<["user" := new]> configs)
     = styleValue getValueFromVariable path' (Some b') "user" decode
                  (<["user" := copy]> configs)) /\
  (forall path' decode,
     path' <> "" -> plain_path path' = true ->
     head (stringToPath path') <> Some "blocks" ->
     styleValue getValueFromVariable (Some path') None "user" decode
                (<["user" := new]> configs)
     = styleValue getValueFromVariable (Some path') None "user" decode
                  (<["user" := copy]> configs)).
Proof.
  intros copy Hb Hseg Hplain Hparts Hstyle.
  destruct (setStyle_object _ _ _ _ _ _ _ Hstyle) as (stored & Hset & _).
  fold copy in Hset.
  apply plain_path_segments in Hplain. rewrite Hseg in Hplain.
  pose proof (finalPath_segments path (Some b)) as Hwrite.
  rewrite (given_Some b Hb) in Hwrite. simpl text in Hwrite.
  rewrite Hseg in Hwrite.
  split.
  - intros b' path' decode Hb' Hne Hseg' _.
    pose proof (finalPath_segments path' (Some b')) as Hread.
    rewrite (given_Some b' Hb') in Hread. simpl text in Hread.
    rewrite Hseg' in Hread.
    rewrite !styleValue_user.
    assert (get new (finalPath path' (Some b'))
            = get copy (finalPath path' (Some b'))) as ->; [|done].
    eapply (get_set_frame _ new _ _ stored ["styles"; "blocks"] b b');
      [exact Hwrite | exact Hread | done | | exact Hparts | exact Hset].
    by do 2 (apply plain_keys_intro; [done..|]).
  - intros path' decode Hpath' _ Hhead.
    pose proof (finalPath_segments (Some path') None) as Hread.
    rewrite (given_Some path' Hpath') in Hread. simpl in Hread.
    pose proof (stringToPath_nonempty path') as Hne.
    destruct (stringToPath path') as [|k' r'] eqn:Hsegs; [done|].
    rewrite !styleValue_user.
    assert (get new (finalPath (Some path') None)
            = get copy (finalPath (Some path') None)) as ->; [|done].
    eapply (get_set_frame _ new _ _ stored ["styles"] "blocks" k');
      [exact Hwrite | exact Hread | | done | | exact Hset].
    + intros <-. by apply Hhead.
    + by apply (parts_at_prefix ["styles"] ["blocks"]).
Qed.

(** *** A value written, then read *)

(** X16.  What [setSetting] wrote is what the accessor reads back from the
    user view, for the same path and block, when the path is one [set]
    writes at (no bracket, no segment that is [prototype] or a name every
    object inherits, such as [constructor], [__proto__] or [toString]):
    the new value itself when it is neither [undefined] nor
    [null], or when no block name is given.  Writing [undefined] or [null]
    for a block does not hide the setting: the accessor then falls back to
    the value at [settings.P] of the new configuration.  When the segments
    are plain names and the copy has mappings along them, the update
    returns. *)
Theorem setting_written_then_read (P : string) (B : option string)
  (newValue : JsVal) (m configs : gmap string JsVal) :
  P <> "" ->
  writable (contextualPath (Some P) B) = true ->
  let copy := JObj (omap json_value m) in
  (forall new,
     setSetting (Some P) B newValue (JObj m) = Returns new ->
     let read :=
       settingValue (Some P) B "user" (<["user" := new]> configs) in
     (nullish newValue = false \/ given B = false ->
      read = Returns newValue) /\
     (nullish newValue = true ->
      read = Returns (get new ("settings." +:+ P)))) /\
  (plain_path (contextualPath (Some P) B) = true ->
   objects_along copy (castPath (contextualPath (Some P) B) copy) = true ->
   exists new, setSetting (Some P) B newValue (JObj m) = Returns new).
Proof.
  intros HP Hpath copy. split.
  - intros new Hset read.
    rewrite setSetting_object in Hset.
    pose proof (get_set (JObj (omap json_value m)) _ _ _ eq_refl
                  (writable_accepted _ _ Hpath) Hset) as Hget.
    destruct (set_returns_object _ _ _ _ Hset) as (c' & Hnew).
    assert (read = Returns (coalesce newValue (get new ("settings." +:+ P))))
      as Hread.
    { unfold read. rewrite settingValue_user;
        [|by rewrite Hnew|by apply given_Some].
      by rewrite Hget, globalPath_given. }
    rewrite Hread. unfold coalesce. split.
    + intros [->|HB]; [done|].
      rewrite contextualPath_global in Hget by done. rewrite Hget.
      by destruct (nullish newValue).
    + by intros ->.
  - intros Hplain Halong. apply setSetting_returns; [|done].
    by apply plain_path_plain_keys.
Qed.

(** X17.  What [setStyle] wrote is what the accessor reads back from the
    user view, for the same path and block, when the resolved path is one
    [set] writes at (no bracket, no segment that is [prototype] or a name
    every object inherits, such as [constructor], [__proto__] or
    [toString]).  Without encoding and decoding it is the
    new value.  With them, the value stored is the one the encoder
    returned, and the accessor returns the new value whenever the decoder,
    with the merged view of the reading bundle, takes that stored value
    back to it. *)
Theorem style_written_then_read (path B : option string) (encode : bool)
  (bundle configs : gmap string JsVal) (newValue new : JsVal)
  (m : gmap string JsVal) :
  writable (finalPath path B) = true ->
  setStyle getPresetVariableFromValue path B encode bundle newValue (JObj m)
    = Returns new ->
  (encode = false ->
   styleValue getValueFromVariable path B "user" false
              (<["user" := new]> configs) = Returns newValue) /\
  (encode = true ->
   exists stored,
     getPresetVariableFromValue
       (get_prop (field bundle "merged") "settings") B path newValue
       = Returns stored /\
     styleValue getValueFromVariable path B "user" false
                (<["user" := new]> configs) = Returns stored /\
     (getValueFromVariable (field configs "merged") B stored
        = Returns newValue ->
      styleValue getValueFromVariable path B "user" true
                 (<["user" := new]> configs) = Returns newValue)).
Proof.
  intros Hpath Hstyle.
  destruct (setStyle_object _ _ _ _ _ _ _ Hstyle)
    as (stored & Hset & Hplain & Hencoded).
  pose proof (get_set (JObj (omap json_value m)) _ _ _ eq_refl
                (writable_accepted _ _ Hpath) Hset) as Hget.
  rewrite !styleValue_user, Hget. split.
  - intros Hoff. by rewrite (Hplain Hoff).
  - intros Hon. destruct (Hencoded Hon) as [_ Hstored].
    exists stored. by split_and!.
Qed.

(** *** A configuration that is not an object *)

(** X18.  On a user configuration that is not there the updaters fail or
    do nothing.  For [undefined] both throw a [SyntaxError] (there is no
    JSON text to parse); for [null], a boolean, a number or a string they
    return the configuration as it is, and the new value is stored
    nowhere. *)
Theorem updaters_without_configuration (P B path B' : option string)
  (bundle : gmap string JsVal) (newValue : JsVal) :
  setSetting P B newValue JUndefined = Throws SyntaxError /\
  (forall encode,
     setStyle getPresetVariableFromValue path B' encode bundle newValue
              JUndefined = Throws SyntaxError) /\
  (forall currentConfig,
     isObject currentConfig = false -> currentConfig <> JUndefined ->
     setSetting P B newValue currentConfig = Returns currentConfig /\
     setStyle getPresetVariableFromValue path B' false bundle newValue
              currentConfig = Returns currentConfig).
Proof.
  split_and!; [done..|].
  intros currentConfig Hobj Hthere. by destruct currentConfig.
Qed.

(** *** Writes and the reset capability *)





End WritesAndReads.

(* ===================================================================== *)
(** ** Bulk mode and single paths                                         *)
(* ===================================================================== *)

Lemma VALID_SETTINGS_given (setting : string) :
  setting ∈ VALID_SETTINGS -> given (Some setting) = true.
Proof.
  intros Hin.
  assert (forallb (fun s => given (Some s)) VALID_SETTINGS = true) as Hall
    by (by vm_compute).
  rewrite forallb_forall in Hall. apply Hall.
  by apply list_elem_of_In.
Qed.

(** X20.  Bulk mode agrees with the accessor for a single path: for every
    path of the allow list, what the object returned without a path holds
    there is what the accessor returns for that path, same block and same
    source, when that value is truthy, and nothing when it is falsy (a
    setting that is [false], [0] or the empty string is left out of the
    bulk result). *)
Theorem bulk_agrees_with_single (B : option string) (source : string)
  (configs : gmap string JsVal) (setting : string) :
  truthy (field configs (sourceKey source)) = true ->
  setting ∈ VALID_SETTINGS ->
  exists (r : gmap string JsVal) (single : JsVal),
    settingValue None B source configs = Returns (JObj r) /\
    settingValue (Some setting) B source configs = Returns single /\
    get (JObj r) setting = if truthy single then single else JUndefined.
Proof.
  intros Hview Hsetting.
  pose proof (bundle_member_field _ _ Hview) as Hmember.
  destruct (settingValue_bulk None B source configs eq_refl)
    as (r & Hr & Hcollected); [by rewrite Hmember|].
  rewrite Hmember in Hcollected.
  exists r, (resolveSetting (field configs (sourceKey source)) B setting).
  split_and!; [done| |].
  - unfold settingValue. cbv zeta. rewrite Hmember, Hview. cbn [negb].
    rewrite (VALID_SETTINGS_given _ Hsetting).
    unfold resolveSetting, contextualPath, globalPath, appendedPropertyPath.
    by rewrite (VALID_SETTINGS_given _ Hsetting).
  - by apply (collected_get _ _ _ _ shape_VALID_SETTINGS Hcollected).
Qed.

(* ===================================================================== *)
(** ** Configurations that are plain JSON                                 *)
(* ===================================================================== *)

(** A copy made by [JSON.parse( JSON.stringify( v ) )] is its own copy. *)
Lemma json_value_idem (v : JsVal) :
  forall c, json_value v = Some c -> json_value c = Some c.
Proof.
  induction v as [| | b | n | s | l IH | m IH] using JsVal_rect_nested;
    intros c; simpl; intros [= <-]; try done.
  - simpl. do 2 f_equal. rewrite <- list_fmap_compose.
    apply Forall_fmap_ext_1. eapply Forall_impl; [exact IH|].
    intros x Hx. simpl.
    destruct (json_value x) as [cx|] eqn:Hcx; simpl; [|done].
    by rewrite (Hx cx).
  - simpl. do 2 f_equal. apply map_eq. intros k.
    rewrite !lookup_omap.
    destruct (m !! k) as [x|] eqn:Hk; simpl; [|done].
    destruct (json_value x) as [cx|] eqn:Hcx; simpl; [|done].
    by apply (IH k x Hk).
Qed.

Lemma json_object_entry (m : gmap string JsVal) (k : string) (x : JsVal) :
  json_value (JObj m) = Some (JObj m) -> m !! k = Some x ->
  json_value x = Some x.
Proof.
  simpl. intros [= Hm] Hk.
  assert (omap json_value m !! k = Some x) as Hcopy by (by rewrite Hm).
  rewrite lookup_omap, Hk in Hcopy. exact Hcopy.
Qed.

Lemma json_object_insert (m : gmap string JsVal) (k : string) (x : JsVal) :
  json_value (JObj m) = Some (JObj m) -> json_value x = Some x ->
  json_value (JObj (<[k := x]> m)) = Some (JObj (<[k := x]> m)).
Proof.
  simpl. intros [= Hm] Hx. do 2 f_equal.
  by rewrite (omap_insert_Some _ _ _ _ x), Hm.
Qed.

Section PlainJson.
Import Paths.

Lemma named_not_array_index (k : string) :
  isIndex k = false -> array_index k = None.
Proof.
  unfold isIndex, array_index.
  destruct (canonical_uint k) as [n|]; [|done].
  intros Hn%N.ltb_ge. rewrite (proj2 (N.ltb_ge _ _)); [done|lia].
Qed.

Lemma assignValue_json (o o' : JsVal) (k : string) (x : JsVal) :
  json_value o = Some o -> json_value x = Some x -> isIndex k = false ->
  assignValue o k x = Returns o' -> json_value o' = Some o'.
Proof.
  intros Ho Hx Hk Ha. destruct o as [| | | | | l | m]; try done.
  - simpl in Ha. rewrite (named_not_array_index k Hk) in Ha.
    destruct x; try done. case_bool_decide; [|done]. by inversion Ha; subst.
  - simpl in Ha. inversion Ha; subst o'. by apply json_object_insert.
Qed.

Lemma get_prop_json (o : JsVal) (k : string) :
  json_value o = Some o -> isObject (get_prop o k) = true ->
  json_value (get_prop o k) = Some (get_prop o k).
Proof.
  intros Ho Hobj. destruct o as [| | | | s | l | m]; try done.
  - simpl in *. destruct (array_index k); [|by case_decide].
    by destruct (String.get _ s).
  - simpl in *. destruct (array_index k) as [i|]; [|by case_decide].
    destruct (l !! i) as [x|] eqn:Hi; [|done]. simpl in *.
    inversion Ho as [Hl].
    assert (((fun y => default JNull (json_value y)) <$> l) !! i = Some x)
      as Hcopy by (by rewrite Hl).
    rewrite list_lookup_fmap, Hi in Hcopy. simpl in Hcopy.
    inversion Hcopy as [Hx]. rewrite Hx.
    destruct (json_value x) as [cx|] eqn:Hcx; simpl in *; [by subst|].
    by subst x.
  - simpl in *. destruct (m !! k) as [x|] eqn:Hk; [|done].
    by apply (json_object_entry m k).
Qed.

(** A write of plain JSON into plain JSON, at a path without indices,
    gives plain JSON. *)
Lemma baseSet_walk_json (path : list string) :
  forall (o o' v : JsVal),
    json_value o = Some o -> json_value v = Some v -> named path = true ->
    baseSet_walk o path v = Returns o' -> json_value o' = Some o'.
Proof.
  induction path as [|k rest IH]; intros o o' v Ho Hv Hnamed Hset.
  - simpl in Hset. by inversion Hset; subst.
  - simpl in Hnamed. apply andb_true_iff in Hnamed as [Hk%negb_true_iff Hrest].
    destruct rest as [|next rest'].
    + simpl in Hset. destruct (unsafe_key k); [by inversion Hset; subst|].
      by apply (assignValue_json o o' k v).
    + rewrite baseSet_walk_step in Hset.
      destruct (unsafe_key k); [by inversion Hset; subst|].
      assert (isIndex next = false) as Hnext.
      { simpl in Hrest. apply andb_true_iff in Hrest as [H _].
        by apply negb_true_iff. }
      rewrite Hnext in Hset.
      destruct (baseSet_walk _ (next :: rest') v) as [child|] eqn:Hchild;
        [|done].
      simpl in Hset.
      apply (assignValue_json o o' k child); [done| |done..].
      eapply (IH _ child v); [|done|done|exact Hchild].
      destruct (isObject (get_prop o k)) eqn:Hobj; [|done].
      by apply get_prop_json.
Qed.

Lemma set_json (c : gmap string JsVal) (p : string) (v new : JsVal) :
  json_value (JObj c) = Some (JObj c) -> json_value v = Some v ->
  named (stringToPath p) = true ->
  set (JObj c) p v = Returns new -> json_value new = Some new.
Proof.
  intros Hc Hv Hnamed Hset. unfold set in Hset. simpl isObject in Hset.
  cbv iota in Hset. unfold castPath in Hset.
  destruct (has_prop (JObj c) p).
  - simpl in Hset. destruct (unsafe_key p); [by inversion Hset; subst|].
    inversion Hset; subst new. by apply json_object_insert.
  - by apply (baseSet_walk_json (stringToPath p) (JObj c) new v).
Qed.

(** *** Writes under different top-level names *)

(** What [set] does to an object, by the first segment. *)
Lemma set_object_form (c : gmap string JsVal) (p : string) (v : JsVal) :
  set (JObj c) p v
  = match castPath p (JObj c) with
    | [] => Returns (JObj c)
    | k :: rest =>
        if unsafe_key k then Returns (JObj c)
        else
          x ← match rest with
              | [] => Returns v
              | next :: _ =>
                  baseSet_walk
                    (if isObject (default JUndefined (c !! k))
                     then default JUndefined (c !! k)
                     else if isIndex next then JArr [] else JObj ∅)
                    rest v
              end;
          Returns (JObj (<[k := x]> c))
    end.
Proof.
  unfold set. simpl isObject. cbv iota.
  destruct (castPath p (JObj c)) as [|k [|next rest]]; [done| |].
  - simpl. by destruct (unsafe_key k).
  - rewrite baseSet_walk_step. destruct (unsafe_key k); [done|].
    simpl get_prop. by destruct (baseSet_walk _ (next :: rest) v).
Qed.

(** An entry under another name does not change what [set] does. *)
Lemma set_beside (c : gmap string JsVal) (p : string) (v : JsVal)
  (k1 : string) (x1 : JsVal) :
  p <> k1 -> head (stringToPath p) <> Some k1 ->
  set (JObj (<[k1 := x1]> c)) p v
  = new ← set (JObj c) p v;
    match new with
    | JObj n => Returns (JObj (<[k1 := x1]> n))
    | _ => Returns new
    end.
Proof.
  intros Hp Hhead. rewrite !set_object_form.
  assert (castPath p (JObj (<[k1 := x1]> c)) = castPath p (JObj c)) as ->.
  { unfold castPath. simpl. by rewrite lookup_insert_ne. }
  destruct (castPath p (JObj c)) as [|k rest] eqn:Hsegs.
  { by destruct (castPath_nonempty p (JObj c)). }
  assert (k <> k1) as Hk.
  { unfold castPath in Hsegs. destruct (has_prop (JObj c) p).
    - inversion Hsegs. by subst.
    - intros ->. apply Hhead. by rewrite Hsegs. }
  destruct (unsafe_key k); [done|].
  rewrite lookup_insert_ne by done.
  destruct (match rest with [] => Returns v | _ => _ end) as [x|]; [|done].
  simpl. by rewrite insert_insert_ne.
Qed.

Variable getPresetVariableFromValue :
  JsVal -> option string -> option string -> JsVal -> Completion JsVal.

Lemma json_copy_object (m : gmap string JsVal) :
  json_value (JObj (omap json_value m)) = Some (JObj (omap json_value m)).
Proof. by apply (json_value_idem (JObj m)). Qed.

(** A path of plain names has no index segment. *)
Lemma plain_path_named (p : string) :
  plain_path p = true -> named (stringToPath p) = true.
Proof.
  intros Hkeys%plain_path_segments. unfold named.
  induction (stringToPath p) as [|k rest IH]; [done|].
  apply plain_keys_cons in Hkeys as (_ & Hk & Hrest).
  simpl. by rewrite Hk, (IH Hrest).
Qed.

(** The first segment [set] walks from is the path itself or its first
    segment; for the paths of the accessors it is never a refused key. *)
Lemma castPath_first (c : gmap string JsVal) (p head : string)
  (tail : list string) :
  stringToPath p = head :: tail -> unsafe_key head = false ->
  exists k rest,
    castPath p (JObj c) = k :: rest /\ unsafe_key k = false /\
    (k = p \/ k = head).
Proof.
  intros Hp Hhead. unfold castPath. destruct (has_prop (JObj c) p).
  - exists p, []. split_and!; [done| |by left].
    destruct (unsafe_key p) eqn:Hk; [|done].
    apply bool_decide_eq_true in Hk.
    destruct Hk as [->|[->| ->]]; vm_compute in Hp;
      inversion Hp; subst; done.
  - exists head, tail. split_and!; [done..|by right].
Qed.

Lemma set_returns_insert (c : gmap string JsVal) (p : string)
  (v new : JsVal) (k : string) (rest : list string) :
  castPath p (JObj c) = k :: rest -> unsafe_key k = false ->
  set (JObj c) p v = Returns new -> exists x, new = JObj (<[k := x]> c).
Proof.
  intros Hk Hsafe. rewrite set_object_form, Hk, Hsafe.
  destruct (match rest with [] => Returns v | _ => _ end) as [x|]; [|done].
  simpl. intros [= <-]. by eexists.
Qed.

(** Without encoding the style updater hands the new value to [set]. *)
Lemma setStyle_plain (path B : option string) (bundle : gmap string JsVal)
  (newValue : JsVal) (m : gmap string JsVal) :
  setStyle getPresetVariableFromValue path B false bundle newValue (JObj m)
  = set (JObj (omap json_value m)) (finalPath path B) newValue.
Proof. reflexivity. Qed.

(** X21.  An update keeps the configuration plain JSON.  For a user
    configuration that is a mapping, a new value that is plain JSON (its
    own JSON copy) and a resolved path of plain names (no bracket, no
    index, no name every object inherits) along which the copy has
    mappings: [setSetting] returns a configuration that is its own JSON
    copy, and so does [setStyle] without encoding.  The copy the next
    update starts from is therefore the configuration itself. *)
Theorem update_result_is_json (newValue : JsVal) (m : gmap string JsVal) :
  let copy := JObj (omap json_value m) in
  json_value newValue = Some newValue ->
  (forall P B,
     plain_path (contextualPath P B) = true ->
     objects_along copy (castPath (contextualPath P B) copy) = true ->
     exists new,
       setSetting P B newValue (JObj m) = Returns new /\
       json_clone new = Returns new) /\
  (forall path B bundle,
     plain_path (finalPath path B) = true ->
     objects_along copy (castPath (finalPath path B) copy) = true ->
     exists new,
       setStyle getPresetVariableFromValue path B false bundle newValue
                (JObj m) = Returns new /\
       json_clone new = Returns new).
Proof.
  intros copy Hvalue.
  assert (forall p,
            plain_path p = true ->
            objects_along copy (castPath p copy) = true ->
            exists new, set copy p newValue = Returns new /\
                        json_clone new = Returns new) as Hset.
  { intros p Hplain Halong.
    destruct (set_returns copy newValue p) as [new Hnew];
      [by apply plain_path_plain_keys | done |].
    exists new. split; [done|]. unfold json_clone.
    by rewrite (set_json _ _ _ _ (json_copy_object m) Hvalue
                  (plain_path_named _ Hplain) Hnew). }
  split.
  - intros P B Hplain Halong. rewrite setSetting_object. by apply Hset.
  - intros path B bundle Hplain Halong. rewrite setStyle_plain.
    by apply Hset.
Qed.

(** Two writes under different top-level names, in either order. *)
Lemma set_twice (c : gmap string JsVal) (p q : string) (v w : JsVal)
  (k k' : string) (x x' : JsVal) :
  p <> k' -> head (stringToPath p) <> Some k' ->
  q <> k -> head (stringToPath q) <> Some k ->
  k <> k' ->
  set (JObj c) p v = Returns (JObj (<[k := x]> c)) ->
  set (JObj c) q w = Returns (JObj (<[k' := x']> c)) ->
  set (JObj (<[k := x]> c)) q w
    = Returns (JObj (<[k := x]> (<[k' := x']> c))) /\
  set (JObj (<[k' := x']> c)) p v
    = Returns (JObj (<[k := x]> (<[k' := x']> c))).
Proof.
  intros Hp Hhead Hq Hhead' Hne Hfirst Hsecond. split.
  - by rewrite (set_beside c _ _ k x Hq Hhead'), Hsecond.
  - rewrite (set_beside c _ _ k' x' Hp Hhead), Hfirst. simpl.
    do 2 f_equal. by apply insert_insert_ne.
Qed.

(** X22.  A setting write and a style write can be made in either order.
    For a user configuration that is a mapping, values that are plain JSON
    and resolved paths of plain names (no bracket, no index, no name every
    object inherits) along which the copy has mappings: [setSetting] and
    then [setStyle] (without encoding) on its outcome, and [setStyle] and
    then [setSetting] on its outcome, all return, and the two orders end
    in the same configuration. *)
Theorem setting_and_style_writes_commute (P B path B' : option string)
  (bundle : gmap string JsVal) (newSetting newStyle : JsVal)
  (m : gmap string JsVal) :
  let copy := JObj (omap json_value m) in
  json_value newSetting = Some newSetting ->
  json_value newStyle = Some newStyle ->
  plain_path (contextualPath P B) = true ->
  plain_path (finalPath path B') = true ->
  objects_along copy (castPath (contextualPath P B) copy) = true ->
  objects_along copy (castPath (finalPath path B') copy) = true ->
  exists afterSetting afterStyle afterBoth,
    setSetting P B newSetting (JObj m) = Returns afterSetting /\
    setStyle getPresetVariableFromValue path B' false bundle newStyle
             afterSetting = Returns afterBoth /\
    setStyle getPresetVariableFromValue path B' false bundle newStyle
             (JObj m) = Returns afterStyle /\
    setSetting P B newSetting afterStyle = Returns afterBoth.
Proof.
  intros copy Hv Hw Hplain Hplain' Halong Halong'.
  set (c := omap json_value m) in *.
  pose proof (json_copy_object m) as Hc. fold c in Hc.
  destruct (set_returns copy newSetting (contextualPath P B))
    as [afterSetting Hsetting]; [by apply plain_path_plain_keys | done |].
  destruct (set_returns copy newStyle (finalPath path B'))
    as [afterStyle Hstyle]; [by apply plain_path_plain_keys | done |].
  pose proof (set_json _ _ _ _ Hc Hv (plain_path_named _ Hplain) Hsetting)
    as Hjson1.
  pose proof (set_json _ _ _ _ Hc Hw (plain_path_named _ Hplain') Hstyle)
    as Hjson2.
  pose proof (contextualPath_segments P B) as Hps.
  pose proof (finalPath_segments path B') as Hpt.
  destruct (castPath_first c _ _ _ Hps eq_refl)
    as (k & rest & Hk & Hsafe & Hkcase).
  destruct (castPath_first c _ _ _ Hpt eq_refl)
    as (k' & rest' & Hk' & Hsafe' & Hkcase').
  destruct (set_returns_insert _ _ _ _ _ _ Hk Hsafe Hsetting) as [x ->].
  destruct (set_returns_insert _ _ _ _ _ _ Hk' Hsafe' Hstyle) as [x' ->].
  assert (omap json_value (<[k := x]> c) = <[k := x]> c) as Hcopy1
    by (simpl in Hjson1; by inversion Hjson1 as [H]; rewrite !H).
  assert (omap json_value (<[k' := x']> c) = <[k' := x']> c) as Hcopy2
    by (simpl in Hjson2; by inversion Hjson2 as [H]; rewrite !H).
  assert (contextualPath P B <> finalPath path B') as Hpaths.
  { intros Heq. rewrite Heq, Hpt in Hps. by inversion Hps. }
  assert (finalPath path B' <> k) as Hne1.
  { intros Heq. destruct Hkcase as [->| ->]; [done|].
    rewrite Heq in Hpt. by vm_compute in Hpt. }
  assert (head (stringToPath (finalPath path B')) <> Some k) as Hhead1.
  { rewrite Hpt. simpl. intros [= <-].
    destruct Hkcase as [Heq|Heq]; [|done].
    rewrite <- Heq in Hps. by vm_compute in Hps. }
  assert (contextualPath P B <> k') as Hne2.
  { intros Heq. destruct Hkcase' as [->| ->]; [done|].
    rewrite Heq in Hps. by vm_compute in Hps. }
  assert (head (stringToPath (contextualPath P B)) <> Some k') as Hhead2.
  { rewrite Hps. simpl. intros [= <-].
    destruct Hkcase' as [Heq|Heq]; [|done].
    rewrite <- Heq in Hpt. by vm_compute in Hpt. }
  assert (k <> k') as Hkk.
  { intros ->. destruct Hkcase as [->| ->], Hkcase' as [Heq|Heq];
      try done; rewrite ?Heq in *; done. }
  destruct (set_twice c _ _ _ _ k k' x x' Hne2 Hhead2 Hne1 Hhead1 Hkk
              Hsetting Hstyle) as [Hboth1 Hboth2].
  exists (JObj (<[k := x]> c)), (JObj (<[k' := x']> c)),
    (JObj (<[k := x]> (<[k' := x']> c))).
  split_and!.
  - by rewrite setSetting_object.
  - by rewrite setStyle_plain, Hcopy1.
  - by rewrite setStyle_plain.
  - by rewrite setSetting_object, Hcopy2.
Qed.

End PlainJson.

(* ===================================================================== *)
(** ** Two writes at one path, and writes at paths that part              *)
(* ===================================================================== *)

Section WriteAgain.
Import Paths.

Variable getValueFromVariable :
  JsVal -> option string -> JsVal -> Completion JsVal.
Variable getPresetVariableFromValue :
  JsVal -> option string -> option string -> JsVal -> Completion JsVal.

Lemma assignValue_again (o o1 : JsVal) (k : string) (x1 x2 : JsVal) :
  isIndex k = false ->
  assignValue o k x1 = Returns o1 -> assignValue o1 k x2 = assignValue o k x2.
Proof.
  intros Hk Ha. destruct o as [| | | | | l | m]; try done.
  - simpl in Ha. rewrite (named_not_array_index k Hk) in Ha.
    destruct x1; try done. case_bool_decide; [|done]. by inversion Ha.
  - simpl in Ha. inversion Ha; subst o1. simpl.
    by rewrite insert_insert_eq.
Qed.

(** What [baseSet] returns from an object is an object. *)
Lemma baseSet_walk_isObject (path : list string) (o o' v : JsVal) :
  isObject o = true -> baseSet_walk o path v = Returns o' ->
  isObject o' = true.
Proof.
  intros Hobj Hset.
  destruct (baseSet_walk_shape _ _ _ _ Hset)
    as [->|(k & rest & x & _ & _ & Ha)]; [done|].
  by destruct (assignValue_read _ _ _ _ Ha) as (_ & ? & _).
Qed.

(** A second write at the same path forgets the first. *)
Lemma baseSet_walk_again (path : list string) :
  forall (o o1 v1 v2 : JsVal),
    named path = true ->
    baseSet_walk o path v1 = Returns o1 ->
    baseSet_walk o1 path v2 = baseSet_walk o path v2.
Proof.
  induction path as [|k rest IH]; intros o o1 v1 v2 Hnamed Hset.
  - simpl in Hset. by inversion Hset.
  - simpl in Hnamed.
    apply andb_true_iff in Hnamed as [Hk%negb_true_iff Hrest].
    destruct rest as [|next rest'].
    + simpl in *. destruct (unsafe_key k); [by inversion Hset|].
      by apply (assignValue_again o o1 k v1 v2).
    + rewrite !baseSet_walk_step in *.
      destruct (unsafe_key k); [by inversion Hset|].
      destruct (baseSet_walk _ (next :: rest') v1) as [child|] eqn:Hchild;
        [|done].
      simpl in Hset.
      destruct (assignValue_read _ _ _ _ Hset) as (Hget & _ & _).
      rewrite Hget.
      assert (isObject child = true) as Hobj.
      { eapply baseSet_walk_isObject; [|exact Hchild].
        destruct (isObject (get_prop o k)) eqn:Ho; [done|].
        by destruct (isIndex next). }
      rewrite Hobj.
      rewrite (IH _ child v1 v2 Hrest Hchild).
      destruct (baseSet_walk _ (next :: rest') v2) as [child2|]; [|done].
      simpl. by apply (assignValue_again o o1 k child child2).
Qed.

Lemma set_again (c : gmap string JsVal) (p : string) (v1 v2 c1 : JsVal) :
  named (stringToPath p) = true ->
  set (JObj c) p v1 = Returns c1 -> set c1 p v2 = set (JObj c) p v2.
Proof.
  intros Hnamed Hset.
  unfold set in *. simpl isObject in *. cbv iota in *.
  destruct (baseSet_walk_shape _ _ _ _ Hset)
    as [->|(k0 & rest0 & x0 & Hsegs & _ & Ha)]; [done|].
  destruct (assignValue_read _ _ _ _ Ha) as (_ & Hobj & _).
  rewrite Hobj, (castPath_after_set _ _ _ _ _ _ Hsegs Ha).
  unfold castPath in *. destruct (has_prop (JObj c) p).
  - simpl in *. destruct (unsafe_key p); [by inversion Hset|].
    inversion Hset; subst c1. simpl. by rewrite insert_insert_eq.
  - by apply (baseSet_walk_again (stringToPath p) (JObj c) c1 v1 v2).
Qed.

(** X23.  A second setting write at the same place forgets the first.  For
    a user configuration that is a mapping, a first value that is plain
    JSON and a resolved path of plain names (no bracket, no index, no name
    every object inherits): [setSetting] on the configuration a first
    [setSetting] returned, for the same path and block, ends as
    [setSetting] of the second value on the original configuration does,
    with the same configuration or the same error.  The same holds for two
    [setStyle] writes without encoding. *)
Theorem second_write_forgets_first (first second afterFirst : JsVal)
  (m : gmap string JsVal) :
  json_value first = Some first ->
  (forall P B,
     plain_path (contextualPath P B) = true ->
     setSetting P B first (JObj m) = Returns afterFirst ->
     setSetting P B second afterFirst = setSetting P B second (JObj m)) /\
  (forall path B bundle,
     plain_path (finalPath path B) = true ->
     setStyle getPresetVariableFromValue path B false bundle first (JObj m)
       = Returns afterFirst ->
     setStyle getPresetVariableFromValue path B false bundle second
              afterFirst
     = setStyle getPresetVariableFromValue path B false bundle second
                (JObj m)).
Proof.
  intros Hfirst.
  assert (forall p,
            named (stringToPath p) = true ->
            set (JObj (omap json_value m)) p first = Returns afterFirst ->
            json_clone afterFirst = Returns afterFirst /\
            set afterFirst p second
            = set (JObj (omap json_value m)) p second) as Hagain.
  { intros p Hnamed Hset. split; [|by apply (set_again _ _ first)].
    unfold json_clone.
    by rewrite (set_json _ _ _ _ (json_copy_object m) Hfirst Hnamed Hset). }
  split.
  - intros P B Hnamed%plain_path_named. rewrite setSetting_object.
    intros Hset.
    destruct (Hagain _ Hnamed Hset) as [Hcopy Hsame].
    rewrite setSetting_object. unfold setSetting. rewrite Hcopy. exact Hsame.
  - intros path B bundle Hnamed%plain_path_named Hstyle.
    destruct (setStyle_object _ _ _ _ _ _ _ _ Hstyle)
      as (stored & Hset & Hplain & _).
    rewrite (Hplain eq_refl) in Hset.
    destruct (Hagain _ Hnamed Hset) as [Hcopy Hsame].
    unfold setStyle. cbv zeta. rewrite Hcopy.
    change (json_clone (JObj m)) with (Returns (JObj (omap json_value m))).
    exact Hsame.
Qed.

(** The segments of the scope of a block, [settings] or [styles] first. *)
Lemma scoped_path_segments (head : string) (B : option string)
  (P : string) (full : string) :
  P <> "" ->
  stringToPath full
  = head :: (if given B then "blocks" :: stringToPath (text B) else [])
         ++ (if given (Some P) then stringToPath (text (Some P)) else []) ->
  stringToPath full
  = (head :: (if given B then "blocks" :: stringToPath (text B) else []))
      ++ stringToPath P.
Proof. intros HP ->. by rewrite (given_Some P HP). Qed.

Lemma plain_keys_prefix (l1 l2 : list string) :
  plain_keys (l1 ++ l2) = true -> plain_keys l1 = true.
Proof.
  unfold plain_keys. rewrite forallb_app.
  by intros [? _]%andb_true_iff.
Qed.

(** X24.  A setting write is not seen at a path that parts from it.  For a
    user configuration that is a mapping and two paths [P] and [P'] of
    plain names (no bracket, no index, no name every object inherits) that
    share the segments [pre] and then differ ([color.palette] and
    [color.link]; [color.text] and [typography.dropCap]): after
    [setSetting] has written at [P], for a block or without one, the value
    at [P'] in the same scope is the one of the plain copy.  In the copy
    the segments up to the parting lead to an object or to a link with
    nothing below it. *)
Theorem setSetting_other_path (P P' : string) (B : option string)
  (pre : list string) (k k' : string) (r r' : list string)
  (newValue new : JsVal) (m : gmap string JsVal) :
  let copy := JObj (omap json_value m) in
  let scope :=
    "settings"
      :: (if given B then "blocks" :: stringToPath (text B) else []) in
  P <> "" -> P' <> "" ->
  stringToPath P = pre ++ k :: r -> stringToPath P' = pre ++ k' :: r' ->
  k <> k' ->
  plain_path (contextualPath (Some P) B) = true ->
  plain_path (contextualPath (Some P') B) = true ->
  parts_at copy (scope ++ pre) = true ->
  setSetting (Some P) B newValue (JObj m) = Returns new ->
  get new (contextualPath (Some P') B) = get copy (contextualPath (Some P') B).
Proof.
  intros copy scope HP HP' Hsegs Hsegs' Hne Hplain _ Hparts.
  rewrite setSetting_object. fold copy. intros Hset.
  pose proof (scoped_path_segments "settings" B P _ HP
                (contextualPath_segments (Some P) B)) as Hwrite.
  pose proof (scoped_path_segments "settings" B P' _ HP'
                (contextualPath_segments (Some P') B)) as Hread.
  fold scope in Hwrite, Hread.
  rewrite Hsegs, app_assoc in Hwrite. rewrite Hsegs', app_assoc in Hread.
  apply plain_path_segments in Hplain. rewrite Hwrite in Hplain.
  eapply (get_set_frame _ new _ _ newValue (scope ++ pre) k k');
    [exact Hwrite | exact Hread | done | | exact Hparts | exact Hset].
  apply (plain_keys_prefix _ r).
  by rewrite <- app_assoc.
Qed.

(** X25.  A style write is not seen at a path that parts from it: the same
    for [setStyle], with or without encoding, in the scope of a block or at
    the root, for paths of plain names (no bracket, no index, no name
    every object inherits). *)
Theorem setStyle_other_path (path path' : string) (B : option string)
  (encode : bool) (bundle : gmap string JsVal)
  (pre : list string) (k k' : string) (r r' : list string)
  (newValue new : JsVal) (m : gmap string JsVal) :
  let copy := JObj (omap json_value m) in
  let scope :=
    "styles"
      :: (if given B then "blocks" :: stringToPath (text B) else []) in
  path <> "" -> path' <> "" ->
  stringToPath path = pre ++ k :: r -> stringToPath path' = pre ++ k' :: r' ->
  k <> k' ->
  plain_path (finalPath (Some path) B) = true ->
  plain_path (finalPath (Some path') B) = true ->
  parts_at copy (scope ++ pre) = true ->
  setStyle getPresetVariableFromValue (Some path) B encode bundle newValue
           (JObj m) = Returns new ->
  get new (finalPath (Some path') B) = get copy (finalPath (Some path') B) /\
  forall configs decode,
    styleValue getValueFromVariable (Some path') B "user" decode
               (<["user" := new]> configs)
    = styleValue getValueFromVariable (Some path') B "user" decode
                 (<["user" := copy]> configs).
Proof.
  intros copy scope HP HP' Hsegs Hsegs' Hne Hplain _ Hparts Hstyle.
  destruct (setStyle_object _ _ _ _ _ _ _ _ Hstyle) as (stored & Hset & _).
  fold copy in Hset.
  pose proof (scoped_path_segments "styles" B path _ HP
                (finalPath_segments (Some path) B)) as Hwrite.
  pose proof (scoped_path_segments "styles" B path' _ HP'
                (finalPath_segments (Some path') B)) as Hread.
  fold scope in Hwrite, Hread.
  rewrite Hsegs, app_assoc in Hwrite. rewrite Hsegs', app_assoc in Hread.
  apply plain_path_segments in Hplain. rewrite Hwrite in Hplain.
  assert (get new (finalPath (Some path') B)
          = get copy (finalPath (Some path') B)) as Hget.
  { eapply (get_set_frame _ new _ _ stored (scope ++ pre) k k');
      [exact Hwrite | exact Hread | done | | exact Hparts | exact Hset].
    apply (plain_keys_prefix _ r).
    by rewrite <- app_assoc. }
  split; [done|]. intros configs decode.
  by rewrite !(styleValue_user getValueFromVariable), Hget.
Qed.

End WriteAgain.

(* ===================================================================== *)
(** ** Bulk mode and the paths it does not list                           *)
(* ===================================================================== *)

(** X26.  Bulk mode returns nothing for a path that is not on the allow
    list.  For a path [k.k2] of two plain names (one segment each, no
    bracket, no index, no name every object inherits) that is not in
    [VALID_SETTINGS], under a first segment that is not itself an entry of
    the list: the object returned without a path holds nothing at [k.k2],
    whatever the view holds there.  The list has [typography.fuild] and not
    [typography.fluid], so a fluid typography setting is never part of the
    bulk result. *)
Theorem bulk_leaves_out_unlisted (B : option string) (source : string)
  (configs : gmap string JsVal) (k k2 : string) :
  truthy (bundle_member configs (sourceKey source)) = true ->
  stringToPath k = [k] -> stringToPath k2 = [k2] ->
  plain_path k = true -> plain_path k2 = true ->
  k ∉ VALID_SETTINGS -> (k +:+ "." +:+ k2) ∉ VALID_SETTINGS ->
  exists r : gmap string JsVal,
    settingValue None B source configs = Returns (JObj r) /\
    get (JObj r) (k +:+ "." +:+ k2) = JUndefined.
Proof.
  intros Hview Hk Hk2 _ _ Hout Hout2.
  destruct (settingValue_bulk None B source configs eq_refl Hview)
    as (r & Hr & Hc).
  exists r. split; [done|].
  unfold get. simpl nullish. cbv iota.
  rewrite (castPath_plain_keys r _ (collected_keys _ _ _ _ Hc)).
  rewrite stringToPath_app, Hk, Hk2. simpl.
  destruct (r !! k) as [v|] eqn:Hrk; [|done].
  destruct (collected_group _ _ _ _ Hc k v Hrk Hout) as (m & -> & _ & Hm).
  simpl. destruct (m !! k2) as [v2|] eqn:Hm2; [|done].
  by destruct (Hm k2 v2 Hm2) as (_ & Hin & _).
Qed.

(* ===================================================================== *)
(** ** The further theorems at sample inputs                              *)
(* ===================================================================== *)

(** The configuration an update has returned, as the goal mentions it. *)
Ltac with_new tac :=
  match goal with
  | |- context [<["user" := ?new]> _] => tac new
  | |- context [json_clone ?new] => tac new
  end.

Lemma onSelect_pushes_witness :
  exists new,
    Navigation.onSelect (Some []) sample_link = Returns (Some ([] ++ new)) /\
    length new <= 2.
Proof.
  destruct (onSelect_pushes [] sample_link eq_refl eq_refl)
    as (new & Hrun & Hlength & _).
  exists new. split; assumption.
Defined.

Lemma onSelect_page_list_item_witness :
  Navigation.onSelect (Some []) sample_page_item
  = Returns (Some [ Navigation.location (JStr "page") (JNum 3);
                    Navigation.location (JStr "page") (JNum 3) ]).
Proof.
  exact (onSelect_page_list_item [] sample_page_item eq_refl eq_refl eq_refl).
Defined.

Lemma filter_passes_other_sections_witness :
  exists r,
    useSettingsForBlockElement sides_store sample_settings
      (Some "core/group") None = JObj r /\
    r !! "color" = sample_settings_props !! "color".
Proof.
  destruct (filter_passes_other_sections sides_store sample_settings
              (Some "core/group") None "color") as (r & Hr & _ & Hsame).
  - rewrite !not_elem_of_cons. split_and!; try discriminate.
    apply not_elem_of_nil.
  - exists r. split; [exact Hr|]. apply (Hsame sample_settings_props). reflexivity.
Defined.

Lemma filter_identity_when_supported_witness :
  useSettingsForBlockElement flags_store sample_settings
    (Some "core/group") None = sample_settings.
Proof.
  destruct (filter_identity_when_supported flags_store sample_settings
              (Some "core/group") None) as [_ Hsame].
  - intros style section key Hin. unfold Entries.controlled in Hin.
    repeat (apply elem_of_cons in Hin as [[= -> _ _]|Hin];
            [simpl; repeat first [ by left | right ]|]).
    by apply elem_of_nil in Hin.
  - intros key Hkey.
    repeat (apply elem_of_cons in Hkey as [->|Hkey]; [reflexivity|]).
    by apply elem_of_nil in Hkey.
  - apply (Hsame sample_settings_props). reflexivity.
Defined.

Lemma unsupported_flags_disabled_witness :
  get_prop
    (get_prop
       (useSettingsForBlockElement sides_store sample_settings
          (Some "core/group") None) "typography") "lineHeight"
  = JBool false.
Proof.
  apply (unsupported_flags_disabled sides_store sample_settings
           (Some "core/group") None "typography" "lineHeight").
  - by left.
  - simpl. rewrite !not_elem_of_cons. split_and!; try discriminate.
    apply not_elem_of_nil.
Defined.


Lemma spacing_sides_entry_witness :
  get_prop
    (get_prop
       (useSettingsForBlockElement sides_store sample_settings
          (Some "core/group") None) "spacing") "padding"
  = obj [ ("sides", JArr [JStr "top"; JStr "bottom"]) ] /\
  get_prop
    (get_prop
       (useSettingsForBlockElement padded_store sample_settings
          (Some "core/group") None) "spacing") "padding"
  = obj [ ("top", JBool true); ("sides", JArr [JStr "top"; JStr "bottom"]) ].
Proof.
  split.
  - rewrite (spacing_sides_entry sides_store sample_settings
               (Some "core/group") None "padding");
      [by vm_compute | by left | reflexivity].
  - rewrite (spacing_sides_entry padded_store sample_settings
               (Some "core/group") None "padding");
      [by vm_compute | by left | reflexivity].
Defined.

Lemma spacing_entry_without_sides_witness :
  get_prop
    (get_prop
       (useSettingsForBlockElement sides_store sample_settings
          (Some "core/group") None) "spacing") "blockGap"
  = JBool false /\
  opt_get
    (get_prop
       (useSettingsForBlockElement sides_store sample_settings
          (Some "core/group") None) "spacing") "margin"
  = JBool true.
Proof.
  split.
  - apply (spacing_entry_without_sides sides_store sample_settings
             (Some "core/group") None "blockGap").
    + repeat first [ by left | right ].
    + left. reflexivity.
    + simpl. rewrite !not_elem_of_cons. split_and!; try discriminate.
      apply not_elem_of_nil.
  - destruct (spacing_entry_without_sides sides_store sample_settings
                (Some "core/group") None "margin") as [_ Hkept].
    + repeat first [ by left | right ].
    + left. reflexivity.
    + rewrite Hkept; [reflexivity|]. simpl. repeat first [ by left | right ].
Defined.

Lemma setSetting_keeps_styles_witness :
  exists new,
    setSetting (Some "color.palette") (Some "core/paragraph")
               (JArr [JStr "b"]) (JObj sample_user_props) = Returns new /\
    styleValue plain_decode (Some "css") (Some "core/paragraph") "user" false
               (<["user" := new]> sample_bundle)
    = Returns (JStr "p{}").
Proof.
  eexists. split; [vm_compute; reflexivity|].
  rewrite (setSetting_keeps_styles plain_decode (Some "color.palette")
             (Some "core/paragraph") (JArr [JStr "b"]) _ sample_user_props);
    [|vm_compute; reflexivity].
  vm_compute. reflexivity.
Defined.

Lemma setStyle_keeps_settings_witness :
  exists new,
    setStyle plain_encode (Some "color.text") None false sample_bundle
             (JStr "red") (JObj sample_user_props) = Returns new /\
    settingValue (Some "color.link") (Some "core/paragraph") "user"
                 (<["user" := new]> sample_bundle)
    = Returns (JBool true).
Proof.
  eexists. split; [vm_compute; reflexivity|].
  rewrite (setStyle_keeps_settings plain_encode (Some "color.text") None
             false sample_bundle (JStr "red") _ sample_user_props);
    [|vm_compute; reflexivity].
  vm_compute. reflexivity.
Defined.

Lemma setSetting_other_block_witness :
  exists new,
    setSetting (Some "color.link") (Some "core/heading") (JBool false)
               (JObj sample_user_props) = Returns new /\
    settingValue (Some "color.link") (Some "core/paragraph") "user"
                 (<["user" := new]> sample_bundle)
    = Returns (JBool true).
Proof.
  eexists. split; [vm_compute; reflexivity|].
  with_new ltac:(fun new =>
    destruct (setSetting_other_block (Some "color.link") "core/heading"
                "core/paragraph" "color.link" (JBool false) new
                sample_user_props sample_bundle)
      as (_ & _ & Hread);
      [ discriminate | discriminate | discriminate | reflexivity
      | reflexivity | vm_compute; reflexivity | vm_compute; reflexivity
      | discriminate | vm_compute; reflexivity | discriminate
      | reflexivity | vm_compute; reflexivity | ]).
  rewrite Hread. vm_compute. reflexivity.
Defined.

Lemma setStyle_other_block_witness :
  exists new,
    setStyle plain_encode (Some "css") (Some "core/heading") false
             sample_bundle (JStr "h1{}") (JObj sample_user_props)
      = Returns new /\
    styleValue plain_decode (Some "css") (Some "core/paragraph") "user" false
               (<["user" := new]> sample_bundle)
    = Returns (JStr "p{}") /\
    styleValue plain_decode (Some "css") None "user" false
               (<["user" := new]> sample_bundle)
    = Returns (JStr "").
Proof.
  eexists. split; [vm_compute; reflexivity|].
  with_new ltac:(fun new =>
    destruct (setStyle_other_block plain_decode plain_encode (Some "css")
                "core/heading" false sample_bundle (JStr "h1{}") new
                sample_user_props sample_bundle)
      as [Hblock Hroot];
      [ discriminate | reflexivity | vm_compute; reflexivity | reflexivity
      | vm_compute; reflexivity | ]).
  split.
  - rewrite (Hblock "core/paragraph" (Some "css") false);
      [ vm_compute; reflexivity | discriminate | discriminate | reflexivity
      | vm_compute; reflexivity ].
  - rewrite (Hroot "css" false);
      [ vm_compute; reflexivity | discriminate | vm_compute; reflexivity
      | discriminate ].
Defined.

Lemma setting_written_then_read_witness :
  exists new,
    setSetting (Some "color.link") (Some "core/paragraph") JNull
               (JObj sample_user_props) = Returns new /\
    settingValue (Some "color.link") (Some "core/paragraph") "user"
                 (<["user" := new]> sample_bundle)
    = Returns (get new "settings.color.link").
Proof.
  eexists. split; [vm_compute; reflexivity|].
  destruct (setting_written_then_read "color.link"
              (Some "core/paragraph") JNull sample_user_props sample_bundle)
    as [Hread _]; [discriminate | vm_compute; reflexivity|].
  with_new ltac:(fun new =>
    destruct (Hread new) as [_ Hnull]; [vm_compute; reflexivity|]).
  apply Hnull. reflexivity.
Defined.

Lemma style_written_then_read_witness :
  exists new,
    setStyle plain_encode (Some "color.text") (Some "core/paragraph") true
             sample_bundle (JStr "red") (JObj sample_user_props)
      = Returns new /\
    styleValue plain_decode (Some "color.text") (Some "core/paragraph")
               "user" true (<["user" := new]> sample_bundle)
    = Returns (JStr "red").
Proof.
  eexists. split; [vm_compute; reflexivity|].
  with_new ltac:(fun new =>
    destruct (style_written_then_read plain_decode plain_encode
                (Some "color.text") (Some "core/paragraph") true
                sample_bundle sample_bundle (JStr "red") new
                sample_user_props)
      as [_ Hencoded]; [vm_compute; reflexivity | vm_compute; reflexivity|]).
  destruct (Hencoded eq_refl) as (stored & Hstored & _ & Hread).
  apply Hread. unfold plain_encode in Hstored. inversion Hstored. reflexivity.
Defined.


Lemma bulk_agrees_with_single_witness :
  exists r single,
    settingValue None (Some "core/paragraph") "all" sample_bundle
      = Returns (JObj r) /\
    settingValue (Some "color.link") (Some "core/paragraph") "all"
                 sample_bundle = Returns single /\
    get (JObj r) "color.link" = if truthy single then single else JUndefined.
Proof.
  apply (bulk_agrees_with_single (Some "core/paragraph") "all" sample_bundle
           "color.link"); [reflexivity|].
  unfold VALID_SETTINGS. repeat first [ by left | right ].
Defined.

Lemma update_result_is_json_witness :
  exists new,
    setSetting (Some "color.palette") (Some "core/paragraph")
               (JArr [JStr "b"]) (JObj sample_user_props) = Returns new /\
    json_clone new = Returns new.
Proof.
  destruct (update_result_is_json plain_encode (JArr [JStr "b"])
              sample_user_props eq_refl) as [Hsetting _].
  apply (Hsetting (Some "color.palette") (Some "core/paragraph"));
    vm_compute; reflexivity.
Defined.

Lemma setting_and_style_writes_commute_witness :
  exists afterSetting afterStyle afterBoth,
    setSetting (Some "color.link") None (JBool true) (JObj sample_user_props)
      = Returns afterSetting /\
    setStyle plain_encode (Some "color.text") None false sample_bundle
             (JStr "red") afterSetting = Returns afterBoth /\
    setStyle plain_encode (Some "color.text") None false sample_bundle
             (JStr "red") (JObj sample_user_props) = Returns afterStyle /\
    setSetting (Some "color.link") None (JBool true) afterStyle
      = Returns afterBoth.
Proof.
  apply (setting_and_style_writes_commute plain_encode
           (Some "color.link") None (Some "color.text") None
           sample_bundle (JBool true) (JStr "red") sample_user_props);
    vm_compute; reflexivity.
Defined.

Lemma second_write_forgets_first_witness :
  exists afterFirst,
    setSetting (Some "color.link") (Some "core/paragraph") JNull
               (JObj sample_user_props) = Returns afterFirst /\
    setSetting (Some "color.link") (Some "core/paragraph") (JBool false)
               afterFirst
    = setSetting (Some "color.link") (Some "core/paragraph") (JBool false)
                 (JObj sample_user_props).
Proof.
  let first :=
    eval vm_compute in
      (setSetting (Some "color.link") (Some "core/paragraph") JNull
                  (JObj sample_user_props)) in
  match first with
  | Returns ?afterFirst =>
      exists afterFirst; split; [vm_compute; reflexivity|];
      destruct (second_write_forgets_first plain_encode JNull (JBool false)
                  afterFirst sample_user_props eq_refl) as [Hsetting _];
      apply (Hsetting (Some "color.link") (Some "core/paragraph"));
        [vm_compute; reflexivity | vm_compute; reflexivity]
  end.
Defined.

Lemma setSetting_other_path_witness :
  exists new,
    setSetting (Some "color.palette") (Some "core/paragraph")
               (JArr [JStr "b"]) (JObj sample_user_props) = Returns new /\
    get new (contextualPath (Some "color.link") (Some "core/paragraph"))
    = JBool true.
Proof.
  eexists. split; [vm_compute; reflexivity|].
  match goal with
  | |- get ?new _ = _ =>
      rewrite (setSetting_other_path "color.palette" "color.link"
                 (Some "core/paragraph") ["color"] "palette" "link" [] []
                 (JArr [JStr "b"]) new sample_user_props);
        [ vm_compute; reflexivity | discriminate | discriminate
        | reflexivity | reflexivity | discriminate
        | vm_compute; reflexivity | vm_compute; reflexivity
        | vm_compute; reflexivity | vm_compute; reflexivity ]
  end.
Defined.

Lemma setStyle_other_path_witness :
  exists new,
    setStyle plain_encode (Some "color.text") None false sample_bundle
             (JStr "red") (JObj sample_user_props) = Returns new /\
    get new (finalPath (Some "css") None) = JStr "".
Proof.
  eexists. split; [vm_compute; reflexivity|].
  match goal with
  | |- get ?new _ = _ =>
      destruct (setStyle_other_path plain_decode plain_encode
                  "color.text" "css" None false sample_bundle
                  [] "color" "css" ["text"] []
                  (JStr "red") new sample_user_props)
        as [Hget _];
        [ discriminate | discriminate | reflexivity | reflexivity
        | discriminate | vm_compute; reflexivity | vm_compute; reflexivity
        | vm_compute; reflexivity | vm_compute; reflexivity | ]
  end.
  rewrite Hget. vm_compute. reflexivity.
Defined.

Lemma bulk_leaves_out_unlisted_witness :
  exists r,
    settingValue None None "user"
      (<["user" := obj [ ("settings",
                          obj [ ("typography",
                                 obj [ ("fluid", JBool true);
                                       ("dropCap", JBool true) ]) ]) ]]> ∅)
      = Returns (JObj r) /\
    get (JObj r) "typography.fluid" = JUndefined.
Proof.
  apply (bulk_leaves_out_unlisted None "user" _ "typography" "fluid");
    [ reflexivity | reflexivity | reflexivity | vm_compute; reflexivity
    | vm_compute; reflexivity | | ];
    unfold VALID_SETTINGS; rewrite !not_elem_of_cons;
    (split_and!; [discriminate..|apply not_elem_of_nil]).
Defined.

Lemma filter_depends_on_support_and_sides_witness :
  useSettingsForBlockElement sides_store sample_settings
    (Some "core/group") None
  = useSettingsForBlockElement sides_object_store sample_settings
      (Some "core/cover") None.
Proof.
  apply (filter_depends_on_support_and_sides sides_store sides_object_store
           sample_settings (Some "core/group") None (Some "core/cover") None).
  - intros style section key Hin. unfold Entries.controlled in Hin. simpl.
    repeat (apply elem_of_cons in Hin as [[= -> _ _]|Hin];
            [ split; intros H;
              first [ solve [repeat first [ by left | right ]]
                    | exfalso;
                      repeat (apply elem_of_cons in H as [H|H];
                              [discriminate H|]);
                      by apply elem_of_nil in H ] |]).
    by apply elem_of_nil in Hin.
  - intros key Hkey.
    repeat (apply elem_of_cons in Hkey as [->|Hkey]; [reflexivity|]).
    by apply elem_of_nil in Hkey.
Defined.

